(** * Job-listings dashboards: the cleaning and filtering pipeline

    A shallow embedding of [GUI.py] (ingestion, field derivation, the
    sidebar options and filters, the salary metrics and the word-cloud
    tokens) and of [TOOLSGUI.py] ([determine_job_level], the job-level
    column and the three filters), with the pandas and [re] operations
    the two scripts call written out as executable functions.

    Modelling decisions, fixed once for the whole development:

    - A Python [str] is a list of code points.  The code-point type is
      [ascii], read as the range U+0000..U+00FF (Latin-1), which contains
      every character the scripts name: [$], [,], [-] and the middle dot
      U+00B7.  The character classes below are Python's classification of
      exactly these 256 code points.
    - A table cell of [GUI.py] as read from the CSV file is either a text
      or missing; numeric type inference by the CSV reader is not
      modelled.  The table of [TOOLSGUI.py] is taken as read: a cell is
      a text, a number or missing.
    - A float is a binary64 number.  A finite one is kept as the rational
      it is, and a text is read as the binary64 number nearest to the
      decimal it spells ([b64]: round to nearest, ties to even, infinity
      beyond the range).  Comparisons of floats are exact in Python as
      well.  Two things are not kept: the sign of zero, and the integer
      type pandas gives a column of whole numbers; such a column is read
      as the floats of the same numbers, which are the same numbers
      below 2^53. *)

From Stdlib Require Import Ascii String QArith Qpower Qcanon.
From stdpp Require Import gmap strings list fin_maps.

Local Open Scope char_scope.
Local Open Scope list_scope.

(** ** Text *)

Module Text.

(** Python [str], restricted to the Latin-1 code points. *)
Definition pystr : Type := list ascii.

(** A literal. *)
Definition py (s : string) : pystr := list_ascii_of_string s.

(** The code point of a character. *)
Definition cp (c : ascii) : N := N_of_ascii c.

Definition between (lo hi : N) (c : ascii) : bool :=
  ((lo <=? cp c) && (cp c <=? hi))%N.

(** [str.isspace] on one code point, which is also the class [\s] of a
    [str] pattern: TAB..CR, FS..US, SPACE, NEL (U+0085), NBSP (U+00A0). *)
Definition is_space (c : ascii) : bool :=
  between 9 13 c || between 28 32 c || (cp c =? 133)%N || (cp c =? 160)%N.

(** The class [\w] of a [str] pattern: alphanumeric in the Unicode
    database, or the underscore.  In Latin-1 the alphanumerics are the
    ASCII letters and digits, U+00AA, U+00B2, U+00B3, U+00B5, U+00B9,
    U+00BA, U+00BC..U+00BE, and the letters U+00C0..U+00FF without the
    two operators U+00D7 and U+00F7. *)
Definition is_word (c : ascii) : bool :=
  between 48 57 c || between 65 90 c || (cp c =? 95)%N || between 97 122 c
  || (cp c =? 170)%N || between 178 179 c || (cp c =? 181)%N
  || between 185 186 c || between 188 190 c
  || between 192 214 c || between 216 246 c || between 248 255 c.

(** Simple lower-casing of one code point ([str.lower], and the case
    folding of [re.IGNORECASE]): A..Z, U+00C0..U+00D6 and U+00D8..U+00DE
    move up by 32. *)
Definition lower_char (c : ascii) : ascii :=
  if between 65 90 c || between 192 214 c || between 216 222 c
  then ascii_of_N (cp c + 32) else c.

Definition lower (s : pystr) : pystr := lower_char <$> s.

Fixpoint take_while (p : ascii → bool) (s : pystr) : pystr :=
  match s with
  | a :: s' => if p a then a :: take_while p s' else []
  | [] => []
  end.

Fixpoint drop_while (p : ascii → bool) (s : pystr) : pystr :=
  match s with
  | a :: s' => if p a then drop_while p s' else s
  | [] => []
  end.

(** [s.strip()]: white space removed at both ends. *)
Definition strip (s : pystr) : pystr :=
  reverse (drop_while is_space (reverse (drop_while is_space s))).

(** [s.replace(c, "")] for a one-character [c]. *)
Definition remove_char (c : ascii) (s : pystr) : pystr :=
  filter (λ a, a ≠ c) s.

(** [s.split(sep)] for a one-character separator: never empty, the
    pieces in order, empty pieces kept. *)
Fixpoint split (sep : ascii) (s : pystr) : list pystr :=
  match s with
  | [] => [[]]
  | a :: s' =>
      if decide (a = sep) then [] :: split sep s'
      else match split sep s' with
           | w :: ws => (a :: w) :: ws
           | [] => [[a]]
           end
  end.

(** The middle dot, U+00B7. *)
Definition middle_dot : ascii := ascii_of_N 183.

End Text.

(** ** Regular expressions

    The fragment of [re] the scripts use, with the backtracking order of
    Python's matcher: [ms r prev s] lists every way [r] can match at the
    position whose preceding character is [prev] and whose remaining
    text is [s], most preferred first.  Python returns the first. *)

Module Re.
Import Text.

Inductive regex : Type :=
| Eps                        (* the empty pattern *)
| Chr (p : ascii → bool)     (* one character of a class *)
| Star (p : ascii → bool)    (* greedy [c*] for a class [c] *)
| Cat (r1 r2 : regex)
| Alt (r1 r2 : regex)        (* [r1|r2], [r1] preferred *)
| Grp (r : regex)            (* the capturing group *)
| Bos                        (* [^] *)
| Eos                        (* [$] *)
| Wb.                        (* [\b] *)

(** Greedy [c+]. *)
Definition Plus (p : ascii → bool) : regex := Cat (Chr p) (Star p).

(** A literal character; under [re.IGNORECASE] it matches every
    character with the same lower-case form. *)
Definition Lit (c : ascii) : regex := Chr (λ a, bool_decide (a = c)).
Definition LitI (c : ascii) : regex :=
  Chr (λ a, bool_decide (lower_char a = lower_char c)).

(** A literal word under [re.IGNORECASE]. *)
Definition WordI (w : pystr) : regex := foldr (λ c r, Cat (LitI c) r) Eps w.

(** One way of matching: the text consumed and the text of the group,
    if the group took part. *)
Definition hit : Type := pystr * option pystr.

(** The prefixes of [s] made of characters of class [p], longest first. *)
Fixpoint runs (p : ascii → bool) (s : pystr) : list pystr :=
  match s with
  | a :: s' => if p a then (cons a <$> runs p s') ++ [[]] else [[]]
  | [] => [[]]
  end.

(** The character before the position reached after consuming [w]. *)
Definition prev_after (prev : option ascii) (w : pystr) : option ascii :=
  match last w with Some a => Some a | None => prev end.

Definition word_before (prev : option ascii) : bool :=
  match prev with Some a => is_word a | None => false end.
Definition word_after (s : pystr) : bool :=
  match s with a :: _ => is_word a | [] => false end.

Fixpoint ms (r : regex) (prev : option ascii) (s : pystr) : list hit :=
  match r with
  | Eps => [([], None)]
  | Chr p =>
      match s with
      | a :: _ => if p a then [([a], None)] else []
      | [] => []
      end
  | Star p => (λ w, (w, None)) <$> runs p s
  | Cat r1 r2 =>
      h1 ← ms r1 prev s;
      h2 ← ms r2 (prev_after prev h1.1) (drop (length h1.1) s);
      [(h1.1 ++ h2.1, match h2.2 with Some g => Some g | None => h1.2 end)]
  | Alt r1 r2 => ms r1 prev s ++ ms r2 prev s
  | Grp r' => (λ h : hit, (h.1, Some h.1)) <$> ms r' prev s
  | Bos => match prev with None => [([], None)] | Some _ => [] end
  | Eos =>
      (* the end of the text, or just before a final newline *)
      if bool_decide (s = [] ∨ s = ["010"]) then [([], None)] else []
  | Wb => if xorb (word_before prev) (word_after s) then [([], None)] else []
  end.

(** [re.search]: the first position, from the left, where the pattern
    matches, with the preferred match there. *)
Fixpoint search_from (r : regex) (prev : option ascii) (s : pystr)
    : option hit :=
  match ms r prev s with
  | h :: _ => Some h
  | [] =>
      match s with
      | a :: s' => search_from r (Some a) s'
      | [] => None
      end
  end.

Definition search (r : regex) (s : pystr) : option hit :=
  search_from r None s.

(** The text of the group in the first match ([Series.str.extract] on
    one text): [None] when nothing matches. *)
Definition extract (r : regex) (s : pystr) : option pystr :=
  h ← search r s; h.2.

(** [re.sub(r, "", s)]: every match, found from the left and without
    overlap, is deleted.  The two patterns the script deletes never
    match the empty text; where a pattern does, nothing is deleted and
    the scan moves on by one character. *)
Fixpoint delete_from (fuel : nat) (r : regex) (prev : option ascii)
    (s : pystr) : pystr :=
  match fuel with
  | O => s
  | S fuel' =>
      match ms r prev s with
      | (a :: w, _) :: _ =>
          delete_from fuel' r (prev_after prev (a :: w))
            (drop (length (a :: w)) s)
      | _ =>
          match s with
          | a :: s' => a :: delete_from fuel' r (Some a) s'
          | [] => []
          end
      end
  end.

Definition delete_matches (r : regex) (s : pystr) : pystr :=
  delete_from (S (length s)) r None s.

End Re.

(** ** Numbers *)

Module Num.
Import Text.

(** A Python or NumPy float: not-a-number, an infinity, or a finite
    value, the rational number it is.  An integer is the finite value
    it denotes. *)
Inductive float : Type :=
| NaN
| NegInf
| Fin (q : Q)
| PosInf.

Global Instance Q_eq_dec : EqDecision Q.
Proof. solve_decision. Defined.

Global Instance float_eq_dec : EqDecision float.
Proof. solve_decision. Defined.

(** [a <= b]; every comparison with NaN is false. *)
Definition le (a b : float) : bool :=
  match a, b with
  | NaN, _ | _, NaN => false
  | NegInf, _ => true
  | _, PosInf => true
  | Fin x, Fin y => Qle_bool x y
  | _, _ => false
  end.

(** [a < b]. *)
Definition lt (a b : float) : bool :=
  match a, b with
  | NaN, _ | _, NaN => false
  | Fin x, Fin y => negb (Qle_bool y x)
  | NegInf, NegInf | PosInf, PosInf => false
  | NegInf, _ => true
  | _, PosInf => true
  | _, _ => false
  end.

Definition ge (a b : float) : bool := le b a.

Definition of_Z (z : Z) : float := Fin (inject_Z z).

Definition isnan (a : float) : bool :=
  match a with NaN => true | _ => false end.

(** [Series.min()] and [Series.max()] of a float column: missing values
    are skipped, and the result is NaN when nothing is left. *)
Definition series_min (xs : list float) : float :=
  foldr (λ x acc,
           if isnan x then acc
           else if isnan acc then x
           else if le x acc then x else acc) NaN xs.

Definition series_max (xs : list float) : float :=
  foldr (λ x acc,
           if isnan x then acc
           else if isnan acc then x
           else if le acc x then x else acc) NaN xs.

(** *** Binary64

    A finite float is a binary64 number: 53 significant bits, binary
    exponents from -1022 to 1023, with the spacing 2^-1074 below
    2^-1022.  [b64] is the rounding every conversion to a float ends
    in, IEEE 754 round to nearest with ties to even.  The sign of zero
    is not kept. *)

Definition opp (x : float) : float :=
  match x with
  | NaN => NaN
  | NegInf => PosInf
  | Fin q => Fin (- q)
  | PosInf => NegInf
  end.

(** The integer nearest to [a / b], ties to even, for [0 <= a]. *)
Definition round_half_even (a : Z) (b : positive) : Z :=
  let fl := (a / Z.pos b)%Z in
  match (2 * (a mod Z.pos b) ?= Z.pos b)%Z with
  | Lt => fl
  | Gt => (fl + 1)%Z
  | Eq => if Z.even fl then fl else (fl + 1)%Z
  end.

(** [floor (log2 (n / d))] *)
Definition floor_log2 (n d : positive) : Z :=
  let e := (Z.log2 (Z.pos n) - Z.log2 (Z.pos d))%Z in
  if (Z.pos d * 2 ^ Z.max 0 e <=? Z.pos n * 2 ^ Z.max 0 (- e))%Z
  then e else (e - 1)%Z.

(** The binary64 number nearest to [n / d]: the significand [k] counts
    units of [2 ^ u]. *)
Definition b64_pos (n d : positive) : float :=
  let e := Z.max (floor_log2 n d) (-1022) in
  let u := (e - 52)%Z in
  let k := round_half_even (Z.pos n * 2 ^ Z.max 0 (- u))
             (d * Z.to_pos (2 ^ Z.max 0 u)) in
  if (1024 <=? (if (k =? 2 ^ 53)%Z then e + 1 else e))%Z then PosInf
  else Fin (Qred ((k * 2 ^ Z.max 0 u) # Z.to_pos (2 ^ Z.max 0 (- u)))).

Definition b64 (q : Q) : float :=
  match Qnum q with
  | Z0 => Fin 0
  | Z.pos n => b64_pos n (Qden q)
  | Z.neg n => opp (b64_pos n (Qden q))
  end.

(** *** The numeric text grammar of [pd.to_numeric] *)

Definition is_digit (c : ascii) : bool := between 48 57 c.

(** C [isspace] on ASCII, as the number parser uses it. *)
Definition is_space_ascii (c : ascii) : bool :=
  between 9 13 c || (cp c =? 32)%N.

Definition digits_value (ds : pystr) : Z :=
  fold_left (λ acc d, 10 * acc + Z.of_N (cp d - 48))%Z ds 0%Z.

Definition sign (s : pystr) : bool * pystr :=
  match s with
  | "-" :: t => (true, t)
  | "+" :: t => (false, t)
  | _ => (false, s)
  end.

(** [m * 10^e], in lowest terms. *)
Definition scale (m e : Z) : Q :=
  if (0 <=? e)%Z then inject_Z (m * 10 ^ e)
  else Qred (m # Z.to_pos (10 ^ (- e))).

(** The digits after a decimal point, if there is one, and the rest. *)
Definition fraction (s : pystr) : pystr * pystr :=
  match s with
  | "." :: t => (take_while is_digit t, drop_while is_digit t)
  | _ => ([], s)
  end.

(** The value of an exponent part, if there is one with at least one
    digit, and the rest; otherwise nothing is consumed. *)
Definition exponent (s : pystr) : Z * pystr :=
  match s with
  | c :: t =>
      if bool_decide (c = "e" ∨ c = "E") then
        let '(eneg, t) := sign t in
        let ds := take_while is_digit t in
        if bool_decide (ds = []) then (0%Z, s)
        else ((if eneg then - digits_value ds else digits_value ds)%Z,
              drop_while is_digit t)
      else (0%Z, s)
  | [] => (0%Z, s)
  end.

(** The number a decimal text spells, exactly: optional white space, an
    optional sign, digits with an optional fraction (at least one digit
    in all), an optional exponent with at least one digit, optional
    white space, and then the end of the text.  [None] when the text
    is not of this form. *)
Definition decimal (s : pystr) : option Q :=
  let s := drop_while is_space_ascii s in
  let '(neg, s) := sign s in
  let ip := take_while is_digit s in
  let '(fp, s) := fraction (drop_while is_digit s) in
  if bool_decide (ip ++ fp = []) then None
  else
    let '(ex, s) := exponent s in
    let m := digits_value (ip ++ fp) in
    if bool_decide (drop_while is_space_ascii s = []) then
      Some (scale (if neg then - m else m)%Z (ex - Z.of_nat (length fp))%Z)
    else None.

(** One text under [pd.to_numeric(..., errors="coerce")]: the float of
    a decimal text, that is the binary64 number nearest to the number
    it spells, an infinity when that is out of range; an infinity for
    one of its spellings in any letter case; and NaN for everything
    else. *)
Definition to_numeric (s : pystr) : float :=
  match decimal s with
  | Some q => b64 q
  | None =>
      if bool_decide (lower s ∈ [py "inf"; py "+inf"; py "infinity";
                                 py "+infinity"])
      then PosInf
      else if bool_decide (lower s ∈ [py "-inf"; py "-infinity"])
      then NegInf
      else NaN
  end.

End Num.

(** ** Data frames *)

Module Frame.
Import Text.

(** A frame: the column labels in order, and the records in order.  A
    record maps a column label to its cell; a label without a binding
    is a missing cell. *)
Record frame (A : Type) : Type := Build_frame {
  columns : list pystr;
  rows : list (gmap pystr A)
}.
Global Arguments Build_frame {A} _ _.
Global Arguments columns {A} _.
Global Arguments rows {A} _.

Section ops.
Context {A : Type} `{EqDecision A}.
Implicit Types (df : frame A) (r : gmap pystr A) (c : pystr).

(** [c in df.columns] *)
Definition has_column c df : bool := bool_decide (c ∈ columns df).

(** [df.dropna(axis=1, how='all')]: a column stays when some record
    has a value in it.  The records lose nothing: a dropped column
    has no binding in any of them. *)
Definition dropna_columns df : frame A :=
  {| columns :=
       filter (λ c, Exists (λ r, is_Some (r !! c)) (rows df)) (columns df);
     rows := rows df |}.

(** [df.columns = df.columns.str.strip()]: the labels are trimmed;
    each record is re-keyed column by column.  The model takes the
    trimmed labels to be distinct, as the labels of a CSV header are
    after reading; should two become equal, the leftmost column is the
    one kept here. *)
Definition rekey (cols : list pystr) r : gmap pystr A :=
  foldr (λ c m, match r !! c with
                | Some v => <[strip c := v]> m
                | None => m
                end) ∅ cols.

Definition strip_columns df : frame A :=
  {| columns := strip <$> columns df;
     rows := rekey (columns df) <$> rows df |}.

(** [drop_duplicates], on a key: the first record of every key is
    kept, in the order of the frame. *)
Fixpoint keep_first {K} `{EqDecision K} (key : gmap pystr A → K)
    (seen : list K) (rs : list (gmap pystr A)) : list (gmap pystr A) :=
  match rs with
  | [] => []
  | r :: rs' =>
      if decide (key r ∈ seen) then keep_first key seen rs'
      else r :: keep_first key (key r :: seen) rs'
  end.

(** [df.drop_duplicates()]: the key is the whole record. *)
Definition drop_duplicates df : frame A :=
  {| columns := columns df; rows := keep_first id [] (rows df) |}.

(** [df.drop_duplicates(subset=[c])]: the key is the cell of [c];
    missing cells count as equal to one another. *)
Definition drop_duplicates_on c df : frame A :=
  {| columns := columns df;
     rows := keep_first (λ r, r !! c) [] (rows df) |}.

(** [df[c] = f(row)], record by record: an existing column is
    overwritten in place, a new one is added on the right. *)
Definition assign c (f : gmap pystr A → A) df : frame A :=
  {| columns := if has_column c df then columns df else columns df ++ [c];
     rows := (λ r, <[c := f r]> r) <$> rows df |}.

(** [df.drop(columns=[c])] *)
Definition drop_column c df : frame A :=
  {| columns := filter (λ c', c' ≠ c) (columns df);
     rows := delete c <$> rows df |}.

(** [df.rename(columns={c: c'})] *)
Definition rename c c' df : frame A :=
  {| columns := (λ x, if decide (x = c) then c' else x) <$> columns df;
     rows := (λ r, match r !! c with
                   | Some v => <[c' := v]> (delete c r)
                   | None => r
                   end) <$> rows df |}.

End ops.

End Frame.

(** ** GUI.py *)

Module GUI.
Import Text Re Num Frame.

(** A cell of the cleaned frame: a text, a float (NaN is the missing
    value), or the list of texts the skills column holds. *)
Inductive value : Type :=
| VStr (s : pystr)
| VFloat (x : float)
| VList (l : list pystr).

Global Instance value_eq_dec : EqDecision value.
Proof. solve_decision. Defined.

Definition nan : value := VFloat NaN.

(** The cell of column [c] in a record; a label without a binding is a
    missing cell, that is NaN. *)
Definition cell (r : gmap pystr value) (c : pystr) : value :=
  default nan (r !! c).

Definition isna (v : value) : bool :=
  match v with VFloat NaN => true | _ => false end.

(** *** Column labels *)

Definition Salary : pystr := py "Salary (USD)".
Definition Location : pystr := py "Location".
Definition Job_Title : pystr := py "Job Title".
Definition Company_Name : pystr := py "Company Name".
Definition Link : pystr := py "Link".
Definition Skills : pystr := py "Skills".
Definition Skills_List : pystr := py "Skills List".
Definition Country : pystr := py "Country".
Definition Seniority : pystr := py "Seniority".
Definition City : pystr := py "City".

(** [required_columns] *)
Definition required_columns : gset pystr :=
  {[ Salary; Location; Job_Title; Company_Name; Link ]}.

(** *** The patterns *)

(** ["[$,]"] *)
Definition salary_symbols : regex :=
  Chr (λ a, bool_decide (a = "$" ∨ a = ",")).

(** [r"\s*-\s*$"] *)
Definition company_tail : regex :=
  Cat (Star is_space) (Cat (Lit "-") (Cat (Star is_space) Eos)).

(** [r',\s*(\w+)$'] *)
Definition country_re : regex :=
  Cat (Lit ",") (Cat (Star is_space) (Cat (Grp (Plus is_word)) Eos)).

(** [r'\b(Senior|Junior|Intern|Lead|Manager)\b'] with [re.IGNORECASE] *)
Definition keywords : list pystr :=
  [py "Senior"; py "Junior"; py "Intern"; py "Lead"; py "Manager"].

Definition seniority_re : regex :=
  Cat Wb
    (Cat (Grp (Alt (WordI (py "Senior"))
              (Alt (WordI (py "Junior"))
              (Alt (WordI (py "Intern"))
              (Alt (WordI (py "Lead"))
                   (WordI (py "Manager")))))))
         Wb).

(** [r'^([^,]+)'] *)
Definition not_comma (a : ascii) : bool := negb (bool_decide (a = ",")).
Definition city_re : regex := Cat Bos (Grp (Plus not_comma)).

(** *** The [.str] methods, cell by cell

    A missing cell stays missing. *)

Definition str_map (f : pystr → pystr) (v : value) : value :=
  match v with VStr s => VStr (f s) | _ => nan end.

Definition str_split (sep : ascii) (v : value) : value :=
  match v with VStr s => VList (split sep s) | _ => nan end.

Definition str_extract (r : regex) (v : value) : value :=
  match v with
  | VStr s => match extract r s with Some g => VStr g | None => nan end
  | _ => nan
  end.

(** [astype(str)] on a cell as read: a missing cell is the float NaN,
    whose text is ["nan"]. *)
Definition astype_str (c : option pystr) : pystr :=
  match c with Some s => s | None => py "nan" end.

(** *** Cleaning (section 2 of the script) *)

(** Lines 41 and 42, on one cell. *)
Definition salary_usd (c : option pystr) : float :=
  to_numeric (delete_matches salary_symbols (astype_str c)).

(** Lines 31, 41 and 42, on one record: [df_final] starts as a copy of
    [df], so its salary column is read from the text as ingested. *)
Definition copy_with_salary (r : gmap pystr pystr) : gmap pystr value :=
  <[Salary := VFloat (salary_usd (r !! Salary))]> (VStr <$> r).

(** Lines 46 to 50, taken when the input has a skills column. *)
Definition skills_branch (df_final : frame value) : frame value :=
  let df_final :=
    assign Location
      (λ r, str_map strip (str_map (remove_char "-") (cell r Location)))
      df_final in
  let df_final :=
    assign Skills_List (λ r, str_split middle_dot (cell r Skills))
      df_final in
  let df_final := drop_duplicates_on Link df_final in
  let df_final :=
    assign Company_Name
      (λ r, str_map strip
              (str_map (delete_matches company_tail) (cell r Company_Name)))
      df_final in
  rename Skills_List Skills (drop_column Skills df_final).

(** Lines 53 to 55. *)
Definition location_processing (df_final : frame value) : frame value :=
  let df_final :=
    assign Country (λ r, str_extract country_re (cell r Location))
      df_final in
  let df_final :=
    assign Seniority (λ r, str_extract seniority_re (cell r Job_Title))
      df_final in
  assign City (λ r, str_extract city_re (cell r Location)) df_final.

(** Lines 26 to 28. *)
Definition basic_cleaning (df : frame pystr) : frame pystr :=
  drop_duplicates (strip_columns (dropna_columns df)).

Inductive outcome : Type :=
| SchemaError (missing : gset pystr)   (* "Missing required columns" *)
| Cleaned (df_final : frame value).

Definition clean (df : frame pystr) : outcome :=
  let df := basic_cleaning df in
  let available : gset pystr := list_to_set (columns df) in
  if bool_decide (required_columns ⊆ available) then
    let df_final :=
      {| columns := columns df; rows := copy_with_salary <$> rows df |} in
    let df_final :=
      if has_column Skills df then skills_branch df_final else df_final in
    Cleaned (location_processing df_final)
  else SchemaError (required_columns ∖ available).

(** *** Filters (section 3 of the script) *)

Record filter_spec : Type := Build_filter_spec {
  selected_country : list pystr;
  selected_city : list pystr;
  selected_seniority : list pystr;
  salary_range : float * float
}.

(** [Series.isin] against texts: a missing cell is never a member. *)
Definition isin (sel : list pystr) (v : value) : option bool :=
  Some (match v with VStr s => bool_decide (s ∈ sel) | _ => false end).

(** [(x >= lo) & (x <= hi)] on a cell; [None] is the [TypeError] of
    comparing a text or a list with a number. *)
Definition in_range (range : float * float) (v : value) : option bool :=
  match v with
  | VFloat x => Some (ge x range.1 && le x range.2)
  | _ => None
  end.

Fixpoint select_by (test : gmap pystr value → option bool)
    (rs : list (gmap pystr value)) : option (list (gmap pystr value)) :=
  match rs with
  | [] => Some []
  | r :: rs' =>
      b ← test r;
      rs'' ← select_by test rs';
      Some (if b : bool then r :: rs'' else rs'')
  end.

(** [df[test(df[c])]]; [None] is an exception: the [KeyError] of a
    column that is not there, or the error of the test. *)
Definition keep_where (c : pystr) (test : value → option bool)
    (df : frame value) : option (frame value) :=
  if has_column c df then
    rs ← select_by (λ r, test (cell r c)) (rows df);
    Some {| columns := columns df; rows := rs |}
  else None.

(** The truth value of a Python list. *)
Definition chosen {A} (l : list A) : bool :=
  match l with [] => false | _ :: _ => true end.

(** Lines 79 to 87. *)
Definition apply_filters (df_final : frame value) (f : filter_spec)
    : option (frame value) :=
  let filtered_df := df_final in
  filtered_df ←
    (if chosen (selected_country f)
     then keep_where Country (isin (selected_country f)) filtered_df
     else Some filtered_df);
  filtered_df ←
    (if chosen (selected_city f)
     then keep_where City (isin (selected_city f)) filtered_df
     else Some filtered_df);
  filtered_df ←
    (if chosen (selected_seniority f)
     then keep_where Seniority (isin (selected_seniority f)) filtered_df
     else Some filtered_df);
  keep_where Salary (in_range (salary_range f)) filtered_df.

(** The floats of a column, for [min()] and [max()]. *)
Definition floats (c : pystr) (df : frame value) : list float :=
  omap (λ r, match cell r c with VFloat x => Some x | _ => None end)
       (rows df).

(** [df_final['Salary (USD)'].min()] and [.max()] *)
Definition global_min (df_final : frame value) : float :=
  series_min (floats Salary df_final).
Definition global_max (df_final : frame value) : float :=
  series_max (floats Salary df_final).

(** *** The word cloud (line 148)

    [dropna().explode().str.strip().str.lower()] on the skills column. *)
Definition skills_series (filtered_df : frame value) : list pystr :=
  r ← rows filtered_df;
  match cell r Skills with
  | VList l => (λ w, lower (strip w)) <$> l
  | _ => []
  end.

End GUI.

(** ** TOOLSGUI.py *)

Module TOOLSGUI.
Import Text Num.

(** [determine_job_level]; the argument is [None] or a number, and a
    missing value of a float column arrives as NaN. *)
Definition determine_job_level (experience : option float) : option pystr :=
  match experience with
  | None => None
  | Some x =>
      if lt x (of_Z 2) then Some (py "Junior")
      else if le (of_Z 2) x && lt x (of_Z 5) then Some (py "Mid-Level")
      else if ge x (of_Z 5) then Some (py "Senior")
      else None
  end.

End TOOLSGUI.


(** ** Reading the pipeline record by record

    [clean] works on whole frames.  The functions below say what it does
    to a single record; [clean_rows] proves that this is what it does. *)

Import Text Re Num Frame GUI TOOLSGUI.

(** The cell a text cell of the ingested frame becomes in [df_final]. *)
Definition copied (c : option pystr) : value :=
  match c with Some s => VStr s | None => nan end.

(** What the pipeline does to one record, step by step. *)
Definition before_dedup (r : gmap pystr value) : gmap pystr value :=
  let r := <[Location :=
               str_map strip (str_map (remove_char "-") (cell r Location))]> r in
  <[Skills_List := str_split middle_dot (cell r Skills)]> r.

Definition after_dedup (r : gmap pystr value) : gmap pystr value :=
  let r := <[Company_Name :=
               str_map strip (str_map (delete_matches company_tail)
                                (cell r Company_Name))]> r in
  let r := delete Skills r in
  match r !! Skills_List with
  | Some v => <[Skills := v]> (delete Skills_List r)
  | None => r
  end.

Definition located (r : gmap pystr value) : gmap pystr value :=
  let r := <[Country := str_extract country_re (cell r Location)]> r in
  let r := <[Seniority := str_extract seniority_re (cell r Job_Title)]> r in
  <[City := str_extract city_re (cell r Location)]> r.

Definition record_plain (r : gmap pystr pystr) : gmap pystr value :=
  located (copy_with_salary r).

Definition record_with_skills (r : gmap pystr pystr) : gmap pystr value :=
  located (after_dedup (before_dedup (copy_with_salary r))).

Definition cleaned_record (with_skills : bool) (r0 : gmap pystr pystr)
    : gmap pystr value :=
  if with_skills then record_with_skills r0 else record_plain r0.

(** ** The filters as one test per record *)

(** A frame the filters run on without an exception: the four columns
    they read are there, and the salary column holds floats. *)
Definition tidy (df : frame value) : Prop :=
  has_column Country df = true ∧ has_column City df = true
  ∧ has_column Seniority df = true ∧ has_column Salary df = true
  ∧ Forall (λ r, ∃ x, cell r Salary = VFloat x) (rows df).

(** The record passes one inclusion list: nothing chosen, or its cell is
    one of the chosen texts. *)
Definition included (sel : list pystr) (v : value) : bool :=
  negb (chosen sel)
  || match v with VStr s => bool_decide (s ∈ sel) | _ => false end.

Definition within (range : float * float) (v : value) : bool :=
  match v with VFloat x => ge x range.1 && le x range.2 | _ => false end.

Definition passes (f : filter_spec) (r : gmap pystr value) : bool :=
  included (selected_country f) (cell r Country)
  && included (selected_city f) (cell r City)
  && included (selected_seniority f) (cell r Seniority)
  && within (salary_range f) (cell r Salary).

(** The filter specification of C1 on a cleaned frame. *)
Definition everything (df_final : frame value) : filter_spec :=
  Build_filter_spec [] [] [] (global_min df_final, global_max df_final).

(** ** Vocabulary of the specification *)

Definition standalone (prev : option ascii) (post : pystr) : Prop :=
  word_before prev = false ∧ word_after post = false.

(** An occurrence of a keyword, in any letter case, as a standalone word. *)
Definition keyword_at (title pre w post : pystr) : Prop :=
  title = pre ++ w ++ post ∧ lower w ∈ lower <$> keywords
  ∧ standalone (last pre) post.

(** The last run of word characters of a text, a final newline set aside. *)
Definition tail_word (s : pystr) : pystr :=
  reverse (take_while is_word
             (match reverse s with "010" :: t => t | t => t end)).

Definition country_at (loc pre ws w nl : pystr) : Prop :=
  loc = pre ++ "," :: ws ++ w ++ nl
  ∧ Forall (λ a, is_space a = true) ws
  ∧ w ≠ [] ∧ Forall (λ a, is_word a = true) w
  ∧ (nl = [] ∨ nl = ["010"]).

(** "The text of the location field before the first comma". *)
Definition text_before_first_comma (loc : pystr) : pystr :=
  take_while not_comma loc.

(** "The trailing comma-separated token of the location field", absent
    when the location has no comma. *)
Definition trailing_token (loc : pystr) : option pystr :=
  match split "," loc with
  | [] | [_] => None
  | pieces => strip <$> last pieces
  end.

(** ["·".join(l)] for any separator. *)
Fixpoint join (sep : ascii) (l : list pystr) : pystr :=
  match l with
  | [] => []
  | [w] => w
  | w :: ws => w ++ sep :: join sep ws
  end.


(** ** The texts that spell a number

    The grammar of a decimal text, piece by piece, with the number each
    text spells. *)

Definition digits (ds : pystr) : Prop := Forall (λ a, is_digit a = true) ds.
Definition blanks (ws : pystr) : Prop :=
  Forall (λ a, is_space_ascii a = true) ws.

(** No sign or ["+"] for a number that is not negated, ["-"] for one
    that is. *)
Definition sign_text (neg : bool) (sg : pystr) : Prop :=
  sg = (if neg then ["-"] else []) ∨ (neg = false ∧ sg = ["+"]).

(** No fraction, or a point and the digits [fp]. *)
Definition fraction_text (fp fr : pystr) : Prop :=
  (fr = [] ∧ fp = []) ∨ fr = "." :: fp.

(** No exponent, or [e] or [E], a sign and at least one digit. *)
Definition exponent_text (ex : Z) (et : pystr) : Prop :=
  (et = [] ∧ ex = 0%Z)
  ∨ ∃ c neg sg ds,
      et = c :: sg ++ ds ∧ (c = "e" ∨ c = "E") ∧ sign_text neg sg
      ∧ ds ≠ [] ∧ digits ds
      ∧ ex = (if neg then - digits_value ds else digits_value ds)%Z.

(** [s] spells the number [q], given in lowest terms. *)
Definition spells (s : pystr) (q : Q) : Prop :=
  ∃ ws1 neg sg ip fp fr ex et ws2,
    s = ws1 ++ sg ++ ip ++ fr ++ et ++ ws2
    ∧ blanks ws1 ∧ blanks ws2 ∧ sign_text neg sg
    ∧ digits ip ∧ digits fp ∧ fraction_text fp fr ∧ ip ++ fp ≠ []
    ∧ exponent_text ex et
    ∧ q = Qred (inject_Z (if neg then - digits_value (ip ++ fp)
                          else digits_value (ip ++ fp))
                * 10 ^ (ex - Z.of_nat (length fp))).


(** The first character of a text, if there is one, has the property. *)
Definition heads (P : ascii → Prop) (s : pystr) : Prop :=
  ∀ a t, s = a :: t → P a.

(** A label is available after basic cleaning when it is the trimmed
    label of a column in which some record has a value. *)
Definition available (raw : frame pystr) (c : pystr) : Prop :=
  ∃ c0, c0 ∈ columns raw ∧ strip c0 = c
        ∧ ∃ r, r ∈ rows raw ∧ is_Some (r !! c0).

(** ** Sample tables *)

Definition record (l : list (pystr * pystr)) : gmap pystr pystr :=
  list_to_map l.

(** Four listings with a skills column; the first two share a link, the
    third has no skills and no usable salary. *)
Definition listings : frame pystr :=
  {| columns := [Job_Title; Company_Name; Location; Salary; Link; Skills];
     rows :=
       [ record [(Job_Title, py "senior Dev"); (Company_Name, py "Acme - ");
                 (Location, py "Abu-Dhabi, UAE"); (Salary, py "$1,200");
                 (Link, py "u1");
                 (Skills, py "Python " ++ middle_dot :: py " SQL")];
         record [(Job_Title, py "Dev"); (Company_Name, py "Acme");
                 (Location, py "Remote"); (Salary, py "900");
                 (Link, py "u1"); (Skills, py "Go")];
         record [(Job_Title, py "Lead Dev"); (Company_Name, py "Acme");
                 (Location, py "Dubai, United Arab Emirates");
                 (Salary, py "Confidential"); (Link, py "u2")];
         record [(Job_Title, py "Junior Analyst"); (Company_Name, py "Beta -");
                 (Location, py "Giza, Egypt"); (Salary, py "$3,000");
                 (Link, py "u3"); (Skills, py "Excel")] ] |}.

(** Two listings without a skills column that share a link. *)
Definition plain_listings : frame pystr :=
  {| columns := [Job_Title; Company_Name; Location; Salary; Link];
     rows :=
       [ record [(Job_Title, py "Senior Dev"); (Company_Name, py "Acme");
                 (Location, py "Cairo, Egypt"); (Salary, py "$1,200");
                 (Link, py "u1")];
         record [(Job_Title, py "Backend Engineer"); (Company_Name, py "Acme");
                 (Location, py "Abu-Dhabi"); (Salary, py "900");
                 (Link, py "u1")] ] |}.

(** A table whose link column is there but empty in every record. *)
Definition unlinked_listings : frame pystr :=
  {| columns := [Job_Title; Company_Name; Location; Salary; Link];
     rows :=
       [ record [(Job_Title, py "Dev"); (Company_Name, py "Acme");
                 (Location, py "Remote"); (Salary, py "900")] ] |}.

Definition cleaned (raw : frame pystr) : frame value :=
  match clean raw with
  | Cleaned df_final => df_final
  | SchemaError _ => {| columns := []; rows := [] |}
  end.

(** ** Tactics and instances *)

Ltac key_neq := by (intros ?; discriminate).
Ltac lookups :=
  repeat first
    [ rewrite lookup_insert_eq
    | rewrite lookup_insert_ne by key_neq
    | rewrite lookup_delete_eq
    | rewrite lookup_delete_ne by key_neq
    | rewrite lookup_fmap ].

Global Instance VStr_inj : Inj (=) (=) VStr.
Proof. by intros ?? [= ->]. Qed.

Global Instance copied_inj : Inj (=) (=) copied.
Proof. intros [s|] [t|]; simpl; intros; by simplify_eq. Qed.

(** ** GUI.py: the sidebar options, the slider bounds and the metrics *)

Module Sidebar.
Import Text Num Frame GUI.

(** [Series.unique()]: every value once, in the order first met; missing
    values count as one value. *)
Fixpoint unique (seen : list value) (vs : list value) : list value :=
  match vs with
  | [] => []
  | v :: vs' =>
      if decide (v ∈ seen) then unique seen vs'
      else v :: unique (v :: seen) vs'
  end.

(** [Series.dropna()] *)
Definition dropna (vs : list value) : list value :=
  filter (λ v, isna v = false) vs.

(** [df[c]], record by record. *)
Definition column_values (c : pystr) (df : frame value) : list value :=
  (λ r, cell r c) <$> rows df.

(** Lines 65 to 67: [df_final[c].dropna().unique()], the options the
    multiselect of column [c] offers. *)
Definition available_options (c : pystr) (df_final : frame value)
    : list value :=
  unique [] (dropna (column_values c df_final)).

(** [int(x)] on a float: the value cut towards zero; [None] is the
    [ValueError] for NaN or the [OverflowError] for an infinity. *)
Definition py_int (x : float) : option Z :=
  match x with
  | Fin q => Some (Qnum q ÷ Z.pos (Qden q))%Z
  | _ => None
  end.

(** Line 75: [salary_min, salary_max]. *)
Definition salary_bounds (df_final : frame value) : option (Z * Z) :=
  salary_min ← py_int (global_min df_final);
  salary_max ← py_int (global_max df_final);
  Some (salary_min, salary_max).

(** The filter specification with nothing chosen and the slider on the
    given bounds (line 76 passes the bounds as the slider's value). *)
Definition unfiltered (bounds : Z * Z) : filter_spec :=
  Build_filter_spec [] [] [] (of_Z bounds.1, of_Z bounds.2).

(** Lines 99 and 101: the minimum and maximum metrics of the view. *)
Definition minimum_salary (filtered_df : frame value) : float :=
  global_min filtered_df.
Definition maximum_salary (filtered_df : frame value) : float :=
  global_max filtered_df.

End Sidebar.

(** ** TOOLSGUI.py: the job-level column and the three filters

    The table is the one [pd.read_csv] returns: a cell is a text, a
    number or missing. *)

Module JobData.
Import Text Num Frame GUI TOOLSGUI Sidebar.

Definition Experience : pystr := py "Experience (Yrs)".
Definition Job_Level : pystr := py "Job Level".
Definition Work_Type : pystr := py "Work Type".

(** Line 24 on one cell of the experience column.  A float goes through
    [determine_job_level]; its [None] is a missing cell.  A text or a
    list cannot be compared with a number: [None] is that [TypeError]. *)
Definition job_level_of (v : value) : option value :=
  match v with
  | VFloat x =>
      Some (match determine_job_level (Some x) with
            | Some s => VStr s
            | None => nan
            end)
  | _ => None
  end.

(** Lines 9 and 24: the labels are trimmed and the job-level column is
    added; [None] is an exception, the [KeyError] of a missing
    experience column or the [TypeError] above. *)
Definition with_job_level (df : frame value) : option (frame value) :=
  let df := strip_columns df in
  if has_column Experience df then
    rs ← mapM (λ r, v ← job_level_of (cell r Experience);
                    Some (<[Job_Level := v]> r)) (rows df);
    Some {| columns := if has_column Job_Level df then columns df
                       else columns df ++ [Job_Level];
            rows := rs |}
  else None.

(** Lines 33, 37 and 41: the options of the three multiselects. *)
Definition levels (df : frame value) : list value :=
  unique [] (column_values Job_Level df).
Definition work_types (df : frame value) : list value :=
  unique [] (dropna (column_values Work_Type df)).
Definition cities (df : frame value) : list value :=
  unique [] (dropna (column_values City df)).

Record selection : Type := Build_selection {
  selected_levels : list value;
  selected_work_types : list value;
  selected_cities : list value
}.

(** Lines 34, 38 and 42: what is selected before the user acts. *)
Definition default_selection (df : frame value) : selection :=
  {| selected_levels := levels df;
     selected_work_types := work_types df;
     selected_cities := take 10 (cities df) |}.

(** [Series.isin] against a list of values; a missing cell is a member
    when the list holds the missing value. *)
Definition isin_values (sel : list value) (v : value) : bool :=
  bool_decide (v ∈ sel).

(** Lines 45 to 49; [None] is the [KeyError] of a missing column. *)
Definition filtered (df : frame value) (sel : selection)
    : option (frame value) :=
  if has_column Job_Level df && has_column Work_Type df && has_column City df
  then
    Some {| columns := columns df;
            rows := filter (λ r,
                      isin_values (selected_levels sel) (cell r Job_Level)
                      && isin_values (selected_work_types sel) (cell r Work_Type)
                      && isin_values (selected_cities sel) (cell r City) = true)
                      (rows df) |}
  else None.

End JobData.

(** A table of the second script: experience, work type and city. *)
Definition job_record (experience : float) (l : list (pystr * pystr))
    : gmap pystr value :=
  <[JobData.Experience := VFloat experience]> (VStr <$> list_to_map l).

Definition job_table : frame value :=
  {| columns := [JobData.Experience; JobData.Work_Type; City];
     rows :=
       [ job_record (Fin (3 # 2))
           [(JobData.Work_Type, py "Full Time"); (City, py "Cairo")];
         job_record NaN [(City, py "Giza")];
         job_record (Fin 7) [(JobData.Work_Type, py "Remote")];
         job_record (Fin 4)
           [(JobData.Work_Type, py "Full Time"); (City, py "Giza")] ] |}.

Definition job_view : frame value :=
  match JobData.with_job_level job_table with
  | Some df => df
  | None => {| columns := []; rows := [] |}
  end.
(** ** The trailing dash of a company name

    What [r"\s*-\s*$"] matches: a text made of white space, one dash and
    white space. *)
Definition dash_tail (s : pystr) : bool :=
  match drop_while is_space s with
  | a :: t => bool_decide (a = "-") && forallb is_space t
  | [] => false
  end.

(** The text before the leftmost dash tail, or all of it. *)
Fixpoint before_dash_tail (s : pystr) : pystr :=
  match s with
  | a :: s' => if dash_tail s then [] else a :: before_dash_tail s'
  | [] => []
  end.

(** [s.rstrip()] *)
Definition rstrip (s : pystr) : pystr :=
  reverse (drop_while is_space (reverse s)).

(** The frame the filters return, or the empty frame when they raise. *)
Definition view (df_final : frame value) (f : filter_spec) : frame value :=
  match apply_filters df_final f with
  | Some filtered_df => filtered_df
  | None => {| columns := []; rows := [] |}
  end.

(** One inclusion list loosens another: it is empty, or it holds every
    choice of the other, which is not empty. *)
Definition loosens (sel sel' : list pystr) : Prop :=
  sel' = [] ∨ (sel ≠ [] ∧ ∀ s, s ∈ sel → s ∈ sel').

(** A table in which no listing states a usable salary. *)
Definition unpriced_listings : frame pystr :=
  {| columns := [Job_Title; Company_Name; Location; Salary; Link];
     rows :=
       [ record [(Job_Title, py "Dev"); (Company_Name, py "Acme");
                 (Location, py "Cairo, Egypt"); (Salary, py "Negotiable");
                 (Link, py "u1")];
         record [(Job_Title, py "Analyst"); (Company_Name, py "Beta");
                 (Location, py "Giza, Egypt"); (Salary, py "$");
                 (Link, py "u2")] ] |}.

(** A table whose largest salary is not a whole number. *)
Definition fractional_listings : frame pystr :=
  {| columns := [Job_Title; Company_Name; Location; Salary; Link];
     rows :=
       [ record [(Job_Title, py "Dev"); (Company_Name, py "Acme");
                 (Location, py "Cairo, Egypt"); (Salary, py "$1,000");
                 (Link, py "u1")];
         record [(Job_Title, py "Analyst"); (Company_Name, py "Beta");
                 (Location, py "Giza, Egypt"); (Salary, py "$1,200.50");
                 (Link, py "u2")] ] |}.

(** A table whose skills column is there but empty in every record. *)
Definition empty_skills_listings : frame pystr :=
  {| columns := [Job_Title; Company_Name; Location; Salary; Link; Skills];
     rows :=
       [ record [(Job_Title, py "Dev"); (Company_Name, py "Acme - ");
                 (Location, py "Abu-Dhabi, UAE"); (Salary, py "900");
                 (Link, py "u1")] ] |}.

(** A table of the second script with experiences at the band limits. *)
Definition band_table : frame value :=
  {| columns := [JobData.Experience; JobData.Work_Type; City];
     rows :=
       [ job_record (Fin (3 # 2)) [(City, py "Cairo")];
         job_record (Fin (49 # 10)) [(City, py "Cairo")];
         job_record (Fin 5) [(City, py "Giza")];
         job_record (Fin 2) [(City, py "Giza")];
         job_record NaN [(City, py "Giza")] ] |}.

Definition band_view : frame value :=
  match JobData.with_job_level band_table with
  | Some df => df
  | None => {| columns := []; rows := [] |}
  end.

(** * Facts about texts *)

Section text_facts.
Variable p : ascii → bool.

Lemma take_drop_while s : take_while p s ++ drop_while p s = s.
Proof. induction s as [|a s IH]; simpl; [done|]. destruct (p a); simpl; by rewrite ?IH. Qed.

Lemma Forall_take_while s : Forall (λ a, p a = true) (take_while p s).
Proof.
  induction s as [|a s IH]; simpl; [constructor|].
  destruct (p a) eqn:E; constructor; done.
Qed.

Lemma drop_while_head s a t : drop_while p s = a :: t → p a = false.
Proof.
  induction s as [|b s IH]; simpl; [done|].
  destruct (p b) eqn:E; [done|]. intros [= -> _]. done.
Qed.

Lemma take_while_app w post :
  Forall (λ a, p a = true) w → (∀ a t, post = a :: t → p a = false) →
  take_while p (w ++ post) = w.
Proof.
  intros Hw Hpost. induction Hw as [|a w Ha _ IH]; simpl.
  - destruct post as [|a t]; simpl; [done|]. by rewrite (Hpost a t).
  - by rewrite Ha, IH.
Qed.

Lemma elem_of_runs w s :
  w ∈ runs p s ↔ ∃ post, s = w ++ post ∧ Forall (λ a, p a = true) w.
Proof.
  revert w. induction s as [|a s IH]; intros w; simpl.
  - rewrite list_elem_of_singleton. split.
    + intros ->. by exists [].
    + intros (post & H & _). by destruct w.
  - destruct (p a) eqn:E.
    + rewrite elem_of_app, list_elem_of_fmap, list_elem_of_singleton. split.
      * intros [(w' & -> & Hw')| ->].
        -- apply IH in Hw' as (post & -> & HF). exists post. split; [done|]. by constructor.
        -- by exists (a :: s).
      * intros (post & H & HF). destruct w as [|b w]; [by right|]. left.
        simpl in H. injection H as <- ->. exists w. split; [done|].
        apply IH. exists post. split; [done|]. by inversion HF.
    + rewrite list_elem_of_singleton. split.
      * intros ->. by exists (a :: s).
      * intros (post & H & HF). destruct w as [|b w]; [done|].
        simpl in H. injection H as <- ->. inversion HF; congruence.
Qed.

Lemma head_runs s : head (runs p s) = Some (take_while p s).
Proof.
  induction s as [|a s IH]; simpl; [done|]. destruct (p a); [|done].
  destruct (runs p s) as [|w ws]; simpl in *; [done|]. by injection IH as ->.
Qed.
End text_facts.

(** * Facts about the matcher *)

Lemma elem_of_ms_Cat r1 r2 prev s (h : hit) :
  h ∈ ms (Cat r1 r2) prev s ↔
  ∃ h1 h2 : hit, h1 ∈ ms r1 prev s
    ∧ h2 ∈ ms r2 (prev_after prev h1.1) (drop (length h1.1) s)
    ∧ h = (h1.1 ++ h2.1, match h2.2 with Some g => Some g | None => h1.2 end).
Proof.
  simpl. rewrite list_elem_of_bind. split.
  - intros (h1 & Hh & H1). apply list_elem_of_bind in Hh as (h2 & Hh & H2).
    apply list_elem_of_singleton in Hh. eauto.
  - intros (h1 & h2 & H1 & H2 & ->). exists h1. split; [|done].
    apply list_elem_of_bind. exists h2. split; [|done]. by apply list_elem_of_singleton.
Qed.

Lemma elem_of_ms_Eps prev s (h : hit) : h ∈ ms Eps prev s ↔ h = ([], None).
Proof. simpl. apply list_elem_of_singleton. Qed.

Lemma elem_of_ms_Alt r1 r2 prev s (h : hit) :
  h ∈ ms (Alt r1 r2) prev s ↔ h ∈ ms r1 prev s ∨ h ∈ ms r2 prev s.
Proof. simpl. apply elem_of_app. Qed.

Lemma elem_of_ms_Bos prev s (h : hit) :
  h ∈ ms Bos prev s ↔ prev = None ∧ h = ([], None).
Proof.
  simpl. destruct prev.
  - split; [by intros ?%elem_of_nil|by intros [? _]].
  - rewrite list_elem_of_singleton. by split; [|intros [_ ?]].
Qed.

Lemma elem_of_ms_Chr p prev s (h : hit) :
  h ∈ ms (Chr p) prev s ↔ ∃ a t, s = a :: t ∧ p a = true ∧ h = ([a], None).
Proof.
  simpl. destruct s as [|a t].
  - split; [by intros ?%elem_of_nil|by intros (?&?&?&_)].
  - destruct (p a) eqn:E.
    + rewrite list_elem_of_singleton. split; [intros ->; eauto|].
      by intros (?&?&[= <- <-]&_&->).
    + split; [by intros ?%elem_of_nil|]. intros (?&?&[= <- <-]&?&_). congruence.
Qed.

Lemma elem_of_ms_Star p prev s (h : hit) :
  h ∈ ms (Star p) prev s ↔
  ∃ w post, s = w ++ post ∧ Forall (λ a, p a = true) w ∧ h = (w, None).
Proof.
  simpl. rewrite list_elem_of_fmap. split.
  - intros (w & -> & (post & -> & HF)%elem_of_runs). eauto.
  - intros (w & post & -> & HF & ->). exists w. split; [done|].
    apply elem_of_runs. eauto.
Qed.

Lemma elem_of_ms_Grp r prev s (h : hit) :
  h ∈ ms (Grp r) prev s ↔ ∃ h' : hit, h' ∈ ms r prev s ∧ h = (h'.1, Some h'.1).
Proof.
  simpl. rewrite list_elem_of_fmap.
  split; intros (h' & ? & ?); by exists h'.
Qed.

Lemma elem_of_ms_Eos prev s (h : hit) :
  h ∈ ms Eos prev s ↔ (s = [] ∨ s = ["010"]) ∧ h = ([], None).
Proof.
  simpl. case_bool_decide as Hs.
  - rewrite list_elem_of_singleton. split; [by intros ->|by intros [_ ->]].
  - split; [by intros ?%elem_of_nil|by intros [? _]].
Qed.

Lemma elem_of_ms_Wb prev s (h : hit) :
  h ∈ ms Wb prev s ↔ xorb (word_before prev) (word_after s) = true ∧ h = ([], None).
Proof.
  simpl. destruct (xorb _ _).
  - rewrite list_elem_of_singleton. split; [by intros ->|by intros [_ ->]].
  - split; [by intros ?%elem_of_nil|by intros [? _]].
Qed.

(** Every match consumes a prefix of the text, and the group lies inside
    what was consumed. *)
Lemma ms_prefix r prev s (h : hit) :
  h ∈ ms r prev s → ∃ post, s = h.1 ++ post.
Proof.
  revert prev s h. induction r as [|p|p|r1 IH1 r2 IH2|r1 IH1 r2 IH2|r IH| | |];
    intros prev s h.
  - simpl. rewrite list_elem_of_singleton. intros ->. by exists s.
  - rewrite elem_of_ms_Chr. intros (a & t & -> & _ & ->). by exists t.
  - rewrite elem_of_ms_Star. intros (w & post & -> & _ & ->). by exists post.
  - rewrite elem_of_ms_Cat. intros (h1 & h2 & H1 & H2 & ->).
    apply IH1 in H1 as (post1 & ->). rewrite drop_app_length in H2.
    apply IH2 in H2 as (post2 & ->). exists post2. simpl. by rewrite <-(assoc_L (++)).
  - simpl. rewrite elem_of_app. intros [H|H]; eauto.
  - rewrite elem_of_ms_Grp. intros (h' & Hh & ->). simpl. eauto.
  - simpl. destruct prev; [by intros ?%elem_of_nil|].
    rewrite list_elem_of_singleton. intros ->. by exists s.
  - rewrite elem_of_ms_Eos. intros [_ ->]. by exists s.
  - rewrite elem_of_ms_Wb. intros [_ ->]. by exists s.
Qed.

Lemma ms_group_inside r prev s (h : hit) g :
  h ∈ ms r prev s → h.2 = Some g → ∃ a b, h.1 = a ++ g ++ b.
Proof.
  revert prev s h g. induction r as [|p|p|r1 IH1 r2 IH2|r1 IH1 r2 IH2|r IH| | |];
    intros prev s h g.
  - simpl. rewrite list_elem_of_singleton. by intros ->.
  - rewrite elem_of_ms_Chr. by intros (a & t & -> & _ & ->).
  - rewrite elem_of_ms_Star. by intros (w & post & -> & _ & ->).
  - rewrite elem_of_ms_Cat. intros ([w1 g1] & [w2 g2] & H1 & H2 & ->). simpl in *.
    destruct g2 as [g2|].
    + intros [= ->]. destruct (IH2 _ _ _ _ H2 eq_refl) as (a & b & Hw).
      simpl in Hw. subst w2. exists (w1 ++ a), b. by rewrite <-!(assoc_L (++)).
    + intros ->. destruct (IH1 _ _ _ _ H1 eq_refl) as (a & b & Hw).
      simpl in Hw. subst w1. exists a, (b ++ w2). by rewrite <-!(assoc_L (++)).
  - simpl. rewrite elem_of_app. intros [H|H]; eauto.
  - rewrite elem_of_ms_Grp. intros (h' & Hh & ->). simpl. intros [= <-].
    exists [], []. by rewrite app_nil_r.
  - simpl. destruct prev; [by intros ?%elem_of_nil|].
    rewrite list_elem_of_singleton. by intros ->.
  - rewrite elem_of_ms_Eos. by intros [_ ->].
  - rewrite elem_of_ms_Wb. by intros [_ ->].
Qed.

Lemma prev_after_cons prev a pre :
  prev_after prev (a :: pre) = prev_after (Some a) pre.
Proof.
  unfold prev_after. rewrite last_cons. by destruct (last pre).
Qed.

Lemma prev_after_nil prev : prev_after prev [] = prev.
Proof. done. Qed.

(** [search_from] finds the preferred match at the leftmost position
    that has one. *)
Lemma search_from_None r prev s :
  search_from r prev s = None ↔
  ∀ pre post, s = pre ++ post → ms r (prev_after prev pre) post = [].
Proof.
  revert prev. induction s as [|a s IH]; intros prev; simpl.
  - destruct (ms r prev []) as [|h0 hs] eqn:E.
    + split; [|done]. intros _ pre post Hs.
      symmetry in Hs. apply app_eq_nil in Hs as [-> ->]. done.
    + split; [done|]. intros H. specialize (H [] [] eq_refl).
      rewrite prev_after_nil, E in H. done.
  - destruct (ms r prev (a :: s)) as [|h0 hs] eqn:E.
    + rewrite IH. split.
      * intros H pre post Hs. destruct pre as [|b pre].
        { simpl in Hs. subst post. by rewrite prev_after_nil. }
        simpl in Hs. injection Hs as <- ->. rewrite prev_after_cons. by apply H.
      * intros H pre post ->. rewrite <-(prev_after_cons prev). by apply H.
    + split; [done|]. intros H. specialize (H [] (a :: s) eq_refl).
      rewrite prev_after_nil, E in H. done.
Qed.

Lemma search_from_Some r prev s (h : hit) :
  search_from r prev s = Some h ↔
  ∃ pre post, s = pre ++ post
    ∧ head (ms r (prev_after prev pre) post) = Some h
    ∧ ∀ pre' post', s = pre' ++ post' → length pre' < length pre →
        ms r (prev_after prev pre') post' = [].
Proof.
  revert prev. induction s as [|a s IH]; intros prev; simpl.
  - destruct (ms r prev []) as [|h0 hs] eqn:E.
    + split; [done|]. intros (pre & post & Hs & Hh & _).
      symmetry in Hs. apply app_eq_nil in Hs as [-> ->].
      by rewrite prev_after_nil, E in Hh.
    + split.
      * intros [= ->]. exists [], []. split; [done|]. rewrite prev_after_nil, E.
        split; [done|]. intros ? ? _ ?; simpl in *; lia.
      * intros (pre & post & Hs & Hh & _).
        symmetry in Hs. apply app_eq_nil in Hs as [-> ->].
        by rewrite prev_after_nil, E in Hh.
  - destruct (ms r prev (a :: s)) as [|h0 hs] eqn:E.
    + rewrite IH. split.
      * intros (pre & post & -> & Hh & Hmin). exists (a :: pre), post.
        split; [done|]. rewrite prev_after_cons. split; [done|].
        intros pre' post' Hs Hlen. destruct pre' as [|b pre'].
        { simpl in Hs. subst post'. by rewrite prev_after_nil. }
        simpl in Hs. injection Hs as <- Hs. rewrite prev_after_cons.
        apply Hmin; [done|]. simpl in Hlen. lia.
      * intros (pre & post & Hs & Hh & Hmin). destruct pre as [|b pre].
        { simpl in Hs. subst post. by rewrite prev_after_nil, E in Hh. }
        simpl in Hs. injection Hs as <- ->. exists pre, post. split; [done|].
        rewrite <-(prev_after_cons prev). split; [done|]. intros pre' post' Hs Hlen.
        rewrite <-(prev_after_cons prev).
        apply (Hmin (a :: pre') post'); [simpl; by f_equal|]. simpl. lia.
    + split.
      * intros [= ->]. exists [], (a :: s). split; [done|].
        rewrite prev_after_nil, E. split; [done|].
        intros ? ? _ ?; simpl in *; lia.
      * intros (pre & post & Hs & Hh & Hmin). destruct pre as [|b pre].
        { simpl in Hs. subst post. by rewrite prev_after_nil, E in Hh. }
        specialize (Hmin [] (a :: s) eq_refl). rewrite prev_after_nil, E in Hmin.
        discriminate Hmin. simpl. lia.
Qed.

(** ** The city pattern *)

Lemma bind_singleton_fmap {A B} (f : A → B) (l : list A) :
  l ≫= (λ x, [f x]) = f <$> l.
Proof. induction l as [|x l IH]; [done|]. by rewrite bind_cons, fmap_cons, IH. Qed.

Lemma ms_Plus_runs p prev s :
  ms (Plus p) prev s =
  match s with
  | a :: t => if p a then (λ w, (a :: w, None)) <$> runs p t else []
  | [] => []
  end.
Proof.
  unfold Plus. simpl. destruct s as [|a t]; simpl; [done|].
  destruct (p a); simpl; [|done]. rewrite app_nil_r, drop_0.
  rewrite list_fmap_bind. apply bind_singleton_fmap.
Qed.

Lemma ms_city s :
  ms city_re None s = (λ w, (w, Some w)) <$> (fst <$> ms (Plus not_comma) None s).
Proof.
  unfold city_re. change (ms (Cat Bos ?r) None s)
    with ((ms r None (drop 0 s) ≫= λ h2 : hit,
             [([] ++ h2.1, match h2.2 with Some g => Some g | None => None end)]) ++ []).
  rewrite app_nil_r, drop_0.
  change (ms (Grp ?r) None s) with ((λ h : hit, (h.1, Some h.1)) <$> ms r None s).
  rewrite list_fmap_bind, <-list_fmap_compose. apply bind_singleton_fmap.
Qed.

Lemma search_from_city_inside a s : search_from city_re (Some a) s = None.
Proof.
  apply search_from_None. intros pre post _.
  destruct (ms city_re _ post) as [|h hs] eqn:E; [done|].
  assert (h ∈ ms city_re (prev_after (Some a) pre) post) as Hin by (rewrite E; by left).
  apply elem_of_ms_Cat in Hin as (h1 & h2 & [Hp _]%elem_of_ms_Bos & _).
  unfold prev_after in Hp. by destruct (last pre).
Qed.

Lemma city_extract loc :
  extract city_re loc =
  match take_while not_comma loc with [] => None | w => Some w end.
Proof.
  unfold extract, search. destruct loc as [|a t].
  - done.
  - change (search_from city_re None (a :: t))
      with (match ms city_re None (a :: t) with
            | h :: _ => Some h
            | [] => search_from city_re (Some a) t
            end).
    rewrite ms_city, ms_Plus_runs. simpl take_while.
    destruct (not_comma a) eqn:Ea.
    + pose proof (head_runs not_comma t) as Hh.
      destruct (runs not_comma t) as [|w ws]; simpl in *; [done|]. by injection Hh as ->.
    + simpl. by rewrite search_from_city_inside.
Qed.

(** ** The seniority and country patterns *)

Section patterns.
#[local] Arguments ms : simpl never.
#[local] Arguments WordI : simpl never.

Lemma elem_of_ms_Plus p prev s (h : hit) :
  h ∈ ms (Plus p) prev s ↔
  ∃ w post, s = w ++ post ∧ w ≠ [] ∧ Forall (λ a, p a = true) w ∧ h = (w, None).
Proof.
  unfold Plus. rewrite elem_of_ms_Cat. split.
  - intros (h1 & h2 & H1 & H2 & ->).
    apply elem_of_ms_Chr in H1 as (a & t & -> & Ha & ->).
    simpl in H2. rewrite drop_0 in H2. apply elem_of_ms_Star in H2 as (w & post & -> & HF & ->).
    exists (a :: w), post. simpl. split_and!; try done. by constructor.
  - intros (w & post & -> & Hne & HF & ->). destruct w as [|a w]; [done|].
    inversion_clear HF as [|?? Ha HF']. exists ([a], None), (w, None).
    split_and!; [| |done].
    + apply elem_of_ms_Chr. by exists a, (w ++ post).
    + simpl. rewrite drop_0. apply elem_of_ms_Star. by exists w, post.
Qed.

Lemma elem_of_ms_WordI k prev s (h : hit) :
  h ∈ ms (WordI k) prev s ↔
  ∃ w post, s = w ++ post ∧ lower w = lower k ∧ h = (w, None).
Proof.
  revert prev s h. induction k as [|c k IH]; intros prev s h.
  - change (WordI []) with Eps. rewrite elem_of_ms_Eps. split.
    + intros ->. by exists [], s.
    + intros (w & post & -> & Hw & ->). by destruct w.
  - change (WordI (c :: k)) with (Cat (LitI c) (WordI k)).
    rewrite elem_of_ms_Cat. split.
    + intros (h1 & h2 & H1 & H2 & ->).
      apply elem_of_ms_Chr in H1 as (a & t & -> & Ha & ->).
      simpl in H2. rewrite drop_0 in H2. apply IH in H2 as (w & post & -> & Hw & ->).
      exists (a :: w), post. simpl. split_and!; try done.
      apply bool_decide_eq_true in Ha. unfold lower in *. simpl. by rewrite Ha, Hw.
    + intros (w & post & -> & Hw & ->). destruct w as [|a w]; [done|].
      unfold lower in Hw. simpl in Hw. injection Hw as Ha Hw.
      exists ([a], None), (w, None). split_and!; [| |done].
      * apply elem_of_ms_Chr. exists a, (w ++ post). split_and!; try done.
        by apply bool_decide_eq_true.
      * simpl. rewrite drop_0. apply IH. by exists w, post.
Qed.

Lemma is_word_lower_char a : is_word (lower_char a) = is_word a.
Proof. by destruct a as [[] [] [] [] [] [] [] []]. Qed.

Lemma is_space_not_word a : is_space a = true → is_word a = false.
Proof. by destruct a as [[] [] [] [] [] [] [] []]. Qed.

Lemma lower_words w k :
  lower w = lower k → Forall (λ a, is_word a = true) k →
  Forall (λ a, is_word a = true) w.
Proof.
  revert k. induction w as [|a w IH]; intros [|c k] Hl Hk; try done.
  unfold lower in Hl. simpl in Hl. injection Hl as Ha Hw.
  inversion_clear Hk as [|?? Hc Hk']. constructor; [|by eapply IH].
  by rewrite <-is_word_lower_char, Ha, is_word_lower_char.
Qed.

Lemma word_after_app w post :
  w ≠ [] → Forall (λ a, is_word a = true) w → word_after (w ++ post) = true.
Proof. intros Hne HF. destruct w; [done|]. by inversion HF. Qed.

Lemma word_before_after prev w :
  w ≠ [] → Forall (λ a, is_word a = true) w →
  word_before (prev_after prev w) = true.
Proof.
  intros Hne HF. unfold prev_after.
  destruct (last w) as [a|] eqn:E; [|by apply last_None in E].
  apply last_Some in E as [w' ->]. apply Forall_app in HF as [_ HF].
  by inversion HF.
Qed.

Lemma keywords_words :
  Forall (λ k, k ≠ [] ∧ Forall (λ a, is_word a = true) k) keywords.
Proof. repeat constructor; done. Qed.

Lemma elem_of_ms_seniority prev s (h : hit) :
  h ∈ ms seniority_re prev s ↔
  ∃ w post, s = w ++ post ∧ lower w ∈ lower <$> keywords
    ∧ standalone prev post ∧ h = (w, Some w).
Proof.
  unfold seniority_re. rewrite elem_of_ms_Cat. split.
  - intros (h1 & h2 & H1 & H2 & ->).
    apply elem_of_ms_Wb in H1 as [Hb ->]. simpl in *. rewrite drop_0 in H2.
    apply elem_of_ms_Cat in H2 as (h3 & h4 & H3 & H4 & ->).
    apply elem_of_ms_Grp in H3 as ([w g] & H3 & ->). simpl in *.
    apply elem_of_ms_Wb in H4 as [Ha ->]. simpl in *.
    assert (∃ k post, k ∈ keywords ∧ s = w ++ post ∧ lower w = lower k)
      as (k & post & Hk & -> & Hw).
    { rewrite !elem_of_ms_Alt in H3.
      destruct H3 as [H3|[H3|[H3|[H3|H3]]]];
        apply (elem_of_ms_WordI _ prev s) in H3 as (w' & post & -> & Hw & [= -> _]);
        eexists _, post; (split; [|done]); unfold keywords; set_solver. }
    pose proof keywords_words as HK. rewrite Forall_forall in HK.
    destruct (HK k Hk) as [Hne HF].
    assert (w ≠ []) as Hwne.
    { intros ->. destruct k; [done|]. done. }
    pose proof (lower_words _ _ Hw HF) as HwF.
    rewrite drop_app_length in Ha. rewrite app_nil_r.
    rewrite word_after_app in Hb by done.
    rewrite word_before_after in Ha by done.
    exists w, post. split_and!; [done| |split|done].
    + rewrite Hw. exact (list_elem_of_fmap_2 lower keywords k Hk).
    + by destruct (word_before prev).
    + by destruct (word_after post).
  - intros (w & post & -> & (k & Hw & Hk)%list_elem_of_fmap & [Hb Ha] & ->).
    pose proof keywords_words as HK. rewrite Forall_forall in HK.
    destruct (HK k Hk) as [Hne HF].
    assert (w ≠ []) as Hwne.
    { intros ->. destruct k; [done|]. done. }
    pose proof (lower_words _ _ Hw HF) as HwF.
    exists ([], None), (w, Some w). split_and!; [| |done].
    + apply elem_of_ms_Wb. by rewrite Hb, word_after_app.
    + simpl. rewrite drop_0. apply elem_of_ms_Cat. exists (w, Some w), ([], None).
      split_and!; [| |by rewrite app_nil_r].
      * apply elem_of_ms_Grp. exists (w, None). split; [|done].
        assert ((w, None) ∈ ms (WordI k) prev (w ++ post)) as Hin.
        { apply elem_of_ms_WordI. by exists w, post. }
        rewrite !elem_of_ms_Alt. unfold keywords in Hk.
        rewrite !elem_of_cons in Hk.
        destruct Hk as [->|[->|[->|[->|[->|[]%elem_of_nil]]]]]; auto 10.
      * simpl. rewrite drop_app_length. apply elem_of_ms_Wb.
        by rewrite word_before_after, Ha.
Qed.

Lemma elem_of_ms_country prev s (h : hit) :
  h ∈ ms country_re prev s ↔
  ∃ ws w nl, s = "," :: ws ++ w ++ nl
    ∧ Forall (λ a, is_space a = true) ws
    ∧ w ≠ [] ∧ Forall (λ a, is_word a = true) w
    ∧ (nl = [] ∨ nl = ["010"])
    ∧ h = ("," :: ws ++ w, Some w).
Proof.
  unfold country_re, Lit. split.
  - intros (h1 & h2 & H1 & H2 & ->)%elem_of_ms_Cat.
    apply elem_of_ms_Chr in H1 as (a & t & -> & Ha & ->).
    apply bool_decide_eq_true in Ha as ->. simpl in H2. rewrite drop_0 in H2.
    apply elem_of_ms_Cat in H2 as (h3 & h4 & H3 & H4 & ->).
    apply elem_of_ms_Star in H3 as (ws & t' & -> & Hws & ->). simpl in H4.
    rewrite drop_app_length in H4.
    apply elem_of_ms_Cat in H4 as (h5 & h6 & H5 & H6 & ->).
    apply elem_of_ms_Grp in H5 as (h7 & H7 & ->).
    apply elem_of_ms_Plus in H7 as (w & nl & -> & Hne & Hw & ->). simpl in H6.
    rewrite drop_app_length in H6.
    apply elem_of_ms_Eos in H6 as [Hnl ->]. simpl.
    exists ws, w, nl. by rewrite app_nil_r.
  - intros (ws & w & nl & -> & Hws & Hne & Hw & Hnl & ->).
    apply elem_of_ms_Cat. exists ([","], None), (ws ++ w, Some w).
    split_and!; [| |done].
    + apply elem_of_ms_Chr. exists ",", (ws ++ w ++ nl). by rewrite bool_decide_eq_true.
    + simpl. rewrite drop_0. apply elem_of_ms_Cat.
      exists (ws, None), (w, Some w). split_and!; [| |done].
      * apply elem_of_ms_Star. by exists ws, (w ++ nl).
      * simpl. rewrite drop_app_length. apply elem_of_ms_Cat.
        exists (w, Some w), ([], None). split_and!; [| |by rewrite app_nil_r].
        -- apply elem_of_ms_Grp. exists (w, None). split; [|done].
           apply elem_of_ms_Plus. by exists w, nl.
        -- simpl. rewrite drop_app_length. by apply elem_of_ms_Eos.
Qed.

Lemma prev_after_None pre : prev_after None pre = last pre.
Proof. unfold prev_after. by destruct (last pre). Qed.

Lemma head_elem_of {A} (l : list A) x : head l = Some x → x ∈ l.
Proof. destruct l; [done|]. intros [= ->]. by left. Qed.

Lemma seniority_extract title :
  match extract seniority_re title with
  | Some w =>
      ∃ pre post, keyword_at title pre w post
        ∧ ∀ pre' w' post', keyword_at title pre' w' post' →
            length pre ≤ length pre'
  | None => ∀ pre w post, ¬ keyword_at title pre w post
  end.
Proof.
  unfold extract, search. destruct (search_from seniority_re None title) as [h|] eqn:E; simpl.
  - apply search_from_Some in E as (pre & post & -> & Hh & Hmin).
    apply head_elem_of, elem_of_ms_seniority in Hh as (w & post' & -> & Hw & Hst & ->).
    simpl. rewrite prev_after_None in Hst. exists pre, post'. split; [done|].
    intros pre' w' post'' (Heq & Hw' & Hst').
    destruct (decide (length pre ≤ length pre')) as [|Hlt]; [done|]. exfalso.
    assert ((w', Some w') ∈ ms seniority_re (prev_after None pre') (w' ++ post'')) as Hin.
    { apply elem_of_ms_seniority. exists w', post''. by rewrite prev_after_None. }
    rewrite (Hmin pre' (w' ++ post'')) in Hin; [by apply elem_of_nil in Hin|done|lia].
  - rewrite search_from_None in E. intros pre w post (-> & Hw & Hst).
    assert ((w, Some w) ∈ ms seniority_re (prev_after None pre) (w ++ post)) as Hin.
    { apply elem_of_ms_seniority. exists w, post. by rewrite prev_after_None. }
    rewrite (E pre (w ++ post)) in Hin; [by apply elem_of_nil in Hin|done].
Qed.

Lemma country_at_tail_word loc pre ws w nl :
  country_at loc pre ws w nl → tail_word loc = w.
Proof.
  intros (-> & Hws & Hne & Hw & Hnl). unfold tail_word.
  rewrite reverse_app, reverse_cons, !reverse_app.
  assert (take_while is_word (reverse w ++ (reverse ws ++ [","] ++ reverse pre))
          = reverse w) as Htw.
  { apply take_while_app.
    - rewrite Forall_forall in *. intros a Ha. apply Hw. by apply elem_of_reverse.
    - intros a t Heq. destruct (reverse ws) as [|b ws'] eqn:Ews.
      + simpl in Heq. by injection Heq as <- _.
      + simpl in Heq. injection Heq as <- _. apply is_space_not_word.
        rewrite Forall_forall in Hws. apply Hws, elem_of_reverse. rewrite Ews. by left. }
  destruct (reverse w) as [|a rw] eqn:Erw.
  { apply (f_equal reverse) in Erw. rewrite reverse_involutive in Erw. done. }
  assert (is_word a = true) as Ha.
  { rewrite Forall_forall in Hw. apply Hw, elem_of_reverse. rewrite Erw. by left. }
  rewrite <-!(assoc_L (++)).
  destruct Hnl as [-> | ->]; simpl.
  - destruct (decide (a = "010")) as [->|Hn]; [done|].
    rewrite <-(reverse_involutive w), Erw. f_equal.
    simpl in Htw. rewrite <-Htw. by destruct a as [[] [] [] [] [] [] [] []].
  - rewrite <-(reverse_involutive w), Erw. f_equal. rewrite <-Htw. done.
Qed.

Lemma country_extract loc w :
  extract country_re loc = Some w ↔ ∃ pre ws nl, country_at loc pre ws w nl.
Proof.
  unfold extract, search. split.
  - destruct (search_from country_re None loc) as [h|] eqn:E; [|done]. simpl.
    apply search_from_Some in E as (pre & post & -> & Hh & _).
    apply head_elem_of, elem_of_ms_country in Hh
      as (ws & w' & nl & -> & Hws & Hne & Hw & Hnl & ->).
    simpl. intros [= ->]. by exists pre, ws, nl.
  - intros (pre & ws & nl & Hat). pose proof Hat as (-> & Hws & Hne & Hw & Hnl).
    assert (("," :: ws ++ w, Some w)
              ∈ ms country_re (prev_after None pre) ("," :: ws ++ w ++ nl)) as Hin.
    { apply elem_of_ms_country. by exists ws, w, nl. }
    destruct (search_from country_re None _) as [h|] eqn:E; simpl.
    + apply search_from_Some in E as (pre' & post' & Heq & Hh & _).
      apply head_elem_of, elem_of_ms_country in Hh
        as (ws' & w' & nl' & -> & Hws' & Hne' & Hw' & Hnl' & ->).
      simpl. f_equal. rewrite <-(country_at_tail_word _ _ _ _ _ Hat).
      symmetry. by apply (country_at_tail_word _ pre' ws' w' nl').
    + rewrite search_from_None in E.
      rewrite (E pre _ eq_refl) in Hin. by apply elem_of_nil in Hin.
Qed.

End patterns.

(** * Facts about frames *)

Section keep_first_facts.
Context {A K : Type} `{EqDecision K}.
Implicit Types (key : gmap pystr A → K) (seen : list K)
  (rs : list (gmap pystr A)).

Lemma keep_first_sublist key seen rs : keep_first key seen rs `sublist_of` rs.
Proof.
  revert seen. induction rs as [|r rs IH]; intros seen; simpl; [done|].
  case_decide; [by apply sublist_cons|by apply sublist_skip].
Qed.

Lemma keep_first_fresh key seen rs r :
  r ∈ keep_first key seen rs → key r ∉ seen.
Proof.
  revert seen. induction rs as [|r' rs IH]; intros seen; simpl.
  - by intros ?%elem_of_nil.
  - case_decide as Hin; [by apply IH|].
    intros [->|Hr]%elem_of_cons; [done|].
    apply IH in Hr. intros ?. apply Hr. by right.
Qed.

Lemma keep_first_NoDup key seen rs :
  NoDup (key <$> keep_first key seen rs).
Proof.
  revert seen. induction rs as [|r rs IH]; intros seen; simpl; [constructor|].
  case_decide as Hin; [by apply IH|]. rewrite fmap_cons. constructor; [|by apply IH].
  intros (r' & Hk & Hr')%list_elem_of_fmap. apply keep_first_fresh in Hr'.
  apply Hr'. rewrite <-Hk. by left.
Qed.

(** A record whose key did not occur earlier is kept. *)
Lemma keep_first_first key seen pre r post :
  key r ∉ seen → key r ∉ key <$> pre →
  r ∈ keep_first key seen (pre ++ r :: post).
Proof.
  revert seen. induction pre as [|r' pre IH]; intros seen Hseen Hpre; simpl.
  - rewrite decide_False by done. by left.
  - rewrite fmap_cons, not_elem_of_cons in Hpre. destruct Hpre as [Hne Hpre].
    case_decide; [by apply IH|]. right. apply IH; [|done].
    rewrite not_elem_of_cons. done.
Qed.

(** Every key of the frame survives. *)
Lemma keep_first_keys key seen rs r :
  r ∈ rs → key r ∈ seen ∨ key r ∈ key <$> keep_first key seen rs.
Proof.
  revert seen. induction rs as [|r' rs IH]; intros seen; simpl.
  - by intros ?%elem_of_nil.
  - intros [->|Hr]%elem_of_cons.
    + case_decide; [by left|]. right. rewrite fmap_cons. by left.
    + case_decide; [by apply IH|]. rewrite fmap_cons.
      destruct (IH (key r' :: seen) Hr) as [[->|?]%elem_of_cons|?].
      * right. by left.
      * by left.
      * right. by right.
Qed.

Lemma keep_first_fmap {B} (g : gmap pystr B → gmap pystr A) key seen
    (rs : list (gmap pystr B)) :
  keep_first key seen (g <$> rs) = g <$> keep_first (key ∘ g) seen rs.
Proof.
  revert seen. induction rs as [|r rs IH]; intros seen; simpl; [done|].
  case_decide; rewrite ?fmap_cons, IH; done.
Qed.

Lemma keep_first_inj {K'} `{EqDecision K'} (h : K → K') `{!Inj (=) (=) h}
    key (key' : gmap pystr A → K') seen rs :
  (∀ r, key' r = h (key r)) →
  keep_first key' (h <$> seen) rs = keep_first key seen rs.
Proof.
  intros Hk. revert seen. induction rs as [|r rs IH]; intros seen; simpl; [done|].
  rewrite Hk. destruct (decide (key r ∈ seen)) as [Hin|Hin].
  - rewrite decide_True by (by apply list_elem_of_fmap_2). apply IH.
  - rewrite decide_False.
    + f_equal. rewrite <-IH. by rewrite fmap_cons.
    + intros (k & ?%(inj h) & ?)%list_elem_of_fmap. by subst.
Qed.
End keep_first_facts.

(** * The cleaning pipeline, record by record *)

Lemma rows_location_processing df :
  rows (location_processing df) = located <$> rows df.
Proof.
  unfold location_processing, assign. simpl. rewrite <-!list_fmap_compose. done.
Qed.

Lemma rows_skills_branch df :
  rows (skills_branch df) =
  after_dedup <$> keep_first (λ r, r !! Link) [] (before_dedup <$> rows df).
Proof.
  unfold skills_branch, rename, drop_column, assign, drop_duplicates_on. simpl.
  rewrite <-!list_fmap_compose. done.
Qed.

Lemma link_before_dedup r :
  before_dedup (copy_with_salary r) !! Link = VStr <$> r !! Link.
Proof. unfold before_dedup, copy_with_salary. by lookups. Qed.

(** The records of the cleaned frame, from the records as ingested. *)
Lemma clean_rows raw df_final :
  clean raw = Cleaned df_final →
  rows df_final =
    if has_column Skills (basic_cleaning raw)
    then record_with_skills <$>
           keep_first (λ r, r !! Link) [] (rows (basic_cleaning raw))
    else record_plain <$> rows (basic_cleaning raw).
Proof.
  unfold clean. case_bool_decide; [|done]. intros [= <-].
  rewrite rows_location_processing.
  destruct (has_column Skills (basic_cleaning raw)).
  - rewrite rows_skills_branch. simpl. rewrite keep_first_fmap, keep_first_fmap.
    rewrite <-!list_fmap_compose. f_equal.
    apply (keep_first_inj (fmap VStr) (λ r, r !! Link) _ []).
    intros r. apply link_before_dedup.
  - simpl. by rewrite <-list_fmap_compose.
Qed.

(** Cells of a cleaned record. *)
Section cells.
Variable r0 : gmap pystr pystr.

Lemma cell_located_Location r :
  cell (located r) Location = cell r Location.
Proof. unfold located, cell. by lookups. Qed.

Lemma cell_located_Job_Title r :
  cell (located r) Job_Title = cell r Job_Title.
Proof. unfold located, cell. by lookups. Qed.

Lemma cell_located_Country r :
  cell (located r) Country =
  str_extract country_re (cell (located r) Location).
Proof.
  rewrite cell_located_Location. unfold located, cell. by lookups.
Qed.

Lemma cell_located_City r :
  cell (located r) City =
  str_extract city_re (cell (located r) Location).
Proof.
  rewrite cell_located_Location. unfold located, cell. by lookups.
Qed.

Lemma cell_located_Seniority r :
  cell (located r) Seniority =
  str_extract seniority_re (cell (located r) Job_Title).
Proof.
  rewrite cell_located_Job_Title. unfold located, cell. by lookups.
Qed.

Lemma cell_located_Salary r : cell (located r) Salary = cell r Salary.
Proof. unfold located, cell. by lookups. Qed.

Lemma cell_located_Link r : cell (located r) Link = cell r Link.
Proof. unfold located, cell. by lookups. Qed.

Lemma cell_located_Skills r : located r !! Skills = r !! Skills.
Proof. unfold located. by lookups. Qed.

Lemma after_dedup_before r :
  after_dedup (before_dedup r) =
  <[Skills := str_split middle_dot (cell r Skills)]>
    (delete Skills_List (delete Skills
      (<[Company_Name :=
           str_map strip (str_map (delete_matches company_tail)
                            (cell r Company_Name))]> (before_dedup r)))).
Proof.
  unfold after_dedup. cbv zeta.
  replace (cell (before_dedup r) Company_Name) with (cell r Company_Name).
  2:{ unfold before_dedup, cell. by lookups. }
  assert (delete Skills
            (<[Company_Name :=
                 str_map strip (str_map (delete_matches company_tail)
                    (cell r Company_Name))]> (before_dedup r)) !! Skills_List
          = Some (str_split middle_dot (cell r Skills))) as ->.
  { unfold before_dedup. lookups. f_equal. f_equal. unfold cell. by lookups. }
  done.
Qed.

Lemma salary_plain : cell (record_plain r0) Salary = VFloat (salary_usd (r0 !! Salary)).
Proof. unfold record_plain. rewrite cell_located_Salary. unfold copy_with_salary, cell. by lookups. Qed.

Lemma salary_with_skills :
  cell (record_with_skills r0) Salary = VFloat (salary_usd (r0 !! Salary)).
Proof.
  unfold record_with_skills. rewrite cell_located_Salary, after_dedup_before.
  unfold before_dedup, copy_with_salary, cell. by lookups.
Qed.

Lemma location_plain : cell (record_plain r0) Location = copied (r0 !! Location).
Proof.
  unfold record_plain. rewrite cell_located_Location.
  unfold copy_with_salary, cell. lookups. by destruct (r0 !! Location).
Qed.

Lemma location_with_skills :
  cell (record_with_skills r0) Location =
  str_map strip (str_map (remove_char "-") (copied (r0 !! Location))).
Proof.
  unfold record_with_skills. rewrite cell_located_Location, after_dedup_before.
  unfold before_dedup, copy_with_salary, cell. lookups.
  by destruct (r0 !! Location).
Qed.

Lemma link_plain : cell (record_plain r0) Link = copied (r0 !! Link).
Proof.
  unfold record_plain. rewrite cell_located_Link.
  unfold copy_with_salary, cell. lookups. by destruct (r0 !! Link).
Qed.

Lemma link_with_skills : cell (record_with_skills r0) Link = copied (r0 !! Link).
Proof.
  unfold record_with_skills. rewrite cell_located_Link, after_dedup_before.
  unfold before_dedup, copy_with_salary, cell. lookups. by destruct (r0 !! Link).
Qed.

Lemma skills_with_skills :
  record_with_skills r0 !! Skills =
  Some (str_split middle_dot (copied (r0 !! Skills))).
Proof.
  unfold record_with_skills. rewrite cell_located_Skills, after_dedup_before.
  lookups. f_equal. f_equal.
  unfold before_dedup, copy_with_salary, cell. lookups. by destruct (r0 !! Skills).
Qed.

Lemma skills_plain : record_plain r0 !! Skills = VStr <$> r0 !! Skills.
Proof.
  unfold record_plain. rewrite cell_located_Skills.
  unfold copy_with_salary. by lookups.
Qed.
End cells.

(** * Floats and record selection *)

(** *** Floats *)

Lemma le_nan_r x : le x NaN = false.
Proof. by destruct x. Qed.

Lemma le_refl x : isnan x = false → le x x = true.
Proof.
  destruct x as [| |q|]; simpl; try done. intros _.
  apply Qle_bool_iff, Qle_refl.
Qed.

Lemma le_trans x y z : le x y = true → le y z = true → le x z = true.
Proof.
  destruct x as [| |p|], y as [| |q|], z as [| |r|]; simpl; try done.
  rewrite !Qle_bool_iff. apply Qle_trans.
Qed.

Lemma le_total x y :
  isnan x = false → isnan y = false → le x y = true ∨ le y x = true.
Proof.
  destruct x as [| |p|], y as [| |q|]; simpl; try done; auto.
  intros _ _. rewrite !Qle_bool_iff.
  destruct (Qlt_le_dec p q) as [?%Qlt_le_weak|?]; auto.
Qed.

Lemma lt_not_le x y : lt x y = true → le y x = false.
Proof.
  destruct x as [| |p|], y as [| |q|]; simpl; try done.
  by intros ->%negb_true_iff.
Qed.

Lemma in_range_empty lo hi x :
  lt hi lo = true → ge x lo && le x hi = false.
Proof.
  intros Hlt%lt_not_le. unfold ge.
  destruct (le lo x) eqn:E1, (le x hi) eqn:E2; try done.
  by rewrite (le_trans _ _ _ E1 E2) in Hlt.
Qed.

Lemma series_min_le xs x :
  x ∈ xs → isnan x = false →
  isnan (series_min xs) = false ∧ le (series_min xs) x = true.
Proof.
  induction xs as [|y xs IH]; [by intros ?%elem_of_nil|].
  simpl. intros Hin Hx.
  destruct (isnan y) eqn:Ey.
  - apply elem_of_cons in Hin as [->|Hin]; [congruence|]. by apply IH.
  - destruct (isnan (series_min xs)) eqn:Em.
    + apply elem_of_cons in Hin as [->|Hin]; [by split; [|apply le_refl]|].
      destruct (IH Hin Hx) as [? _]. congruence.
    + destruct (le y (series_min xs)) eqn:Ele.
      * split; [done|]. apply elem_of_cons in Hin as [->|Hin]; [by apply le_refl|].
        destruct (IH Hin Hx) as [_ ?]. by eapply le_trans.
      * split; [done|]. apply elem_of_cons in Hin as [->|Hin]; [|by apply IH].
        destruct (le_total y (series_min xs)) as [?|?]; congruence.
Qed.

Lemma series_max_ge xs x :
  x ∈ xs → isnan x = false →
  isnan (series_max xs) = false ∧ le x (series_max xs) = true.
Proof.
  induction xs as [|y xs IH]; [by intros ?%elem_of_nil|].
  simpl. intros Hin Hx.
  destruct (isnan y) eqn:Ey.
  - apply elem_of_cons in Hin as [->|Hin]; [congruence|]. by apply IH.
  - destruct (isnan (series_max xs)) eqn:Em.
    + apply elem_of_cons in Hin as [->|Hin]; [by split; [|apply le_refl]|].
      destruct (IH Hin Hx) as [? _]. congruence.
    + destruct (le (series_max xs) y) eqn:Ele.
      * split; [done|]. apply elem_of_cons in Hin as [->|Hin]; [by apply le_refl|].
        destruct (IH Hin Hx) as [_ ?]. by eapply le_trans.
      * split; [done|]. apply elem_of_cons in Hin as [->|Hin]; [|by apply IH].
        destruct (le_total (series_max xs) y) as [?|?]; congruence.
Qed.

(** *** Selecting records *)

Lemma select_by_filter (test : gmap pystr value → option bool)
    (P : gmap pystr value → Prop) `{∀ r, Decision (P r)} rs :
  (∀ r, r ∈ rs → test r = Some (bool_decide (P r))) →
  select_by test rs = Some (filter P rs).
Proof.
  induction rs as [|r rs IH]; intros Ht; simpl; [done|].
  rewrite (Ht r) by (by left). simpl. rewrite IH by (intros; apply Ht; by right).
  simpl. rewrite filter_cons. by case_bool_decide; case_decide.
Qed.



(** *** Columns of the cleaned frame *)

Lemma elem_of_columns_assign (c c' : pystr) f (df : frame value) :
  c' ∈ columns (assign c f df) ↔ c' = c ∨ c' ∈ columns df.
Proof.
  unfold assign, has_column. simpl. case_bool_decide as Hc.
  - split; [by right|]. by intros [->|?].
  - rewrite elem_of_app, list_elem_of_singleton. tauto.
Qed.

Lemma columns_location_processing c (df : frame value) :
  c ∈ columns df ∨ c ∈ [Country; Seniority; City] →
  c ∈ columns (location_processing df).
Proof.
  unfold location_processing. rewrite !elem_of_columns_assign.
  rewrite !elem_of_cons, elem_of_nil. tauto.
Qed.

Lemma elem_of_columns_rename (c old new : pystr) (df : frame value) :
  c ≠ old → c ∈ columns df → c ∈ columns (rename old new df).
Proof.
  intros Hne Hc. unfold rename. simpl. apply list_elem_of_fmap.
  exists c. by rewrite decide_False.
Qed.

Lemma elem_of_columns_drop_column (c d : pystr) (df : frame value) :
  c ≠ d → c ∈ columns df → c ∈ columns (drop_column d df).
Proof.
  intros Hne Hc. unfold drop_column. simpl. by apply list_elem_of_filter.
Qed.

Lemma columns_skills_branch c (df : frame value) :
  c ∈ columns df → c ≠ Skills → c ≠ Skills_List →
  c ∈ columns (skills_branch df).
Proof.
  intros Hc Hs Hl. unfold skills_branch.
  apply elem_of_columns_rename; [done|].
  apply elem_of_columns_drop_column; [done|].
  apply elem_of_columns_assign. right.
  change (columns (drop_duplicates_on Link ?d)) with (columns d).
  rewrite !elem_of_columns_assign. auto.
Qed.

Lemma clean_Salary_column raw df_final :
  clean raw = Cleaned df_final → has_column Salary df_final = true.
Proof.
  unfold clean. case_bool_decide as Hreq; [|done]. intros [= <-].
  apply bool_decide_eq_true, columns_location_processing. left.
  assert (Salary ∈ columns (basic_cleaning raw)) as Hs.
  { apply (elem_of_list_to_set (C := gset pystr)), Hreq.
    unfold required_columns. set_solver. }
  destruct (has_column Skills (basic_cleaning raw)); [|done].
  by apply columns_skills_branch.
Qed.

(** *** Records of the cleaned frame *)

Lemma keep_first_elem {A K} `{EqDecision K} (key : gmap pystr A → K) seen rs r :
  r ∈ keep_first key seen rs → r ∈ rs.
Proof.
  revert seen. induction rs as [|r' rs IH]; intros seen; simpl; [done|].
  case_decide.
  - intros ?%IH. by right.
  - intros [->|?%IH]%elem_of_cons; [by left|by right].
Qed.

Lemma clean_records raw df_final :
  clean raw = Cleaned df_final →
  Forall (λ r, ∃ r0, r0 ∈ rows (basic_cleaning raw)
               ∧ r = cleaned_record (has_column Skills (basic_cleaning raw)) r0)
         (rows df_final).
Proof.
  intros Hc. rewrite (clean_rows _ _ Hc). unfold cleaned_record.
  apply Forall_forall. intros r Hr.
  destruct (has_column Skills (basic_cleaning raw)).
  - apply list_elem_of_fmap in Hr as (r0 & -> & Hr0). exists r0. split; [|done].
    by eapply keep_first_elem.
  - apply list_elem_of_fmap in Hr as (r0 & -> & Hr0). by exists r0.
Qed.

Lemma cleaned_record_Salary b r0 :
  cell (cleaned_record b r0) Salary = VFloat (salary_usd (r0 !! Salary)).
Proof. destruct b; [apply salary_with_skills|apply salary_plain]. Qed.

Lemma cleaned_record_Link b r0 :
  cell (cleaned_record b r0) Link = copied (r0 !! Link).
Proof. destruct b; [apply link_with_skills|apply link_plain]. Qed.

Lemma clean_Salary_float raw df_final :
  clean raw = Cleaned df_final →
  Forall (λ r, ∃ x, cell r Salary = VFloat x) (rows df_final).
Proof.
  intros Hc. eapply Forall_impl; [by apply clean_records|].
  intros r (r0 & _ & ->). rewrite cleaned_record_Salary. eauto.
Qed.

(** *** The filters on a cleaned frame *)

Lemma keep_where_Salary (df : frame value) (range : float * float) (P : gmap pystr value → Prop)
    `{∀ r, Decision (P r)} :
  has_column Salary df = true →
  (∀ r, r ∈ rows df →
     ∃ x, cell r Salary = VFloat x
          ∧ ge x range.1 && le x range.2 = bool_decide (P r)) →
  keep_where Salary (in_range range) df =
  Some {| columns := columns df; rows := filter P (rows df) |}.
Proof.
  intros Hc Hr. unfold keep_where. rewrite Hc.
  rewrite (select_by_filter _ P); [done|].
  intros r (x & Hx & Hb)%Hr. rewrite Hx. simpl. by rewrite Hb.
Qed.

Lemma apply_filters_no_selection df (range : float * float) :
  apply_filters df (Build_filter_spec [] [] [] range) =
  keep_where Salary (in_range range) df.
Proof. done. Qed.

Lemma elem_of_floats x c (df : frame value) :
  x ∈ floats c df ↔ ∃ r, r ∈ rows df ∧ cell r c = VFloat x.
Proof.
  unfold floats. rewrite list_elem_of_omap. split.
  - intros (r & Hr & Hx). exists r. split; [done|].
    destruct (cell r c); by simplify_eq.
  - intros (r & Hr & Hx). exists r. by rewrite Hx.
Qed.

(** C1, amended.  With nothing chosen in the three inclusion lists and
    the salary range set to the minimum and maximum of the salary
    column, the filters raise nothing and return, in their original
    order, exactly the cleaned records whose salary is present; when no
    record lacks a salary this is the whole cleaned frame. *)
Theorem full_range_keeps_priced_records raw df_final :
  clean raw = Cleaned df_final →
  apply_filters df_final
    (Build_filter_spec [] [] [] (global_min df_final, global_max df_final))
  = Some {| columns := columns df_final;
            rows := filter (λ r, isna (cell r Salary) = false) (rows df_final) |}
  ∧ (Forall (λ r, isna (cell r Salary) = false) (rows df_final) →
     apply_filters df_final
       (Build_filter_spec [] [] [] (global_min df_final, global_max df_final))
     = Some df_final).
Proof.
  intros Hc.
  assert (apply_filters df_final
    (Build_filter_spec [] [] [] (global_min df_final, global_max df_final))
  = Some {| columns := columns df_final;
            rows := filter (λ r, isna (cell r Salary) = false) (rows df_final) |})
    as Hmain.
  { rewrite apply_filters_no_selection.
    apply keep_where_Salary; [by eapply clean_Salary_column|].
    intros r Hr. pose proof (clean_Salary_float _ _ Hc) as HF.
    rewrite Forall_forall in HF. destruct (HF r Hr) as [x Hx].
    exists x. split; [done|]. rewrite Hx. simpl.
    destruct (isnan x) eqn:En.
    - destruct x; try done. rewrite bool_decide_eq_false_2 by done.
      unfold ge. by rewrite le_nan_r.
    - assert (x ∈ floats Salary df_final) as Hin by (apply elem_of_floats; eauto).
      destruct (series_min_le _ _ Hin En) as [_ Hmin].
      destruct (series_max_ge _ _ Hin En) as [_ Hmax].
      unfold ge, global_min, global_max. rewrite Hmin, Hmax.
      symmetry. apply bool_decide_eq_true. by destruct x. }
  split; [done|]. intros Hall. rewrite Hmain. f_equal.
  destruct df_final as [cols rs]. simpl in *. f_equal.
  clear -Hall. induction Hall as [|r rs Hr _ IH]; [done|].
  rewrite filter_cons, decide_True by done. by rewrite IH.
Qed.

Lemma clean_tidy raw df_final : clean raw = Cleaned df_final → tidy df_final.
Proof.
  intros Hc. unfold tidy. split_and!.
  - unfold clean in Hc. case_bool_decide; [|done]. injection Hc as <-.
    apply bool_decide_eq_true, columns_location_processing. right. set_solver.
  - unfold clean in Hc. case_bool_decide; [|done]. injection Hc as <-.
    apply bool_decide_eq_true, columns_location_processing. right. set_solver.
  - unfold clean in Hc. case_bool_decide; [|done]. injection Hc as <-.
    apply bool_decide_eq_true, columns_location_processing. right. set_solver.
  - by eapply clean_Salary_column.
  - by eapply clean_Salary_float.
Qed.

Lemma filter_filter_bool {A} (p q : A → bool) (l : list A) :
  filter (λ x, q x = true) (filter (λ x, p x = true) l)
  = filter (λ x, p x && q x = true) l.
Proof.
  induction l as [|x l IH]; [done|]. rewrite !filter_cons.
  destruct (p x) eqn:Ep, (q x) eqn:Eq; simpl;
    repeat case_decide; try congruence;
    rewrite ?filter_cons; repeat case_decide; try congruence; by rewrite IH.
Qed.

Lemma filter_true {A} (p : A → bool) (l : list A) :
  (∀ x, x ∈ l → p x = true) → filter (λ x, p x = true) l = l.
Proof.
  induction l as [|x l IH]; intros Hp; [done|].
  rewrite filter_cons, decide_True by (apply Hp; by left).
  rewrite IH; [done|]. intros; apply Hp; by right.
Qed.

Lemma keep_where_isin c sel (df : frame value) :
  has_column c df = true →
  (if chosen sel then keep_where c (isin sel) df else Some df)
  = Some {| columns := columns df;
            rows := filter (λ r, included sel (cell r c) = true) (rows df) |}.
Proof.
  intros Hc. unfold included. destruct (chosen sel) eqn:Es; simpl.
  - unfold keep_where. rewrite Hc.
    rewrite (select_by_filter _ (λ r,
               match cell r c with VStr s => bool_decide (s ∈ sel) | _ => false end
               = true)); [done|].
    intros r _. unfold isin. f_equal.
    destruct (match cell r c with VStr s => bool_decide (s ∈ sel) | _ => false end);
      [by rewrite bool_decide_eq_true_2|by rewrite bool_decide_eq_false_2].
  - rewrite filter_true by done. by destruct df.
Qed.

(** On a tidy frame the filters raise nothing and keep, in order, the
    records that pass every test. *)
Lemma apply_filters_tidy df f :
  tidy df →
  apply_filters df f
  = Some {| columns := columns df;
            rows := filter (λ r, passes f r = true) (rows df) |}.
Proof.
  intros (Hco & Hci & Hse & Hsa & Hfl). unfold apply_filters.
  rewrite (keep_where_isin Country) by done. simpl.
  rewrite (keep_where_isin City) by done. simpl.
  rewrite (keep_where_isin Seniority) by done. simpl.
  rewrite !filter_filter_bool.
  unfold keep_where. replace (has_column Salary _) with true by done.
  rewrite (select_by_filter _ (λ r, within (salary_range f) (cell r Salary) = true)).
  - simpl. rewrite filter_filter_bool. do 2 f_equal.
    apply list_filter_iff. intros r. unfold passes. by rewrite andb_assoc.
  - intros r Hr. simpl. apply list_elem_of_filter in Hr as [_ Hr].
    rewrite Forall_forall in Hfl. destruct (Hfl r Hr) as [x ->]. simpl.
    f_equal. destruct (ge x _ && le x _);
      [by rewrite bool_decide_eq_true_2|by rewrite bool_decide_eq_false_2].
Qed.

(** C9.  On every cleaned frame, a filter specification whose salary
    range has its minimum above its maximum is answered without an
    exception, by a frame with no record, whatever the inclusion lists
    are. *)
Theorem empty_range_selects_nothing raw df_final f :
  clean raw = Cleaned df_final →
  lt (salary_range f).2 (salary_range f).1 = true →
  ∃ filtered_df, apply_filters df_final f = Some filtered_df
                 ∧ rows filtered_df = [].
Proof.
  intros Hc Hlt. eexists. split; [by apply apply_filters_tidy, (clean_tidy raw)|].
  simpl. induction (rows df_final) as [|r rs IH]; [done|].
  rewrite filter_cons, decide_False; [done|].
  unfold passes, within. destruct (cell r Salary); rewrite ?andb_false_r; try done.
  rewrite in_range_empty by done. by rewrite andb_false_r.
Qed.

(** * Salary parsing *)

(** Deleting the matches of a one-character class deletes the characters
    of the class. *)
Lemma delete_from_Chr p fuel prev s :
  length s < fuel →
  delete_from fuel (Chr p) prev s = filter (λ a, p a = false) s.
Proof.
  revert prev s. induction fuel as [|fuel IH]; intros prev s Hlen; [lia|].
  destruct s as [|a t]; [done|]. simpl in Hlen. simpl.
  rewrite filter_cons. destruct (p a) eqn:Ea.
  - rewrite decide_False by done. rewrite drop_0. apply IH. lia.
  - rewrite decide_True by done. f_equal. apply IH. lia.
Qed.

Lemma delete_matches_salary_symbols s :
  delete_matches salary_symbols s = filter (λ a, a ≠ "$" ∧ a ≠ ",") s.
Proof.
  unfold delete_matches, salary_symbols. rewrite delete_from_Chr by lia.
  apply list_filter_iff. intros a. rewrite bool_decide_eq_false. tauto.
Qed.

Lemma take_while_nil p s :
  Forall (λ a, p a = false) s → take_while p s = [].
Proof. destruct 1 as [|a s Ha _]; simpl; [done|]. by rewrite Ha. Qed.

Lemma Forall_drop_while {P : ascii → Prop} p s :
  Forall P s → Forall P (drop_while p s).
Proof.
  induction 1 as [|a s Ha Hs IH]; simpl; [constructor|].
  destruct (p a); [done|by constructor].
Qed.


(** * The schema check *)

Lemma columns_basic_cleaning raw c :
  c ∈ columns (basic_cleaning raw) ↔ available raw c.
Proof.
  unfold basic_cleaning, drop_duplicates, strip_columns, dropna_columns, available.
  simpl. rewrite list_elem_of_fmap. split.
  - intros (c0 & -> & [Hex Hc0]%list_elem_of_filter). exists c0.
    split_and!; [done|done|]. by apply Exists_exists in Hex.
  - intros (c0 & Hc0 & <- & Hex). exists c0. split; [done|].
    apply list_elem_of_filter. split; [|done]. by apply Exists_exists.
Qed.

Lemma not_subseteq_gset (X Y : gset pystr) :
  ¬ X ⊆ Y ↔ ∃ c, c ∈ X ∧ c ∉ Y.
Proof.
  split.
  - intros Hn. destruct (decide (X ∖ Y = ∅)) as [He|Hne].
    + exfalso. apply Hn. intros c Hc.
      destruct (decide (c ∈ Y)) as [|Hny]; [done|].
      assert (c ∈ X ∖ Y) as Hd by (apply elem_of_difference; done).
      rewrite He in Hd. by apply not_elem_of_empty in Hd.
    + apply set_choose_L in Hne as [c [? ?]%elem_of_difference]. eauto.
  - intros (c & Hx & Hy) Hsub. by apply Hy, Hsub.
Qed.

(** C7.  Cleaning stops with the schema error exactly when some required
    column is not available, a column being available when some column
    of the input has it as its trimmed label and holds a value in at
    least one record; the error then names exactly the required columns
    that are not available.  In particular a required column that is
    there but empty in every record raises the error and is named. *)
Theorem schema_error_iff raw missing :
  (clean raw = SchemaError missing ↔
     (∃ c, c ∈ required_columns ∧ ¬ available raw c)
     ∧ ∀ c, c ∈ missing ↔ c ∈ required_columns ∧ ¬ available raw c)
  ∧ ∀ c, c ∈ required_columns →
      (∀ c0 r, c0 ∈ columns raw → strip c0 = c → r ∈ rows raw → r !! c0 = None) →
      ∃ missing', clean raw = SchemaError missing' ∧ c ∈ missing'.
Proof.
  assert (∀ c, c ∈ (list_to_set (columns (basic_cleaning raw)) : gset pystr)
               ↔ available raw c) as Hav.
  { intros c. rewrite elem_of_list_to_set. apply columns_basic_cleaning. }
  split.
  - unfold clean. case_bool_decide as Hsub.
    + split; [done|]. intros [(c & Hc & Hn) _]. exfalso. apply Hn, Hav, Hsub, Hc.
    + split.
      * intros [= <-]. split.
        -- apply not_subseteq_gset in Hsub as (c & Hc & Hn). exists c.
           by rewrite <-Hav.
        -- intros c. by rewrite elem_of_difference, Hav.
      * intros [_ Hm]. f_equal. apply set_eq. intros c.
        by rewrite elem_of_difference, Hav, Hm.
  - intros c Hc Hnull. unfold clean.
    assert (¬ available raw c) as Hn.
    { intros (c0 & Hc0 & Hs & r & Hr & [v Hv]).
      by rewrite (Hnull c0 r Hc0 Hs Hr) in Hv. }
    rewrite bool_decide_eq_false_2.
    + eexists. split; [done|]. rewrite elem_of_difference, Hav. done.
    + intros Hsub. apply Hn, Hav, Hsub, Hc.
Qed.

(** * Splitting, trimming and extraction *)

Lemma split_nonempty sep s : split sep s ≠ [].
Proof.
  destruct s as [|a t]; simpl; [done|]. case_decide; [done|].
  by destruct (split sep t).
Qed.

Lemma join_split sep s : join sep (split sep s) = s.
Proof.
  induction s as [|a t IH]; simpl; [done|]. case_decide as Ha.
  - subst a. pose proof (split_nonempty sep t).
    destruct (split sep t) as [|w ws] eqn:E; [done|]. simpl. by rewrite <-IH.
  - pose proof (split_nonempty sep t).
    destruct (split sep t) as [|w ws] eqn:E; [done|].
    destruct ws; simpl in *; by rewrite <-IH.
Qed.

Lemma split_pieces sep s : Forall (λ w, sep ∉ w) (split sep s).
Proof.
  induction s as [|a t IH]; simpl.
  - constructor; [|constructor]. by intros ?%elem_of_nil.
  - case_decide as Ha.
    + constructor; [|done]. by intros ?%elem_of_nil.
    + destruct (split sep t) as [|w ws].
      * constructor; [|done]. intros [?|?%elem_of_nil]%elem_of_cons; congruence.
      * inversion_clear IH as [|?? Hw Hws]. constructor; [|done].
        intros [?|?]%elem_of_cons; [congruence|done].
Qed.

(** Trimming only removes characters. *)
Lemma elem_of_drop_while p s a : a ∈ drop_while p s → a ∈ s.
Proof.
  induction s as [|b t IH]; simpl; [done|].
  destruct (p b); [|done]. intros ?%IH. by right.
Qed.

Lemma elem_of_strip s a : a ∈ strip s → a ∈ s.
Proof.
  unfold strip. rewrite elem_of_reverse. intros ?%elem_of_drop_while.
  by eapply elem_of_drop_while, elem_of_reverse.
Qed.

Lemma not_elem_of_remove_char c s : c ∉ remove_char c s.
Proof. unfold remove_char. rewrite list_elem_of_filter. tauto. Qed.

(** The group of the first match is a piece of the text. *)
Lemma extract_inside r s g : extract r s = Some g → ∃ a b, s = a ++ g ++ b.
Proof.
  unfold extract, search. destruct (search_from r None s) as [h|] eqn:E; [|done].
  simpl. intros Hg. apply search_from_Some in E as (pre & post & -> & Hh & _).
  apply head_elem_of in Hh. destruct (ms_prefix _ _ _ _ Hh) as [post' ->].
  destruct (ms_group_inside _ _ _ _ _ Hh Hg) as (a & b & ->).
  exists (pre ++ a), (b ++ post'). by rewrite <-!(assoc_L (++)).
Qed.

Lemma str_extract_inside r v g a :
  str_extract r v = VStr g → a ∈ g → ∃ s, v = VStr s ∧ a ∈ s.
Proof.
  destruct v as [s| |]; simpl; try done.
  destruct (extract r s) as [g'|] eqn:E; [|done]. intros [= ->] Ha.
  apply extract_inside in E as (x & y & ->). exists (x ++ g ++ y). split; [done|].
  rewrite !elem_of_app. auto.
Qed.

(** A record of the ingested frame has no cell outside its columns. *)
Lemma rekey_lookup {A} (cols : list pystr) (r : gmap pystr A) (k : pystr) v :
  rekey cols r !! k = Some v → k ∈ strip <$> cols.
Proof.
  induction cols as [|c cols IH]; simpl; [by rewrite lookup_empty|].
  destruct (r !! c) as [w|].
  - destruct (decide (strip c = k)) as [<-|Hne].
    + intros _. by left.
    + rewrite lookup_insert_ne by done. intros ?%IH. by right.
  - intros ?%IH. by right.
Qed.

Lemma basic_cleaning_lookup raw r0 (k : pystr) v :
  r0 ∈ rows (basic_cleaning raw) → r0 !! k = Some v →
  k ∈ columns (basic_cleaning raw).
Proof.
  unfold basic_cleaning, drop_duplicates, strip_columns. simpl.
  intros Hr%keep_first_elem Hk.
  apply list_elem_of_fmap in Hr as (r & -> & _). by eapply rekey_lookup.
Qed.

(** * The claims *)

Example clean_listings : clean listings = Cleaned (cleaned listings).
Proof. vm_compute. reflexivity. Qed.

Example listings_cells :
  (λ r, (cell r Seniority, cell r City, cell r Country, cell r Salary, cell r Skills))
    <$> rows (cleaned listings)
  = [ (VStr (py "senior"), VStr (py "AbuDhabi"), VStr (py "UAE"),
       VFloat (Fin 1200), VList [py "Python "; py " SQL"]);
      (VStr (py "Lead"), VStr (py "Dubai"), nan, nan, nan);
      (VStr (py "Junior"), VStr (py "Giza"), VStr (py "Egypt"),
       VFloat (Fin 3000), VList [py "Excel"]) ].
Proof. vm_compute. reflexivity. Qed.

Example clean_unlinked :
  clean unlinked_listings = SchemaError {[ Link ]}.
Proof. vm_compute. reflexivity. Qed.

Example clean_plain_listings :
  clean plain_listings = Cleaned (cleaned plain_listings).
Proof. vm_compute. reflexivity. Qed.

Lemma cleaned_record_located b r0 : ∃ r', cleaned_record b r0 = located r'.
Proof. destruct b; eexists; reflexivity. Qed.

(** C3, amended.  When the frame has a skills column after basic
    cleaning, the cleaned records are the records of the first
    occurrences of each link, in the order met: no two cleaned records
    share a link, and every ingested record whose link did not occur
    before it is kept.  When there is no skills column nothing is
    removed: every ingested record has its cleaned record. *)
Theorem link_dedup_needs_skills_column raw df_final :
  clean raw = Cleaned df_final →
  (has_column Skills (basic_cleaning raw) = true →
     NoDup ((λ r, cell r Link) <$> rows df_final)
     ∧ ∃ kept, rows df_final = record_with_skills <$> kept
         ∧ kept `sublist_of` rows (basic_cleaning raw)
         ∧ (λ r, cell r Link) <$> rows df_final
           = copied <$> ((λ r0, r0 !! Link) <$> kept)
         ∧ (∀ pre r0 post, rows (basic_cleaning raw) = pre ++ r0 :: post →
              r0 !! Link ∉ (λ r, r !! Link) <$> pre → r0 ∈ kept)
         ∧ ∀ r0, r0 ∈ rows (basic_cleaning raw) →
             r0 !! Link ∈ (λ r, r !! Link) <$> kept)
  ∧ (has_column Skills (basic_cleaning raw) = false →
     rows df_final = record_plain <$> rows (basic_cleaning raw)).
Proof.
  intros Hc. pose proof (clean_rows _ _ Hc) as Hrows. split; intros Hs;
    rewrite Hs in Hrows; [|done].
  set (kept := keep_first (λ r, r !! Link) [] (rows (basic_cleaning raw))) in *.
  assert ((λ r, cell r Link) <$> rows df_final
          = copied <$> ((λ r0, r0 !! Link) <$> kept)) as Hlinks.
  { rewrite Hrows, <-!list_fmap_compose. apply list_fmap_ext.
    intros i r0 _. apply link_with_skills. }
  split.
  - rewrite Hlinks. apply (NoDup_fmap_2 _), keep_first_NoDup.
  - exists kept. split_and!; [done|apply keep_first_sublist|done| |].
    + intros pre r0 post Heq Hfirst. unfold kept. rewrite Heq.
      apply keep_first_first; [by intros ?%elem_of_nil|done].
    + intros r0 Hr0.
      by destruct (keep_first_keys (λ r, r !! Link) [] _ _ Hr0)
        as [?%elem_of_nil|?].
Qed.

Lemma clean_located raw df_final :
  clean raw = Cleaned df_final →
  Forall (λ r, ∃ r', r = located r') (rows df_final).
Proof.
  intros Hc. eapply Forall_impl; [exact (clean_records _ _ Hc)|].
  intros r (r0 & _ & ->). apply cleaned_record_located.
Qed.

(** C2, amended.  In every cleaned record the seniority is what the
    pattern extracts from the job title: it is absent, or it is the text
    of the title, in the letter case of the title, at the leftmost
    standalone occurrence of one of the five keywords compared without
    regard to case; it is absent exactly when the title has no such
    occurrence. *)
Theorem seniority_is_the_matched_text raw df_final :
  clean raw = Cleaned df_final →
  Forall (λ r,
    cell r Seniority = str_extract seniority_re (cell r Job_Title)
    ∧ (cell r Seniority = nan
       ∨ ∃ w, cell r Seniority = VStr w ∧ lower w ∈ lower <$> keywords)
    ∧ ∀ title, cell r Job_Title = VStr title →
        match cell r Seniority with
        | VStr w =>
            ∃ pre post, keyword_at title pre w post
              ∧ ∀ pre' w' post', keyword_at title pre' w' post' →
                  length pre ≤ length pre'
        | _ => ∀ pre w post, ¬ keyword_at title pre w post
        end) (rows df_final).
Proof.
  intros Hc. eapply Forall_impl; [exact (clean_located _ _ Hc)|].
  intros r (r' & ->). rewrite cell_located_Seniority.
  split; [done|]. destruct (cell (located r') Job_Title) as [title| |]; simpl;
    [|by split; [left|]..].
  pose proof (seniority_extract title) as Hx.
  destruct (extract seniority_re title) as [w|]; simpl.
  - split.
    + right. exists w. split; [done|]. by destruct Hx as (? & ? & (_ & ? & _) & _).
    + by intros ? [= <-].
  - split; [by left|]. by intros ? [= <-].
Qed.

Lemma take_while_all p s :
  Forall (λ a, p a = true) s → take_while p s = s.
Proof. induction 1 as [|a s Ha _ IH]; simpl; [done|]. by rewrite Ha, IH. Qed.

Lemma no_comma_all loc :
  "," ∉ loc → Forall (λ a, not_comma a = true) loc.
Proof.
  intros Hn. apply Forall_forall. intros a Ha. unfold not_comma.
  apply negb_true_iff, bool_decide_eq_false. by intros ->.
Qed.

Lemma country_needs_comma loc w : extract country_re loc = Some w → "," ∈ loc.
Proof.
  intros (pre & ws & nl & -> & _)%country_extract.
  rewrite elem_of_app. right. by left.
Qed.

(** C4, amended.  In every cleaned record the city is the text of the
    location before its first comma, absent when that text is empty;
    the country is the run of word characters that ends the location
    (a final newline set aside) when a comma and optional white space
    stand right before that run, and absent otherwise.  A location
    without a comma has no country and, unless empty, is its own
    city. *)
Theorem location_split raw df_final :
  clean raw = Cleaned df_final →
  Forall (λ r,
    cell r City = str_extract city_re (cell r Location)
    ∧ cell r Country = str_extract country_re (cell r Location)
    ∧ ∀ loc, cell r Location = VStr loc →
        cell r City = match text_before_first_comma loc with
                      | [] => nan
                      | w => VStr w
                      end
        ∧ (∀ w, cell r Country = VStr w ↔
                ∃ pre ws nl, country_at loc pre ws w nl)
        ∧ ("," ∉ loc →
           cell r Country = nan ∧ (loc ≠ [] → cell r City = VStr loc)))
    (rows df_final).
Proof.
  intros Hc. eapply Forall_impl; [exact (clean_located _ _ Hc)|].
  intros r (r' & ->). rewrite cell_located_City, cell_located_Country.
  split; [done|]. split; [done|]. intros loc ->. simpl.
  rewrite city_extract. unfold text_before_first_comma. split_and!.
  - by destruct (take_while not_comma loc).
  - intros w. rewrite <-country_extract.
    destruct (extract country_re loc); simpl; [|done]. split; by intros [= ->].
  - intros Hn. split.
    + destruct (extract country_re loc) as [w|] eqn:E; [|done].
      by apply country_needs_comma in E.
    + intros Hne. rewrite take_while_all by (by apply no_comma_all).
      by destruct loc.
Qed.

(** C5, amended.  With a skills column, the skills of a cleaned record
    are the pieces of the raw skills text between middle dots, in
    order and exactly as written (joining them with middle dots gives
    the raw text back, so nothing is trimmed), and are absent when the
    record has no skills text; without a skills column they are absent
    in every record. *)
Theorem skills_are_split_verbatim raw df_final :
  clean raw = Cleaned df_final →
  (has_column Skills (basic_cleaning raw) = true →
     Forall (λ r, ∃ r0, r0 ∈ rows (basic_cleaning raw)
                  ∧ cell r Link = copied (r0 !! Link)
                  ∧ cell r Skills = match r0 !! Skills with
                                    | Some s => VList (split middle_dot s)
                                    | None => nan
                                    end) (rows df_final))
  ∧ (has_column Skills (basic_cleaning raw) = false →
     Forall (λ r, cell r Skills = nan) (rows df_final))
  ∧ ∀ s, join middle_dot (split middle_dot s) = s
         ∧ Forall (λ w, middle_dot ∉ w) (split middle_dot s).
Proof.
  intros Hc. pose proof (clean_records _ _ Hc) as Hrec. split_and!.
  - intros Hs. rewrite Hs in Hrec. eapply Forall_impl; [done|].
    intros r (r0 & Hr0 & ->). exists r0. split; [done|]. simpl.
    split; [apply link_with_skills|]. unfold cell.
    rewrite skills_with_skills. simpl. by destruct (r0 !! Skills).
  - intros Hs. rewrite Hs in Hrec. eapply Forall_impl; [done|].
    intros r (r0 & Hr0 & ->). simpl. unfold cell. rewrite skills_plain.
    destruct (r0 !! Skills) as [s|] eqn:E; [|done]. exfalso.
    apply (basic_cleaning_lookup _ _ _ _ Hr0) in E.
    unfold has_column in Hs. by apply bool_decide_eq_false in Hs.
  - intros s. split; [apply join_split|apply split_pieces].
Qed.

(** With a skills column after basic cleaning, the location of every
    cleaned record is the ingested location with every ["-"] removed
    and then trimmed, and neither it nor the city or the country
    derived from it contains a ["-"].  Without one the location of
    each record is the ingested one, unchanged. *)
Lemma location_after_basic_cleaning raw df_final :
  clean raw = Cleaned df_final →
  (has_column Skills (basic_cleaning raw) = true →
     Forall (λ r,
       (∃ r0, r0 ∈ rows (basic_cleaning raw)
          ∧ cell r Location =
            str_map strip (str_map (remove_char "-") (copied (r0 !! Location))))
       ∧ ∀ s, cell r Location = VStr s ∨ cell r City = VStr s
              ∨ cell r Country = VStr s → "-" ∉ s) (rows df_final))
  ∧ (has_column Skills (basic_cleaning raw) = false →
     Forall2 (λ r0 r, cell r Location = copied (r0 !! Location))
       (rows (basic_cleaning raw)) (rows df_final)).
Proof.
  intros Hc. split; intros Hs.
  - pose proof (clean_records _ _ Hc) as Hrec. rewrite Hs in Hrec.
    eapply Forall_impl; [done|]. intros r (r0 & Hr0 & ->). simpl.
    assert (∀ s, cell (record_with_skills r0) Location = VStr s → "-" ∉ s) as Hloc.
    { intros s. rewrite location_with_skills.
      destruct (r0 !! Location) as [l|]; simpl; [|done]. intros [= <-].
      intros ?%elem_of_strip. by eapply not_elem_of_remove_char. }
    split; [exists r0; split; [done|apply location_with_skills]|].
    unfold record_with_skills in *. intros s [H|[H|H]].
    + by apply Hloc.
    + rewrite cell_located_City in H. intros Hin.
      destruct (str_extract_inside _ _ _ _ H Hin) as (l & Hl & Hd).
      by apply (Hloc l).
    + rewrite cell_located_Country in H. intros Hin.
      destruct (str_extract_inside _ _ _ _ H Hin) as (l & Hl & Hd).
      by apply (Hloc l).
  - rewrite (clean_rows _ _ Hc), Hs. apply Forall2_fmap_r, Forall_Forall2_diag.
    apply Forall_forall. intros r0 _. apply location_plain.
Qed.

(** [determine_job_level] answers Junior below 2, Mid-Level from 2 up
    to but not including 5, Senior from 5 on, and nothing for a
    missing experience, be it [None] or NaN. *)
Lemma determine_job_level_cases (q : Q) :
  ((q < 2)%Q →
     determine_job_level (Some (Fin q)) = Some (py "Junior"))
  ∧ ((2 <= q)%Q → (q < 5)%Q →
     determine_job_level (Some (Fin q)) = Some (py "Mid-Level"))
  ∧ ((5 <= q)%Q →
     determine_job_level (Some (Fin q)) = Some (py "Senior"))
  ∧ determine_job_level (Some NaN) = None
  ∧ determine_job_level None = None
  ∧ determine_job_level (Some (Fin (3 # 2))) = Some (py "Junior")
  ∧ determine_job_level (Some (Fin (49 # 10))) = Some (py "Mid-Level")
  ∧ determine_job_level (Some (Fin 5)) = Some (py "Senior").
Proof.
  assert (∀ a b : Q, (a < b)%Q → Qle_bool b a = false) as Hlt.
  { intros a b Hab. destruct (Qle_bool b a) eqn:E; [|done].
    apply Qle_bool_iff in E. by apply Qle_not_lt in E. }
  assert (∀ a b : Q, (a <= b)%Q → Qle_bool a b = true) as Hle.
  { intros a b. apply Qle_bool_iff. }
  unfold determine_job_level, ge, lt, le, of_Z. split_and!; try done.
  - intros H2. by rewrite (Hlt q (inject_Z 2) H2).
  - intros H2 H5.
    by rewrite (Hle (inject_Z 2) q H2), (Hlt q (inject_Z 5) H5).
  - intros H5. rewrite (Hle (inject_Z 5) q H5).
    assert ((2 <= q)%Q) as H2.
    { eapply Qle_trans; [|exact H5]. by apply Qle_bool_iff. }
    by rewrite (Hle (inject_Z 2) q H2).
Qed.

(** C1 as stated fails: of the three cleaned records of [listings] one
    has no salary, and the filters with nothing chosen and the full
    salary range, 1200 to 3000, return two records only. *)
Lemma full_range_drops_unpriced_record :
  clean listings = Cleaned (cleaned listings)
  ∧ length (rows (cleaned listings)) = 3
  ∧ (global_min (cleaned listings), global_max (cleaned listings))
    = (Fin 1200, Fin 3000)
  ∧ (λ d, length (rows d)) <$>
      apply_filters (cleaned listings) (everything (cleaned listings))
    = Some 2.
Proof. vm_compute. repeat split; reflexivity. Qed.

Lemma full_range_keeps_priced_records_witness :
  apply_filters (cleaned listings)
    (Build_filter_spec [] [] []
       (global_min (cleaned listings), global_max (cleaned listings)))
  = Some {| columns := columns (cleaned listings);
            rows := filter (λ r, isna (cell r Salary) = false)
                      (rows (cleaned listings)) |}
  ∧ (Forall (λ r, isna (cell r Salary) = false) (rows (cleaned listings)) →
     apply_filters (cleaned listings)
       (Build_filter_spec [] [] []
          (global_min (cleaned listings), global_max (cleaned listings)))
     = Some (cleaned listings)).
Proof.
  apply (full_range_keeps_priced_records listings (cleaned listings)).
  vm_compute. reflexivity.
Defined.

(** C2 as stated fails: the title ["senior Dev"] gives the seniority
    ["senior"], which is none of the five keywords. *)
Lemma seniority_keeps_the_title_case :
  clean listings = Cleaned (cleaned listings)
  ∧ (λ r, cell r Seniority) <$> rows (cleaned listings)
    = [VStr (py "senior"); VStr (py "Lead"); VStr (py "Junior")]
  ∧ py "senior" ∉ keywords.
Proof.
  split; [by vm_compute|]. split; [by vm_compute|].
  unfold keywords. rewrite !elem_of_cons, elem_of_nil.
  intros [H|[H|[H|[H|[H|[]]]]]]; discriminate H.
Qed.

Lemma seniority_is_the_matched_text_witness :
  Forall (λ r,
    cell r Seniority = str_extract seniority_re (cell r Job_Title)
    ∧ (cell r Seniority = nan
       ∨ ∃ w, cell r Seniority = VStr w ∧ lower w ∈ lower <$> keywords)
    ∧ ∀ title, cell r Job_Title = VStr title →
        match cell r Seniority with
        | VStr w =>
            ∃ pre post, keyword_at title pre w post
              ∧ ∀ pre' w' post', keyword_at title pre' w' post' →
                  length pre ≤ length pre'
        | _ => ∀ pre w post, ¬ keyword_at title pre w post
        end) (rows (cleaned listings)).
Proof.
  apply (seniority_is_the_matched_text listings (cleaned listings)).
  vm_compute. reflexivity.
Defined.

(** C3 as stated fails: without a skills column two records with the
    same link are both kept. *)
Lemma shared_link_survives_without_skills :
  clean plain_listings = Cleaned (cleaned plain_listings)
  ∧ (λ r, (cell r Link, cell r Job_Title)) <$> rows (cleaned plain_listings)
    = [ (VStr (py "u1"), VStr (py "Senior Dev"));
        (VStr (py "u1"), VStr (py "Backend Engineer")) ].
Proof. split; by vm_compute. Qed.

Lemma link_dedup_needs_skills_column_witness :
  (has_column Skills (basic_cleaning listings) = true →
     NoDup ((λ r, cell r Link) <$> rows (cleaned listings))
     ∧ ∃ kept, rows (cleaned listings) = record_with_skills <$> kept
         ∧ kept `sublist_of` rows (basic_cleaning listings)
         ∧ (λ r, cell r Link) <$> rows (cleaned listings)
           = copied <$> ((λ r0, r0 !! Link) <$> kept)
         ∧ (∀ pre r0 post, rows (basic_cleaning listings) = pre ++ r0 :: post →
              r0 !! Link ∉ (λ r, r !! Link) <$> pre → r0 ∈ kept)
         ∧ ∀ r0, r0 ∈ rows (basic_cleaning listings) →
             r0 !! Link ∈ (λ r, r !! Link) <$> kept)
  ∧ (has_column Skills (basic_cleaning listings) = false →
     rows (cleaned listings) = record_plain <$> rows (basic_cleaning listings)).
Proof.
  apply (link_dedup_needs_skills_column listings (cleaned listings)).
  vm_compute. reflexivity.
Defined.

(** C4 as stated fails: the location ["Dubai, United Arab Emirates"]
    has the trailing token ["United Arab Emirates"] and no country. *)
Lemma multi_word_country_is_absent :
  clean listings = Cleaned (cleaned listings)
  ∧ (λ r, (cell r Location, cell r Country)) <$> rows (cleaned listings)
    = [ (VStr (py "AbuDhabi, UAE"), VStr (py "UAE"));
        (VStr (py "Dubai, United Arab Emirates"), nan);
        (VStr (py "Giza, Egypt"), VStr (py "Egypt")) ]
  ∧ trailing_token (py "Dubai, United Arab Emirates")
    = Some (py "United Arab Emirates").
Proof. repeat split; by vm_compute. Qed.

Lemma location_split_witness :
  Forall (λ r,
    cell r City = str_extract city_re (cell r Location)
    ∧ cell r Country = str_extract country_re (cell r Location)
    ∧ ∀ loc, cell r Location = VStr loc →
        cell r City = match text_before_first_comma loc with
                      | [] => nan
                      | w => VStr w
                      end
        ∧ (∀ w, cell r Country = VStr w ↔
                ∃ pre ws nl, country_at loc pre ws w nl)
        ∧ ("," ∉ loc →
           cell r Country = nan ∧ (loc ≠ [] → cell r City = VStr loc)))
    (rows (cleaned plain_listings)).
Proof.
  apply (location_split plain_listings (cleaned plain_listings)).
  vm_compute. reflexivity.
Defined.

Example city_and_country_samples :
  (extract city_re (py "Cairo, Egypt"), extract country_re (py "Cairo, Egypt"))
  = (Some (py "Cairo"), Some (py "Egypt"))
  ∧ (extract city_re (py "Remote"), extract country_re (py "Remote"))
    = (Some (py "Remote"), None).
Proof. split; by vm_compute. Qed.

(** C5 as stated fails: the pieces of ["Python · SQL"] keep the blanks
    around the middle dot. *)
Lemma skills_keep_their_blanks :
  clean listings = Cleaned (cleaned listings)
  ∧ (λ r, cell r Skills) <$> rows (cleaned listings)
    = [VList [py "Python "; py " SQL"]; nan; VList [py "Excel"]]
  ∧ strip <$> [py "Python "; py " SQL"] = [py "Python"; py "SQL"].
Proof. repeat split; by vm_compute. Qed.

(** The trimming, with the lower-casing, is the word cloud's. *)
Example word_cloud_tokens :
  skills_series (cleaned listings) = [py "python"; py "sql"; py "excel"].
Proof. by vm_compute. Qed.

Lemma skills_are_split_verbatim_witness :
  (has_column Skills (basic_cleaning listings) = true →
     Forall (λ r, ∃ r0, r0 ∈ rows (basic_cleaning listings)
                  ∧ cell r Link = copied (r0 !! Link)
                  ∧ cell r Skills = match r0 !! Skills with
                                    | Some s => VList (split middle_dot s)
                                    | None => nan
                                    end) (rows (cleaned listings)))
  ∧ (has_column Skills (basic_cleaning listings) = false →
     Forall (λ r, cell r Skills = nan) (rows (cleaned listings)))
  ∧ ∀ s, join middle_dot (split middle_dot s) = s
         ∧ Forall (λ w, middle_dot ∉ w) (split middle_dot s).
Proof.
  apply (skills_are_split_verbatim listings (cleaned listings)).
  vm_compute. reflexivity.
Defined.

Lemma schema_error_iff_witness :
  ∃ missing, clean unlinked_listings = SchemaError missing ∧ Link ∈ missing.
Proof.
  apply (proj2 (schema_error_iff unlinked_listings ∅) Link).
  - vm_compute. reflexivity.
  - intros c0 r Hc0 Hs Hr. apply list_elem_of_singleton in Hr as ->.
    repeat (apply elem_of_cons in Hc0 as [->|Hc0]);
      try (vm_compute in Hs; discriminate Hs); [reflexivity|].
    by apply elem_of_nil in Hc0.
Defined.

Lemma empty_range_selects_nothing_witness :
  ∃ filtered_df,
    apply_filters (cleaned listings)
      (Build_filter_spec [py "UAE"] [] [] (of_Z 2000, of_Z 1000))
    = Some filtered_df
    ∧ rows filtered_df = [].
Proof.
  apply (empty_range_selects_nothing listings (cleaned listings)).
  - vm_compute. reflexivity.
  - reflexivity.
Defined.

Example dashes_samples :
  (λ r, (cell r Location, cell r City)) <$> rows (cleaned listings)
  = [ (VStr (py "AbuDhabi, UAE"), VStr (py "AbuDhabi"));
      (VStr (py "Dubai, United Arab Emirates"), VStr (py "Dubai"));
      (VStr (py "Giza, Egypt"), VStr (py "Giza")) ]
  ∧ (λ r, (cell r Location, cell r City)) <$> rows (cleaned plain_listings)
    = [ (VStr (py "Cairo, Egypt"), VStr (py "Cairo"));
        (VStr (py "Abu-Dhabi"), VStr (py "Abu-Dhabi")) ].
Proof. split; by vm_compute. Qed.

(** * Further properties of the two scripts *)

Import Sidebar JobData.

(** ** The filters *)

(** X1.  On a cleaned frame the filters raise nothing, leave the columns
    alone and return, in their original order, exactly the records
    that pass every test: membership in each inclusion list that is
    not empty, and a salary within the range. *)
Theorem filters_return_passing_records raw df_final f :
  clean raw = Cleaned df_final →
  apply_filters df_final f
  = Some {| columns := columns df_final;
            rows := filter (λ r, passes f r = true) (rows df_final) |}.
Proof. intros Hc. by apply apply_filters_tidy, (clean_tidy raw). Qed.

Lemma filters_return_passing_records_witness :
  apply_filters (cleaned listings)
    (Build_filter_spec [py "Egypt"] [] [py "Junior"] (of_Z 1000, of_Z 5000))
  = Some {| columns := columns (cleaned listings);
            rows := filter (λ r,
                      passes (Build_filter_spec [py "Egypt"] [] [py "Junior"]
                                (of_Z 1000, of_Z 5000)) r = true)
                      (rows (cleaned listings)) |}.
Proof.
  apply (filters_return_passing_records listings (cleaned listings)).
  vm_compute. reflexivity.
Defined.

Lemma tidy_filter (df : frame value) (P : gmap pystr value → Prop)
    `{∀ r, Decision (P r)} :
  tidy df → tidy {| columns := columns df; rows := filter P (rows df) |}.
Proof.
  intros (? & ? & ? & ? & HF). unfold tidy, has_column in *. simpl.
  split_and!; try done. apply Forall_forall. intros r [_ Hr]%list_elem_of_filter.
  rewrite Forall_forall in HF. by apply HF.
Qed.

Lemma filter_idemp {A} (P : A → Prop) `{∀ x, Decision (P x)} (l : list A) :
  filter P (filter P l) = filter P l.
Proof.
  induction l as [|x l IH]; [done|]. rewrite filter_cons.
  case_decide; [|done]. rewrite filter_cons, decide_True by done. by rewrite IH.
Qed.

(** X2.  Filtering is idempotent: running the filters again on their own
    result, with the same specification, returns that result. *)
Theorem filters_are_idempotent raw df_final f filtered_df :
  clean raw = Cleaned df_final →
  apply_filters df_final f = Some filtered_df →
  apply_filters filtered_df f = Some filtered_df.
Proof.
  intros Hc Hf. pose proof (clean_tidy _ _ Hc) as Ht.
  rewrite (apply_filters_tidy _ _ Ht) in Hf. injection Hf as <-.
  rewrite apply_filters_tidy by (by apply tidy_filter). simpl.
  by rewrite filter_idemp.
Qed.

Lemma filters_are_idempotent_witness :
  apply_filters
    {| columns := columns (cleaned listings);
       rows := filter (λ r, passes (Build_filter_spec [] [] []
                                      (of_Z 1000, of_Z 2000)) r = true)
                 (rows (cleaned listings)) |}
    (Build_filter_spec [] [] [] (of_Z 1000, of_Z 2000))
  = Some {| columns := columns (cleaned listings);
            rows := filter (λ r, passes (Build_filter_spec [] [] []
                                           (of_Z 1000, of_Z 2000)) r = true)
                      (rows (cleaned listings)) |}.
Proof.
  apply (filters_are_idempotent listings (cleaned listings)).
  - vm_compute. reflexivity.
  - vm_compute. reflexivity.
Defined.

(** ** The options of the sidebar *)

Lemma elem_of_unique seen vs v :
  v ∈ unique seen vs ↔ v ∈ vs ∧ v ∉ seen.
Proof.
  revert seen. induction vs as [|w vs IH]; intros seen; simpl.
  - split; [by intros ?%elem_of_nil|by intros [?%elem_of_nil _]].
  - case_decide as Hw.
    + rewrite IH, elem_of_cons. split; [tauto|].
      intros [[->|?] ?]; [done|tauto].
    + rewrite !elem_of_cons, IH, elem_of_cons.
      destruct (decide (v = w)) as [->|]; [tauto|]. tauto.
Qed.

Lemma NoDup_unique seen vs : NoDup (unique seen vs).
Proof.
  revert seen. induction vs as [|w vs IH]; intros seen; simpl; [constructor|].
  case_decide; [done|]. constructor; [|done].
  rewrite elem_of_unique, elem_of_cons. tauto.
Qed.

Lemma elem_of_available_options c df v :
  v ∈ available_options c df ↔
  isna v = false ∧ ∃ r, r ∈ rows df ∧ cell r c = v.
Proof.
  unfold available_options, dropna, column_values.
  rewrite elem_of_unique, list_elem_of_filter, list_elem_of_fmap.
  split.
  - intros [[? (r & -> & ?)] _]. eauto.
  - intros [? (r & ? & <-)]. split; [eauto|]. by intros ?%elem_of_nil.
Qed.

(** The three derived columns hold a text or nothing. *)
Lemma str_extract_text re v :
  str_extract re v = nan ∨ ∃ s, str_extract re v = VStr s.
Proof.
  destruct v as [s| |]; simpl; auto. destruct (extract re s); eauto.
Qed.

Lemma derived_text raw df_final c :
  clean raw = Cleaned df_final → c ∈ [Country; Seniority; City] →
  Forall (λ r, cell r c = nan ∨ ∃ s, cell r c = VStr s) (rows df_final).
Proof.
  intros Hc Hin. eapply Forall_impl; [exact (clean_located _ _ Hc)|].
  intros r (r' & ->). rewrite !elem_of_cons, elem_of_nil in Hin.
  destruct Hin as [->|[->|[->|[]]]].
  - rewrite cell_located_Country. apply str_extract_text.
  - rewrite cell_located_Seniority. apply str_extract_text.
  - rewrite cell_located_City. apply str_extract_text.
Qed.

(** X3.  The options offered for country, seniority and city are the
    values present in that column of the cleaned frame, each once and
    never the missing value, and every one of them is a text. *)
Theorem options_are_the_present_texts raw df_final c :
  clean raw = Cleaned df_final → c ∈ [Country; Seniority; City] →
  NoDup (available_options c df_final)
  ∧ (∀ v, v ∈ available_options c df_final ↔
          v ≠ nan ∧ ∃ r, r ∈ rows df_final ∧ cell r c = v)
  ∧ Forall (λ v, ∃ s, v = VStr s) (available_options c df_final).
Proof.
  intros Hc Hin. pose proof (derived_text _ _ _ Hc Hin) as Ht.
  rewrite Forall_forall in Ht.
  assert (∀ v, v ∈ available_options c df_final ↔
               v ≠ nan ∧ ∃ r, r ∈ rows df_final ∧ cell r c = v) as Hopt.
  { intros v. rewrite elem_of_available_options. split.
    - intros [Hv ?]. split; [|done]. by intros ->.
    - intros [Hv (r & Hr & <-)]. split; [|eauto].
      destruct (Ht r Hr) as [?|[s ->]]; [done|done]. }
  split_and!; [apply NoDup_unique|done|].
  apply Forall_forall. intros v [Hv (r & Hr & <-)]%Hopt.
  destruct (Ht r Hr) as [?|?]; done.
Qed.

Lemma options_are_the_present_texts_witness :
  NoDup (available_options Country (cleaned listings))
  ∧ (∀ v, v ∈ available_options Country (cleaned listings) ↔
          v ≠ nan ∧ ∃ r, r ∈ rows (cleaned listings) ∧ cell r Country = v)
  ∧ Forall (λ v, ∃ s, v = VStr s) (available_options Country (cleaned listings)).
Proof.
  apply (options_are_the_present_texts listings (cleaned listings) Country).
  - vm_compute. reflexivity.
  - by left.
Defined.

Lemma filter_ext_in {A} (P Q : A → Prop) `{∀ x, Decision (P x)}
    `{∀ x, Decision (Q x)} (l : list A) :
  (∀ x, x ∈ l → P x ↔ Q x) → filter P l = filter Q l.
Proof.
  induction l as [|x l IH]; intros Hext; [done|]. rewrite !filter_cons.
  rewrite IH by (intros; apply Hext; by right).
  destruct (decide (P x)) as [HP|HP], (decide (Q x)) as [HQ|HQ]; try done;
    exfalso; apply (Hext x) in HP || apply (Hext x) in HQ; try done; by left.
Qed.

Lemma filter_filter_in {A} (P Q : A → Prop) `{∀ x, Decision (P x)}
    `{∀ x, Decision (Q x)} (l : list A) :
  filter P (filter Q l) = filter (λ x, P x ∧ Q x) l.
Proof.
  induction l as [|x l IH]; [done|]. rewrite !filter_cons.
  destruct (decide (Q x)) as [HQ|HQ].
  - rewrite filter_cons. destruct (decide (P x)) as [HP|HP].
    + rewrite decide_True by done. by rewrite IH.
    + rewrite decide_False by tauto. done.
  - rewrite decide_False by tauto. done.
Qed.

(** X4.  Choosing every country on offer, in whatever order, is not the
    same as choosing none: it returns what the same specification with
    no country chosen returns, without the records that have no
    country, and so fewer records as soon as one of those has no
    country. *)
Theorem all_countries_chosen_hides_the_unlocated raw df_final f :
  clean raw = Cleaned df_final →
  (∀ v, v ∈ available_options Country df_final →
        v ∈ VStr <$> selected_country f) →
  selected_country f ≠ [] →
  ∃ filtered_df unfiltered_df,
    apply_filters df_final f = Some filtered_df
    ∧ apply_filters df_final
        (Build_filter_spec [] (selected_city f) (selected_seniority f)
           (salary_range f)) = Some unfiltered_df
    ∧ rows filtered_df
      = filter (λ r, isna (cell r Country) = false) (rows unfiltered_df)
    ∧ ((∃ r, r ∈ rows unfiltered_df ∧ isna (cell r Country) = true) →
       length (rows filtered_df) < length (rows unfiltered_df)).
Proof.
  intros Hc Hsel Hne. pose proof (clean_tidy _ _ Hc) as Ht.
  do 2 eexists. rewrite !apply_filters_tidy by done.
  split; [done|]. split; [done|].
  match goal with |- ?a = ?b ∧ _ => assert (a = b) as Hrows end.
  { simpl. rewrite filter_filter_in. apply filter_ext_in. intros r Hr.
    unfold passes. simpl. unfold included at 1 4.
    destruct (selected_country f) as [|s0 sel] eqn:Es; [done|]. simpl.
    assert (Country ∈ [Country; Seniority; City]) as Hin by (by left).
    pose proof (derived_text _ _ _ Hc Hin) as Hd. rewrite Forall_forall in Hd.
    destruct (Hd r Hr) as [Hn|[s Hs]].
    - rewrite Hn. simpl. split; [done|]. by intros [? _].
    - rewrite Hs. simpl.
      assert (VStr s ∈ available_options Country df_final) as Hopt.
      { apply elem_of_available_options. split; [done|]. eauto. }
      apply Hsel in Hopt. apply (list_elem_of_fmap_inj VStr) in Hopt.
      rewrite bool_decide_eq_true_2 by done. simpl. tauto. }
  split; [exact Hrows|].
  intros (r & Hr & Hna). rewrite Hrows.
  apply (length_filter_lt _ _ r); [done|]. by rewrite Hna.
Qed.

Lemma all_countries_chosen_hides_the_unlocated_witness :
  (available_options Country (cleaned listings)
   = [VStr (py "UAE"); VStr (py "Egypt")]
   ∧ ∃ filtered_df unfiltered_df,
       apply_filters (cleaned listings)
         (Build_filter_spec [py "Egypt"; py "UAE"] [] [] (of_Z 0, PosInf))
       = Some filtered_df
       ∧ apply_filters (cleaned listings)
           (Build_filter_spec [] [] [] (of_Z 0, PosInf)) = Some unfiltered_df
       ∧ rows filtered_df
         = filter (λ r, isna (cell r Country) = false) (rows unfiltered_df)
       ∧ ((∃ r, r ∈ rows unfiltered_df ∧ isna (cell r Country) = true) →
          length (rows filtered_df) < length (rows unfiltered_df)))
  ∧ (available_options Country (cleaned plain_listings)
     = [VStr (py "Egypt")]
     ∧ ∃ filtered_df unfiltered_df,
         apply_filters (cleaned plain_listings)
           (Build_filter_spec [py "Egypt"] [] [] (of_Z 0, PosInf))
         = Some filtered_df
         ∧ apply_filters (cleaned plain_listings)
             (Build_filter_spec [] [] [] (of_Z 0, PosInf))
           = Some unfiltered_df
         ∧ rows filtered_df
           = filter (λ r, isna (cell r Country) = false) (rows unfiltered_df)
         ∧ ((∃ r, r ∈ rows unfiltered_df ∧ isna (cell r Country) = true) →
            length (rows filtered_df) < length (rows unfiltered_df)))
  ∧ length (rows (view (cleaned plain_listings)
                    (Build_filter_spec [py "Egypt"] [] [] (of_Z 0, PosInf))))
    = 1
  ∧ length (rows (view (cleaned plain_listings)
                    (Build_filter_spec [] [] [] (of_Z 0, PosInf))))
    = 2.
Proof.
  assert (available_options Country (cleaned listings)
          = [VStr (py "UAE"); VStr (py "Egypt")]) as E
    by (vm_compute; reflexivity).
  assert (available_options Country (cleaned plain_listings)
          = [VStr (py "Egypt")]) as E'
    by (vm_compute; reflexivity).
  split; [split; [exact E|]|split; [split; [exact E'|]|by vm_compute]].
  - apply (all_countries_chosen_hides_the_unlocated listings
             (cleaned listings)
             (Build_filter_spec [py "Egypt"; py "UAE"] [] []
                (of_Z 0, PosInf))).
    + vm_compute. reflexivity.
    + rewrite E. intros v Hv. simpl.
      apply elem_of_cons in Hv as [->|Hv]; [right; by left|].
      apply elem_of_cons in Hv as [->|Hv]; [by left|].
      by apply elem_of_nil in Hv.
    + discriminate.
  - apply (all_countries_chosen_hides_the_unlocated plain_listings
             (cleaned plain_listings)
             (Build_filter_spec [py "Egypt"] [] [] (of_Z 0, PosInf))).
    + vm_compute. reflexivity.
    + rewrite E'. intros v Hv. exact Hv.
    + discriminate.
Defined.

(** ** The slider bounds and the metrics *)

Lemma series_min_all_nan xs :
  Forall (λ x, isnan x = true) xs → series_min xs = NaN.
Proof. induction 1 as [|x xs Hx _ IH]; simpl; [done|]. by rewrite Hx. Qed.

Lemma series_min_elem xs :
  isnan (series_min xs) = false → series_min xs ∈ xs.
Proof.
  induction xs as [|x xs IH]; simpl; [done|].
  destruct (isnan x) eqn:Ex; [intros ?%IH; by right|].
  destruct (isnan (series_min xs)) eqn:Em; [by left|].
  destruct (le x (series_min xs)); [by left|]. intros _. right. by apply IH.
Qed.

Lemma series_max_elem xs :
  isnan (series_max xs) = false → series_max xs ∈ xs.
Proof.
  induction xs as [|x xs IH]; simpl; [done|].
  destruct (isnan x) eqn:Ex; [intros ?%IH; by right|].
  destruct (isnan (series_max xs)) eqn:Em; [by left|].
  destruct (le (series_max xs) x); [by left|]. intros _. right. by apply IH.
Qed.

Lemma Forall_forallb_true {A} (p : A → bool) (l : list A) :
  forallb p l = true → Forall (λ x, p x = true) l.
Proof.
  induction l as [|x l IH]; simpl; [constructor|].
  intros [??]%andb_true_iff. constructor; auto.
Qed.

(** X5.  When no record has a salary, and so also when there is no
    record at all, the slider bounds of line 75 cannot be computed:
    [int] is applied to NaN and raises. *)
Theorem slider_bounds_need_a_salary (df_final : frame value) :
  Forall (λ r, isna (cell r Salary) = true) (rows df_final) →
  salary_bounds df_final = None.
Proof.
  intros Hall. unfold salary_bounds, global_min.
  rewrite series_min_all_nan; [done|].
  apply Forall_forall. intros x (r & Hr & Hx)%elem_of_floats.
  rewrite Forall_forall in Hall. specialize (Hall r Hr). rewrite Hx in Hall.
  by destruct x.
Qed.

Lemma slider_bounds_need_a_salary_witness :
  length (rows (cleaned unpriced_listings)) = 2
  ∧ salary_bounds (cleaned unpriced_listings) = None.
Proof.
  split; [vm_compute; reflexivity|].
  apply (slider_bounds_need_a_salary (cleaned unpriced_listings)).
  apply Forall_forallb_true. vm_compute. reflexivity.
Defined.

Lemma py_int_of_Z z : py_int (of_Z z) = Some z.
Proof. unfold py_int, of_Z. simpl. by rewrite Z.quot_1_r. Qed.

(** X6.  When every salary that is present is a whole number, the range
    computed at line 75, with nothing chosen, returns every record
    that has a salary. *)
Theorem slider_bounds_keep_whole_salaries raw df_final bounds :
  clean raw = Cleaned df_final →
  salary_bounds df_final = Some bounds →
  Forall (λ x, isnan x = true ∨ ∃ z, x = of_Z z) (floats Salary df_final) →
  apply_filters df_final (unfiltered bounds)
  = Some {| columns := columns df_final;
            rows := filter (λ r, isna (cell r Salary) = false)
                      (rows df_final) |}.
Proof.
  intros Hc Hb Hwhole. rewrite Forall_forall in Hwhole.
  rewrite (apply_filters_tidy _ _ (clean_tidy _ _ Hc)). do 2 f_equal.
  unfold salary_bounds, global_min, global_max in Hb.
  destruct (py_int (series_min _)) as [lo|] eqn:Elo; [|done].
  destruct (py_int (series_max _)) as [hi|] eqn:Ehi; [|done].
  simpl in Hb. injection Hb as <-.
  assert (∀ x, x ∈ floats Salary df_final → isnan x = false →
               ∃ z, x = of_Z z) as Hz.
  { intros x Hx Hn. destruct (Hwhole x Hx) as [Hx'|Hx']; [congruence|done]. }
  assert (series_min (floats Salary df_final) = of_Z lo) as Hmin.
  { assert (isnan (series_min (floats Salary df_final)) = false) as Hn
      by (by destruct (series_min _)).
    destruct (Hz _ (series_min_elem _ Hn) Hn) as [z Hzq].
    rewrite Hzq, py_int_of_Z in Elo. by injection Elo as <-. }
  assert (series_max (floats Salary df_final) = of_Z hi) as Hmax.
  { assert (isnan (series_max (floats Salary df_final)) = false) as Hn
      by (by destruct (series_max _)).
    destruct (Hz _ (series_max_elem _ Hn) Hn) as [z Hzq].
    rewrite Hzq, py_int_of_Z in Ehi. by injection Ehi as <-. }
  apply filter_ext_in. intros r Hr. unfold passes, unfiltered. simpl.
  pose proof (clean_Salary_float _ _ Hc) as HF. rewrite Forall_forall in HF.
  destruct (HF r Hr) as [x Hx]. rewrite Hx.
  destruct (isnan x) eqn:En.
  - by destruct x.
  - assert (x ∈ floats Salary df_final) as Hin by (apply elem_of_floats; eauto).
    destruct (series_min_le _ _ Hin En) as [_ Hle1].
    destruct (series_max_ge _ _ Hin En) as [_ Hle2].
    rewrite Hmin in Hle1. rewrite Hmax in Hle2.
    change (ge x (of_Z lo) && le x (of_Z hi) = true ↔ isnan x = false).
    unfold ge. by rewrite Hle1, Hle2.
Qed.

Lemma slider_bounds_keep_whole_salaries_witness :
  apply_filters (cleaned listings) (unfiltered (1200, 3000)%Z)
  = Some {| columns := columns (cleaned listings);
            rows := filter (λ r, isna (cell r Salary) = false)
                      (rows (cleaned listings)) |}.
Proof.
  apply (slider_bounds_keep_whole_salaries listings (cleaned listings)).
  - vm_compute. reflexivity.
  - vm_compute. reflexivity.
  - vm_compute. apply Forall_cons. split; [right; by exists 1200%Z|].
    apply Forall_cons. split; [by left|].
    apply Forall_cons. split; [right; by exists 3000%Z|]. by apply Forall_nil.
Defined.

(** X7.  When the largest salary is positive and not a whole number, the
    range computed at line 75 leaves out every record that holds it:
    [int] cuts the upper bound below it. *)
Theorem slider_bounds_hide_a_fractional_top raw df_final bounds q
    filtered_df :
  clean raw = Cleaned df_final →
  salary_bounds df_final = Some bounds →
  global_max df_final = Fin q →
  (0 < q)%Q → (∀ z : Z, ¬ (q == inject_Z z)%Q) →
  apply_filters df_final (unfiltered bounds) = Some filtered_df →
  Fin q ∉ floats Salary filtered_df.
Proof.
  intros Hc Hb Hmax Hpos Hfrac Hf.
  rewrite (apply_filters_tidy _ _ (clean_tidy _ _ Hc)) in Hf.
  injection Hf as <-.
  intros (r & [Hp _]%list_elem_of_filter & Hr)%elem_of_floats.
  unfold salary_bounds in Hb. rewrite Hmax in Hb.
  destruct (py_int (global_min df_final)) as [lo|]; [|done].
  simpl in Hb. injection Hb as <-.
  unfold passes, unfiltered in Hp. simpl in Hp. rewrite Hr in Hp. simpl in Hp.
  apply andb_true_iff in Hp as [_ Hle]. apply Qle_bool_iff in Hle.
  destruct q as [n d]. unfold Qle, Qlt in *. simpl in *.
  assert (0 < n)%Z as Hn by lia.
  pose proof (Z.quot_rem' n (Z.pos d)) as Hqr.
  pose proof (Z.rem_bound_pos n (Z.pos d) ltac:(lia) ltac:(lia)) as Hrb.
  apply (Hfrac (n ÷ Z.pos d)%Z). unfold Qeq. simpl. nia.
Qed.

Lemma slider_bounds_hide_a_fractional_top_witness :
  global_max (cleaned fractional_listings) = Fin (2401 # 2)
  ∧ Fin (2401 # 2)
    ∉ floats Salary
        (view (cleaned fractional_listings) (unfiltered (1000, 1200)%Z)).
Proof.
  split; [vm_compute; reflexivity|].
  apply (slider_bounds_hide_a_fractional_top fractional_listings
           (cleaned fractional_listings) (1000, 1200)%Z (2401 # 2)).
  - vm_compute. reflexivity.
  - vm_compute. reflexivity.
  - vm_compute. reflexivity.
  - reflexivity.
  - intros z. unfold Qeq. simpl. lia.
  - vm_compute. reflexivity.
Defined.

(** X8.  The minimum and maximum metrics of a view that is not empty lie
    within the salary range of the specification. *)
Theorem metrics_lie_within_the_range raw df_final f filtered_df :
  clean raw = Cleaned df_final →
  apply_filters df_final f = Some filtered_df →
  rows filtered_df ≠ [] →
  le (salary_range f).1 (minimum_salary filtered_df) = true
  ∧ le (maximum_salary filtered_df) (salary_range f).2 = true
  ∧ le (minimum_salary filtered_df) (maximum_salary filtered_df) = true.
Proof.
  intros Hc Hf Hne.
  rewrite (apply_filters_tidy _ _ (clean_tidy _ _ Hc)) in Hf.
  injection Hf as <-. simpl in Hne.
  set (out := {| columns := columns df_final;
                 rows := filter (λ r, passes f r = true) (rows df_final) |}).
  assert (∀ x, x ∈ floats Salary out →
               ge x (salary_range f).1 && le x (salary_range f).2 = true)
    as Hin.
  { intros x (r & [Hp _]%list_elem_of_filter & Hx)%elem_of_floats.
    unfold passes in Hp. rewrite Hx in Hp.
    by apply andb_true_iff in Hp as [_ Hp]. }
  assert (∃ x, x ∈ floats Salary out ∧ isnan x = false) as (x0 & Hx0 & Hn0).
  { assert (∃ r, r ∈ rows out) as [r Hr].
    { unfold out. simpl. destruct (filter _ (rows df_final)) as [|r rs];
        [done|]. exists r. by left. }
    pose proof Hr as [Hp _]%list_elem_of_filter. unfold passes in Hp.
    apply andb_true_iff in Hp as [_ Hp].
    destruct (cell r Salary) as [|x|] eqn:Ex; try done. exists x.
    split; [apply elem_of_floats; eauto|]. simpl in Hp.
    destruct x; try done. unfold ge in Hp. by rewrite le_nan_r in Hp. }
  destruct (series_min_le _ _ Hx0 Hn0) as [Hnmin Hmin0].
  destruct (series_max_ge _ _ Hx0 Hn0) as [Hnmax Hmax0].
  pose proof (Hin _ (series_min_elem _ Hnmin)) as [H1 _]%andb_true_iff.
  pose proof (Hin _ (series_max_elem _ Hnmax)) as [_ H2]%andb_true_iff.
  unfold minimum_salary, maximum_salary, global_min, global_max.
  split_and!; [done|done|]. by eapply le_trans.
Qed.

Lemma metrics_lie_within_the_range_witness :
  le (of_Z 1000)
     (minimum_salary
        (view (cleaned listings)
           (Build_filter_spec [] [] [] (of_Z 1000, of_Z 5000)))) = true
  ∧ le (maximum_salary
          (view (cleaned listings)
             (Build_filter_spec [] [] [] (of_Z 1000, of_Z 5000))))
       (of_Z 5000) = true
  ∧ le (minimum_salary
          (view (cleaned listings)
             (Build_filter_spec [] [] [] (of_Z 1000, of_Z 5000))))
       (maximum_salary
          (view (cleaned listings)
             (Build_filter_spec [] [] [] (of_Z 1000, of_Z 5000)))) = true.
Proof.
  apply (metrics_lie_within_the_range listings (cleaned listings)
           (Build_filter_spec [] [] [] (of_Z 1000, of_Z 5000))).
  - vm_compute. reflexivity.
  - vm_compute. reflexivity.
  - intros H. apply (f_equal length) in H. vm_compute in H. discriminate H.
Defined.

(** ** Trimming *)

Lemma forallb_Forall_space (s : pystr) :
  forallb is_space s = true ↔ Forall (λ a, is_space a = true) s.
Proof.
  induction s as [|a s IH]; simpl; [by split|].
  rewrite andb_true_iff, Forall_cons, IH. done.
Qed.

Lemma drop_while_all p (s : pystr) :
  Forall (λ a, p a = true) s → drop_while p s = [].
Proof. induction 1 as [|a s Ha _ IH]; simpl; [done|]. by rewrite Ha. Qed.

Lemma drop_while_app_all p (w s : pystr) :
  Forall (λ a, p a = true) w → drop_while p (w ++ s) = drop_while p s.
Proof. induction 1 as [|a w Ha _ IH]; simpl; [done|]. by rewrite Ha. Qed.

Lemma drop_while_app_some p (s t : pystr) :
  drop_while p s ≠ [] → drop_while p (s ++ t) = drop_while p s ++ t.
Proof.
  induction s as [|a s IH]; simpl; [done|]. destruct (p a); [done|]. done.
Qed.

Lemma drop_while_nil_all p (s : pystr) :
  drop_while p s = [] → Forall (λ a, p a = true) s.
Proof.
  induction s as [|a s IH]; simpl; [constructor|].
  destruct (p a) eqn:E; [|done]. intros ?%IH. by constructor.
Qed.

Lemma rstrip_app_spaces s ws :
  Forall (λ a, is_space a = true) ws → rstrip (s ++ ws) = rstrip s.
Proof.
  intros Hws. unfold rstrip. rewrite reverse_app.
  rewrite drop_while_app_all; [done|]. by apply Forall_reverse.
Qed.

Lemma rstrip_all s : Forall (λ a, is_space a = true) s → rstrip s = [].
Proof.
  intros Hs. unfold rstrip. rewrite drop_while_all; [done|].
  by apply Forall_reverse.
Qed.

Lemma rstrip_snoc s a : is_space a = false → rstrip (s ++ [a]) = s ++ [a].
Proof.
  intros Ha. unfold rstrip. rewrite reverse_app. simpl.
  rewrite Ha. by rewrite reverse_cons, reverse_involutive.
Qed.

Lemma rstrip_decomp s :
  ∃ ws, s = rstrip s ++ ws ∧ Forall (λ a, is_space a = true) ws.
Proof.
  exists (reverse (take_while is_space (reverse s))). split.
  - unfold rstrip. rewrite <-reverse_app, take_drop_while.
    by rewrite reverse_involutive.
  - apply Forall_reverse, Forall_take_while.
Qed.

Lemma strip_rstrip s : strip s = rstrip (drop_while is_space s).
Proof. done. Qed.

Lemma strip_app_spaces s ws :
  Forall (λ a, is_space a = true) ws → strip (s ++ ws) = strip s.
Proof.
  intros Hws. rewrite !strip_rstrip.
  destruct (drop_while is_space s) as [|a t] eqn:E.
  - rewrite drop_while_all; [done|]. apply Forall_app. split; [|done].
    by apply drop_while_nil_all.
  - rewrite drop_while_app_some by (by rewrite E). rewrite E.
    by apply rstrip_app_spaces.
Qed.

Lemma strip_all s : Forall (λ a, is_space a = true) s → strip s = [].
Proof. intros Hs. rewrite strip_rstrip. by rewrite drop_while_all. Qed.

Lemma strip_rstrip_eq s : strip (rstrip s) = strip s.
Proof.
  destruct (rstrip_decomp s) as (ws & Hs & Hws).
  rewrite Hs at 2. by rewrite strip_app_spaces.
Qed.

Lemma rstrip_cons a s :
  rstrip (a :: s) = if forallb is_space (a :: s) then [] else a :: rstrip s.
Proof.
  destruct (forallb is_space (a :: s)) eqn:E.
  - apply rstrip_all. by apply forallb_Forall_space.
  - destruct (rstrip_decomp s) as (ws & Hs & Hws).
    destruct (rstrip s) as [|b t] eqn:Er using rev_ind.
    + simpl in Hs. subst ws. simpl in E.
      apply forallb_Forall_space in Hws. rewrite Hws, andb_true_r in E.
      change (a :: s) with ([a] ++ s).
      rewrite rstrip_app_spaces by (by apply forallb_Forall_space).
      change [a] with ([] ++ [a]). by rewrite rstrip_snoc.
    + clear IHt.
      assert (is_space b = false) as Hb.
      { unfold rstrip in Er.
        apply (f_equal reverse) in Er.
        rewrite reverse_involutive, reverse_app in Er. simpl in Er.
        by apply drop_while_head in Er. }
      rewrite Hs at 1.
      change (a :: (t ++ [b]) ++ ws) with ((a :: t ++ [b]) ++ ws).
      rewrite rstrip_app_spaces by done.
      change (a :: t ++ [b]) with ((a :: t) ++ [b]). by rewrite rstrip_snoc.
Qed.


(** ** The company name (line 49) *)

Section company.
#[local] Arguments ms : simpl never.

Lemma head_bind {A B} (f : A → list B) (l : list A) x y :
  head l = Some x → head (f x) = Some y → head (l ≫= f) = Some y.
Proof.
  destruct l as [|x' l]; [done|]. intros [= ->]. simpl.
  destruct (f x) as [|y' ys]; [done|]. by intros [= ->].
Qed.

Lemma ms_Cat_eq r1 r2 prev s :
  ms (Cat r1 r2) prev s =
  h1 ← ms r1 prev s;
  h2 ← ms r2 (prev_after prev h1.1) (drop (length h1.1) s);
  [(h1.1 ++ h2.1, match h2.2 with Some g => Some g | None => h1.2 end)].
Proof. done. Qed.

Lemma head_ms_Star p prev s :
  head (ms (Star p) prev s) = Some (take_while p s, None).
Proof.
  change (ms (Star p) prev s) with ((λ w, (w, @None pystr)) <$> runs p s).
  pose proof (head_runs p s) as H.
  destruct (runs p s) as [|w ws]; [done|]. simpl in *. by injection H as ->.
Qed.

Lemma dash_tail_shape s :
  dash_tail s = true ↔
  ∃ ws1 ws2, s = ws1 ++ "-" :: ws2
    ∧ Forall (λ a, is_space a = true) ws1
    ∧ Forall (λ a, is_space a = true) ws2.
Proof.
  unfold dash_tail. split.
  - destruct (drop_while is_space s) as [|a t] eqn:E; [done|].
    intros [Ha Ht]%andb_true_iff. apply bool_decide_eq_true in Ha as ->.
    exists (take_while is_space s), t. split_and!.
    + by rewrite <-E, take_drop_while.
    + apply Forall_take_while.
    + by apply forallb_Forall_space.
  - intros (ws1 & ws2 & -> & H1 & H2).
    rewrite drop_while_app_all by done. simpl.
    by apply forallb_Forall_space.
Qed.

Lemma elem_of_ms_company prev s (h : hit) :
  h ∈ ms company_tail prev s → dash_tail s = true.
Proof.
  unfold company_tail, Lit.
  intros (h1 & h2 & H1 & H2 & ->)%elem_of_ms_Cat.
  apply elem_of_ms_Star in H1 as (ws1 & post & -> & Hws1 & ->). simpl in H2.
  rewrite drop_app_length in H2.
  apply elem_of_ms_Cat in H2 as (h3 & h4 & H3 & H4 & ->).
  apply elem_of_ms_Chr in H3 as (a & t & -> & Ha & ->).
  apply bool_decide_eq_true in Ha as ->. simpl in H4. rewrite drop_0 in H4.
  apply elem_of_ms_Cat in H4 as (h5 & h6 & H5 & H6 & ->).
  apply elem_of_ms_Star in H5 as (ws2 & post & -> & Hws2 & ->). simpl in H6.
  rewrite drop_app_length in H6.
  apply elem_of_ms_Eos in H6 as [Hpost ->].
  apply dash_tail_shape. exists ws1, (ws2 ++ post). split_and!; [done|done|].
  apply Forall_app. split; [done|].
  destruct Hpost as [-> | ->]; by repeat constructor.
Qed.

Lemma head_ms_company prev s :
  dash_tail s = true → head (ms company_tail prev s) = Some (s, None).
Proof.
  intros (ws1 & ws2 & -> & H1 & H2)%dash_tail_shape.
  unfold company_tail, Lit. rewrite ms_Cat_eq.
  eapply head_bind; [apply head_ms_Star|]. cbv beta. simpl fst. simpl snd.
  rewrite take_while_app; [|done|by intros ?? [= <- _]].
  rewrite drop_app_length.
  eapply head_bind.
  { rewrite ms_Cat_eq. eapply head_bind; [done|]. cbv beta. simpl fst.
    change (drop (length ["-"]) ("-" :: ws2)) with ws2.
    eapply head_bind; [|done].
    rewrite ms_Cat_eq. eapply head_bind; [apply head_ms_Star|].
    cbv beta. simpl fst. simpl snd.
    rewrite (take_while_all is_space ws2) by done.
    rewrite drop_all. done. }
  simpl. by rewrite app_nil_r.
Qed.

Lemma ms_company_nil prev s :
  dash_tail s = false → ms company_tail prev s = [].
Proof.
  intros Hs. destruct (ms company_tail prev s) as [|h hs] eqn:E; [done|].
  assert (h ∈ ms company_tail prev s) as Hh by (rewrite E; by left).
  apply elem_of_ms_company in Hh. congruence.
Qed.

Lemma delete_from_company_tail fuel prev s :
  length s < fuel →
  delete_from fuel company_tail prev s = before_dash_tail s.
Proof.
  revert prev s. induction fuel as [|fuel IH]; intros prev s Hlen; [lia|].
  destruct s as [|a t].
  - cbn [delete_from]. by rewrite ms_company_nil.
  - simpl in Hlen. cbn [delete_from before_dash_tail].
    destruct (dash_tail (a :: t)) eqn:Ed.
    + pose proof (head_ms_company prev _ Ed) as Hh.
      destruct (ms company_tail prev (a :: t)) as [|h hs]; [done|].
      simpl in Hh. injection Hh as ->. rewrite drop_all.
      destruct fuel; [done|]. cbn [delete_from]. by rewrite ms_company_nil.
    + rewrite ms_company_nil by done. f_equal. apply IH. lia.
Qed.

Lemma delete_matches_company_tail s :
  delete_matches company_tail s = before_dash_tail s.
Proof. unfold delete_matches. apply delete_from_company_tail. lia. Qed.

End company.

Lemma dash_tail_spaces_before s t :
  dash_tail (s ++ t) = true → dash_tail t = true →
  Forall (λ a, is_space a = true) s.
Proof.
  intros Hst Ht. induction s as [|a s IH]; [constructor|].
  destruct (is_space a) eqn:Ea.
  - constructor; [done|]. apply IH. unfold dash_tail in *. simpl in Hst.
    by rewrite Ea in Hst.
  - exfalso. unfold dash_tail in Hst. simpl in Hst. rewrite Ea in Hst.
    apply andb_true_iff in Hst as [_ Hall].
    apply forallb_Forall_space in Hall.
    apply Forall_app in Hall as [_ Hall].
    apply dash_tail_shape in Ht as (ws1 & ws2 & -> & _ & _).
    apply Forall_app in Hall as [_ Hall]. by inversion Hall.
Qed.

Lemma before_dash_tail_app pre t :
  dash_tail t = true → before_dash_tail (pre ++ t) = rstrip pre.
Proof.
  intros Ht. induction pre as [|a pre IH].
  - simpl. destruct t as [|b t]; [done|]. simpl. by rewrite Ht.
  - change ((a :: pre) ++ t) with (a :: (pre ++ t)).
    cbn [before_dash_tail]. rewrite rstrip_cons.
    destruct (dash_tail (a :: pre ++ t)) eqn:Ed.
    + pose proof (dash_tail_spaces_before (a :: pre) t Ed Ht) as Hall.
      apply forallb_Forall_space in Hall. by rewrite Hall.
    + destruct (forallb is_space (a :: pre)) eqn:Ea; [|by rewrite IH].
      apply forallb_Forall_space in Ea.
      apply dash_tail_shape in Ht as (ws1 & ws2 & -> & H1 & H2).
      assert (dash_tail ((a :: pre) ++ ws1 ++ "-" :: ws2) = true) as Hd.
      { apply dash_tail_shape. exists ((a :: pre) ++ ws1), ws2.
        rewrite <-(assoc_L (++)). split_and!; [done| |done].
        apply Forall_app. by split. }
      simpl in Hd. congruence.
Qed.

Lemma strip_ends_with_dash pre ws2 :
  Forall (λ a, is_space a = true) ws2 →
  last (strip (pre ++ "-" :: ws2)) = Some "-".
Proof.
  intros H2. change (pre ++ "-" :: ws2) with (pre ++ ["-"] ++ ws2).
  rewrite (assoc_L (++)), strip_app_spaces by done. rewrite strip_rstrip.
  assert (∃ y, drop_while is_space (pre ++ ["-"]) = y ++ ["-"]) as [y ->].
  { induction pre as [|a pre [y IH]]; [by exists []|]. simpl.
    destruct (is_space a); [by exists y|]. by exists (a :: pre). }
  rewrite rstrip_snoc by done. by rewrite last_snoc.
Qed.

Lemma before_dash_tail_none s :
  last (strip s) ≠ Some "-" → before_dash_tail s = s.
Proof.
  intros Hlast.
  assert (∀ pre t, s = pre ++ t → before_dash_tail t = t) as H;
    [|by apply (H [])].
  intros pre t. revert pre. induction t as [|a t IH]; intros pre Hs; [done|].
  cbn [before_dash_tail]. destruct (dash_tail (a :: t)) eqn:Ed.
  - exfalso. apply Hlast.
    apply dash_tail_shape in Ed as (ws1 & ws2 & Ed & _ & H2).
    rewrite Hs, Ed, (assoc_L (++)). by apply strip_ends_with_dash.
  - f_equal. apply (IH (pre ++ [a])). by rewrite <-(assoc_L (++)).
Qed.

Lemma company_with_skills r0 :
  cell (record_with_skills r0) Company_Name =
  str_map strip (str_map (delete_matches company_tail)
                   (copied (r0 !! Company_Name))).
Proof.
  unfold record_with_skills.
  assert (∀ r, cell (located r) Company_Name = cell r Company_Name) as ->.
  { intros r. unfold located, cell. by lookups. }
  rewrite after_dedup_before. unfold before_dedup, copy_with_salary, cell.
  lookups. by destruct (r0 !! Company_Name).
Qed.

Lemma company_plain r0 :
  cell (record_plain r0) Company_Name = copied (r0 !! Company_Name).
Proof.
  unfold record_plain, located, copy_with_salary, cell. lookups.
  by destruct (r0 !! Company_Name).
Qed.

(** X9.  With a skills column, the company name of a cleaned record is
    the ingested one cut before its trailing dash and trimmed: a name
    that ends in white space, one dash and white space becomes the
    trimmed text before them, and a name whose trimmed text does not
    end in a dash is only trimmed.  Without a skills column the
    company name is the ingested one, unchanged. *)
Theorem company_name_loses_its_dash_tail raw df_final :
  clean raw = Cleaned df_final →
  Forall (λ r, ∃ r0, r0 ∈ rows (basic_cleaning raw)
      ∧ cell r Link = copied (r0 !! Link)
      ∧ if has_column Skills (basic_cleaning raw)
        then ∀ name : pystr, r0 !! Company_Name = Some name →
          (∀ pre ws1 ws2, name = pre ++ ws1 ++ "-" :: ws2 →
             Forall (λ a, is_space a = true) ws1 →
             Forall (λ a, is_space a = true) ws2 →
             cell r Company_Name = VStr (strip pre))
          ∧ (last (strip name) ≠ Some "-" →
             cell r Company_Name = VStr (strip name))
        else cell r Company_Name = copied (r0 !! Company_Name))
    (rows df_final).
Proof.
  intros Hc. eapply Forall_impl; [exact (clean_records _ _ Hc)|].
  intros r (r0 & Hr0 & ->). exists r0. split; [done|].
  rewrite cleaned_record_Link. split; [done|].
  destruct (has_column Skills (basic_cleaning raw)); cbv iota;
    [|apply company_plain].
  intros name Hname. rewrite company_with_skills, Hname.
  cbn [copied str_map]. rewrite delete_matches_company_tail. split.
  - intros pre ws1 ws2 -> H1 H2. f_equal.
    rewrite before_dash_tail_app; [apply strip_rstrip_eq|].
    apply dash_tail_shape. by exists ws1, ws2.
  - intros Hlast. by rewrite before_dash_tail_none.
Qed.

Lemma company_name_loses_its_dash_tail_witness :
  Forall (λ r, ∃ r0, r0 ∈ rows (basic_cleaning listings)
      ∧ cell r Link = copied (r0 !! Link)
      ∧ if has_column Skills (basic_cleaning listings)
        then ∀ name : pystr, r0 !! Company_Name = Some name →
          (∀ pre ws1 ws2, name = pre ++ ws1 ++ "-" :: ws2 →
             Forall (λ a, is_space a = true) ws1 →
             Forall (λ a, is_space a = true) ws2 →
             cell r Company_Name = VStr (strip pre))
          ∧ (last (strip name) ≠ Some "-" →
             cell r Company_Name = VStr (strip name))
        else cell r Company_Name = copied (r0 !! Company_Name))
    (rows (cleaned listings)).
Proof.
  apply (company_name_loses_its_dash_tail listings (cleaned listings)).
  vm_compute. reflexivity.
Defined.

(** The company names of the sample: ["Acme - "] and ["Beta -"] lose
    their dash, and only the last dash tail goes. *)
Example company_name_samples :
  (λ r, cell r Company_Name) <$> rows (cleaned listings)
  = [VStr (py "Acme"); VStr (py "Acme"); VStr (py "Beta")]
  ∧ strip (delete_matches company_tail (py "A - B - ")) = py "A - B"
  ∧ strip (delete_matches company_tail (py "A - -")) = py "A -"
  ∧ strip (delete_matches company_tail (py "Coca-Cola")) = py "Coca-Cola".
Proof. by vm_compute. Qed.

(** ** Trimmed texts (lines 46, 49 and 148) *)

Lemma drop_while_idemp p (s : pystr) :
  drop_while p (drop_while p s) = drop_while p s.
Proof.
  induction s as [|a s IH]; simpl; [done|].
  destruct (p a) eqn:E; [done|]. simpl. by rewrite E.
Qed.

Lemma rstrip_idemp s : rstrip (rstrip s) = rstrip s.
Proof.
  unfold rstrip. by rewrite reverse_involutive, drop_while_idemp.
Qed.

Lemma rstrip_cons_keep a t :
  is_space a = false → rstrip (a :: t) = a :: rstrip t.
Proof. intros Ha. rewrite rstrip_cons. simpl. by rewrite Ha. Qed.

Lemma strip_idemp s : strip (strip s) = strip s.
Proof.
  rewrite !strip_rstrip.
  destruct (drop_while is_space s) as [|a t] eqn:E; [done|].
  pose proof (drop_while_head _ _ _ _ E) as Ha.
  rewrite (rstrip_cons_keep a t Ha). simpl. rewrite Ha.
  by rewrite (rstrip_cons_keep a _ Ha), rstrip_idemp.
Qed.

Lemma is_space_lower_char a : is_space (lower_char a) = is_space a.
Proof. by destruct a as [[] [] [] [] [] [] [] []]. Qed.

Lemma lower_char_idemp a : lower_char (lower_char a) = lower_char a.
Proof. by destruct a as [[] [] [] [] [] [] [] []]. Qed.

Lemma drop_while_lower s :
  drop_while is_space (lower s) = lower (drop_while is_space s).
Proof.
  unfold lower. induction s as [|a s IH]; simpl; [done|].
  rewrite is_space_lower_char. by destruct (is_space a).
Qed.

Lemma strip_lower s : strip (lower s) = lower (strip s).
Proof.
  unfold strip. rewrite drop_while_lower. unfold lower at 1.
  rewrite <-fmap_reverse. fold (lower (reverse (drop_while is_space s))).
  rewrite drop_while_lower. unfold lower. by rewrite fmap_reverse.
Qed.

Lemma lower_idemp s : lower (lower s) = lower s.
Proof.
  unfold lower. rewrite <-list_fmap_compose. apply list_fmap_ext.
  intros i a _. apply lower_char_idemp.
Qed.

(** X10.  With a skills column, the location and the company name of
    every cleaned record are trimmed: trimming them again changes
    nothing. *)
Theorem location_and_company_are_trimmed raw df_final :
  clean raw = Cleaned df_final →
  has_column Skills (basic_cleaning raw) = true →
  Forall (λ r, ∀ s, cell r Location = VStr s ∨ cell r Company_Name = VStr s →
                    strip s = s) (rows df_final).
Proof.
  intros Hc Hs. pose proof (clean_records _ _ Hc) as Hrec.
  rewrite Hs in Hrec. eapply Forall_impl; [done|].
  intros r (r0 & _ & ->) s. cbn [cleaned_record].
  rewrite location_with_skills, company_with_skills.
  destruct (r0 !! Location) as [l|], (r0 !! Company_Name) as [n|];
    cbn [copied str_map]; intros [H|H]; try done;
    injection H as <-; apply strip_idemp.
Qed.

Lemma location_and_company_are_trimmed_witness :
  Forall (λ r, ∀ s, cell r Location = VStr s ∨ cell r Company_Name = VStr s →
                    strip s = s) (rows (cleaned listings)).
Proof.
  apply (location_and_company_are_trimmed listings (cleaned listings)).
  - vm_compute. reflexivity.
  - vm_compute. reflexivity.
Defined.

(** X11.  Every token of the word cloud is trimmed and in lower case,
    whatever the frame. *)
Theorem word_cloud_tokens_are_normalised (filtered_df : frame value) :
  Forall (λ t, strip t = t ∧ lower t = t) (skills_series filtered_df).
Proof.
  apply Forall_forall. intros t. unfold skills_series.
  rewrite list_elem_of_bind. intros (r & Ht & _).
  destruct (cell r Skills) as [| |l]; try by apply elem_of_nil in Ht.
  apply list_elem_of_fmap in Ht as (w & -> & _). split.
  - by rewrite strip_lower, strip_idemp.
  - apply lower_idemp.
Qed.

(** ** The columns and the untouched cells of the cleaned frame *)

Lemma elem_of_columns_skills_branch c (df : frame value) :
  c ∈ columns (skills_branch df) ↔
  c = Skills
  ∨ ((c ∈ columns df ∨ c = Location ∨ c = Company_Name)
     ∧ c ≠ Skills ∧ c ≠ Skills_List).
Proof.
  unfold skills_branch, rename, drop_column. cbn [columns].
  rewrite list_elem_of_fmap.
  change (columns (assign Company_Name ?f (drop_duplicates_on Link ?d)))
    with (columns (assign Company_Name f
                     {| columns := columns d; rows := rows d |})).
  split.
  - intros (x & -> & [Hx Hin]%list_elem_of_filter).
    apply elem_of_columns_assign in Hin. cbn [columns] in Hin.
    rewrite !elem_of_columns_assign in Hin.
    case_decide as Hl; [by left|]. right. split_and!; [|done|done].
    destruct Hin as [->|[->|[->|Hin]]]; auto; done.
  - intros [->|(Hin & Hs & Hl)].
    + exists Skills_List. rewrite decide_True by done. split; [done|].
      apply list_elem_of_filter. split; [done|].
      apply elem_of_columns_assign. right. cbn [columns].
      rewrite !elem_of_columns_assign. auto.
    + exists c. rewrite decide_False by done. split; [done|].
      apply list_elem_of_filter. split; [done|].
      apply elem_of_columns_assign. cbn [columns].
      rewrite !elem_of_columns_assign. tauto.
Qed.

(** X12.  The columns of the cleaned frame are the columns left by basic
    cleaning and the three derived ones; with a skills column, an
    ingested column labelled ["Skills List"] is not among them, the
    list of skills having taken its place and then the label
    ["Skills"]. *)
Theorem columns_of_the_cleaned_frame raw df_final :
  clean raw = Cleaned df_final →
  ∀ c, c ∈ columns df_final ↔
       (c ∈ columns (basic_cleaning raw)
        ∧ (has_column Skills (basic_cleaning raw) = true → c ≠ Skills_List))
       ∨ c ∈ [Country; Seniority; City].
Proof.
  unfold clean. case_bool_decide as Hreq; [|done]. intros [= <-] c.
  assert (∀ k, k ∈ required_columns → k ∈ columns (basic_cleaning raw))
    as Hk.
  { intros k Hin. by apply (elem_of_list_to_set (C := gset pystr)), Hreq. }
  assert (Location ∈ columns (basic_cleaning raw)) as HL.
  { apply Hk. unfold required_columns.
    rewrite !elem_of_union, !elem_of_singleton. auto. }
  assert (Company_Name ∈ columns (basic_cleaning raw)) as HC.
  { apply Hk. unfold required_columns.
    rewrite !elem_of_union, !elem_of_singleton. auto. }
  unfold location_processing. rewrite !elem_of_columns_assign.
  rewrite !elem_of_cons, elem_of_nil.
  destruct (has_column Skills (basic_cleaning raw)) eqn:Hs.
  - rewrite elem_of_columns_skills_branch. cbn [columns].
    apply bool_decide_eq_true in Hs. split.
    + intros [->|[->|[->|[->|([Hin|[->| ->]] & H1 & H2)]]]]; auto.
    + intros [[Hin Hl]|[->|[->|[->|[]]]]]; auto.
      destruct (decide (c = Skills)) as [->|Hne]; auto 10.
  - cbn [columns]. split.
    + intros [->|[->|[->|Hin]]]; auto; left; by split.
    + intros [[Hin _]|[->|[->|[->|[]]]]]; auto.
Qed.

Lemma columns_of_the_cleaned_frame_witness :
  clean listings = Cleaned (cleaned listings)
  ∧ ∀ c, c ∈ columns (cleaned listings) ↔
         (c ∈ columns (basic_cleaning listings)
          ∧ (has_column Skills (basic_cleaning listings) = true →
             c ≠ Skills_List))
         ∨ c ∈ [Country; Seniority; City].
Proof.
  split; [vm_compute; reflexivity|].
  apply (columns_of_the_cleaned_frame listings (cleaned listings)).
  vm_compute. reflexivity.
Defined.

(** X13.  Cleaning copies every other cell: outside the salary and the
    three derived columns, and with a skills column also outside the
    location, the company name and the two skills labels, a cleaned
    record holds what the ingested record holds, and nothing where that
    one holds nothing.  The job title and the link are always among
    the copied. *)
Theorem other_cells_are_copied raw df_final :
  clean raw = Cleaned df_final →
  Forall (λ r, ∃ r0, r0 ∈ rows (basic_cleaning raw)
      ∧ ∀ c : pystr,
          c ∉ [Salary; Country; Seniority; City] →
          (has_column Skills (basic_cleaning raw) = true →
           c ∉ [Location; Company_Name; Skills; Skills_List]) →
          r !! c = VStr <$> r0 !! c)
    (rows df_final).
Proof.
  intros Hc. eapply Forall_impl; [exact (clean_records _ _ Hc)|].
  intros r (r0 & Hr0 & ->). exists r0. split; [done|]. intros c Hd Hs.
  rewrite !not_elem_of_cons in Hd. destruct Hd as (H1 & H2 & H3 & H4 & _).
  assert (∀ r', located r' !! c = r' !! c) as Hloc.
  { intros r'. unfold located. by rewrite !lookup_insert_ne. }
  destruct (has_column Skills (basic_cleaning raw)); cbn [cleaned_record].
  - specialize (Hs eq_refl). rewrite !not_elem_of_cons in Hs.
    destruct Hs as (H5 & H6 & H7 & H8 & _).
    unfold record_with_skills. rewrite Hloc, after_dedup_before.
    rewrite lookup_insert_ne, !lookup_delete_ne, lookup_insert_ne by done.
    unfold before_dedup, copy_with_salary.
    rewrite !lookup_insert_ne by done. apply lookup_fmap.
  - unfold record_plain, copy_with_salary. rewrite Hloc.
    rewrite lookup_insert_ne by done. apply lookup_fmap.
Qed.

Lemma other_cells_are_copied_witness :
  Forall (λ r, ∃ r0, r0 ∈ rows (basic_cleaning listings)
      ∧ ∀ c : pystr,
          c ∉ [Salary; Country; Seniority; City] →
          (has_column Skills (basic_cleaning listings) = true →
           c ∉ [Location; Company_Name; Skills; Skills_List]) →
          r !! c = VStr <$> r0 !! c)
    (rows (cleaned listings)).
Proof.
  apply (other_cells_are_copied listings (cleaned listings)).
  vm_compute. reflexivity.
Defined.

Lemma drop_while_keep p (a : ascii) t :
  p a = false → drop_while p (a :: t) = a :: t.
Proof. intros Ha. simpl. by rewrite Ha. Qed.

(** * Numeric texts *)

(** ** Characters *)

Lemma space_char a :
  is_space_ascii a = true →
  is_digit a = false ∧ a ≠ "." ∧ a ≠ "e" ∧ a ≠ "E" ∧ a ≠ "-" ∧ a ≠ "+".
Proof. by destruct a as [[] [] [] [] [] [] [] []]. Qed.

Lemma digit_char a :
  is_digit a = true →
  is_space_ascii a = false ∧ a ≠ "." ∧ a ≠ "e" ∧ a ≠ "E" ∧ a ≠ "-"
  ∧ a ≠ "+".
Proof. by destruct a as [[] [] [] [] [] [] [] []]. Qed.

Lemma sign_other a t : a ≠ "-" → a ≠ "+" → sign (a :: t) = (false, a :: t).
Proof. by destruct a as [[] [] [] [] [] [] [] []]. Qed.

Lemma fraction_other a t : a ≠ "." → fraction (a :: t) = ([], a :: t).
Proof. by destruct a as [[] [] [] [] [] [] [] []]. Qed.

Lemma exponent_other a t :
  a ≠ "e" → a ≠ "E" → exponent (a :: t) = (0%Z, a :: t).
Proof.
  intros He HE. unfold exponent.
  rewrite bool_decide_eq_false_2; [done|]. by intros [?|?].
Qed.

(** ** The first character of a text *)

Lemma heads_nil P : heads P [].
Proof. by intros a t. Qed.

Lemma heads_cons (P : ascii → Prop) a t : P a → heads P (a :: t).
Proof. by intros Ha ? ? [= <- _]. Qed.

Lemma heads_app P s t : heads P s → heads P t → heads P (s ++ t).
Proof.
  intros Hs Ht. destruct s as [|a s]; [done|]. by apply heads_cons, (Hs a s).
Qed.

Lemma heads_app_ne P s t : s ≠ [] → heads P s → heads P (s ++ t).
Proof.
  intros Hne Hs. destruct s as [|a s]; [done|]. by apply heads_cons, (Hs a s).
Qed.

Lemma heads_impl (P Q : ascii → Prop) s :
  (∀ a, P a → Q a) → heads P s → heads Q s.
Proof. intros HPQ Hs a t ->. by apply HPQ, (Hs a t). Qed.

Lemma heads_Forall (P : ascii → Prop) s : Forall P s → heads P s.
Proof. intros Hs a t ->. by inversion Hs. Qed.

Lemma take_drop_stop p w post :
  Forall (λ a, p a = true) w → heads (λ a, p a = false) post →
  take_while p (w ++ post) = w ∧ drop_while p (w ++ post) = post.
Proof.
  intros Hw Hpost. split.
  - by apply take_while_app.
  - rewrite drop_while_app_all by done. destruct post as [|a t]; [done|].
    apply drop_while_keep. by apply (Hpost a t).
Qed.

(** ** The pieces of the parser *)

Lemma sign_sound s neg s' :
  sign s = (neg, s') → ∃ sg, s = sg ++ s' ∧ sign_text neg sg.
Proof.
  destruct s as [|a t].
  - intros [= <- <-]. exists []. split; [done|]. by left.
  - destruct (decide (a = "-")) as [->|Hm].
    { intros [= <- <-]. exists ["-"]. split; [done|]. by left. }
    destruct (decide (a = "+")) as [->|Hp].
    { intros [= <- <-]. exists ["+"]. split; [done|]. by right. }
    rewrite sign_other by done. intros [= <- <-]. exists [].
    split; [done|]. by left.
Qed.

Lemma sign_complete neg sg rest :
  sign_text neg sg → heads (λ a, a ≠ "-" ∧ a ≠ "+") rest →
  sign (sg ++ rest) = (neg, rest).
Proof.
  intros [->|[-> ->]] Hrest; [|done]. destruct neg; [done|]. simpl.
  destruct rest as [|a t]; [done|].
  destruct (Hrest a t eq_refl). by apply sign_other.
Qed.

Lemma fraction_sound s fp s' :
  fraction s = (fp, s') →
  ∃ fr, s = fr ++ s' ∧ fraction_text fp fr ∧ digits fp.
Proof.
  destruct s as [|a t].
  - intros [= <- <-]. exists []. split_and!; [done|by left|constructor].
  - destruct (decide (a = ".")) as [->|Hd].
    + intros [= <- <-]. exists ("." :: take_while is_digit t). split_and!.
      * simpl. by rewrite take_drop_while.
      * by right.
      * apply Forall_take_while.
    + rewrite fraction_other by done. intros [= <- <-]. exists [].
      split_and!; [done|by left|constructor].
Qed.

Lemma fraction_complete fp fr rest :
  fraction_text fp fr → digits fp →
  heads (λ a, is_digit a = false ∧ a ≠ ".") rest →
  fraction (fr ++ rest) = (fp, rest).
Proof.
  intros [[-> ->]| ->] Hfp Hrest.
  - simpl. destruct rest as [|a t]; [done|].
    destruct (Hrest a t eq_refl). by apply fraction_other.
  - simpl.
    destruct (take_drop_stop is_digit fp rest Hfp) as [-> ->]; [|done].
    eapply heads_impl; [|done]. by intros a [? _].
Qed.

Lemma exponent_sound s ex s' :
  exponent s = (ex, s') → ∃ et, s = et ++ s' ∧ exponent_text ex et.
Proof.
  destruct s as [|c t].
  - intros [= <- <-]. exists []. split; [done|]. by left.
  - unfold exponent. case_bool_decide as Hc.
    + destruct (sign t) as [eneg t'] eqn:Es.
      apply sign_sound in Es as (sg & -> & Hsg).
      case_bool_decide as Hds.
      * intros [= <- <-]. exists []. split; [done|]. by left.
      * intros [= <- <-].
        exists (c :: sg ++ take_while is_digit t'). split.
        -- simpl. by rewrite <-(assoc_L (++)), take_drop_while.
        -- right. exists c, eneg, sg, (take_while is_digit t').
           split_and!; try done. apply Forall_take_while.
    + intros [= <- <-]. exists []. split; [done|]. by left.
Qed.

Lemma exponent_complete ex et rest :
  exponent_text ex et →
  heads (λ a, is_digit a = false ∧ a ≠ "e" ∧ a ≠ "E") rest →
  exponent (et ++ rest) = (ex, rest).
Proof.
  intros [[-> ->]|(c & neg & sg & ds & -> & Hc & Hsg & Hne & Hds & ->)] Hrest.
  - simpl. destruct rest as [|a t]; [done|].
    destruct (Hrest a t eq_refl) as (_ & ? & ?). by apply exponent_other.
  - change ((c :: sg ++ ds) ++ rest) with (c :: (sg ++ ds) ++ rest).
    unfold exponent. rewrite bool_decide_eq_true_2 by done.
    rewrite <-(assoc_L (++)).
    rewrite (sign_complete neg sg (ds ++ rest)); [|done|].
    2:{ apply heads_app_ne; [done|].
        eapply heads_impl; [|by apply heads_Forall, Hds].
        intros a Ha. by destruct (digit_char a Ha) as (_ & _ & _ & _ & ? & ?). }
    destruct (take_drop_stop is_digit ds rest Hds) as [-> ->].
    { eapply heads_impl; [|done]. by intros a [? _]. }
    by rewrite bool_decide_eq_false_2.
Qed.

(** ** Scaling by a power of ten *)

Lemma Qred_whole z : Qred (inject_Z z) = inject_Z z.
Proof. apply Qred_identity. simpl. apply Z.gcd_1_r. Qed.

Lemma scale_spec m e : scale m e = Qred (inject_Z m * 10 ^ e).
Proof.
  unfold scale. destruct (0 <=? e)%Z eqn:He.
  - apply Z.leb_le in He. rewrite <-Qred_whole. apply Qred_complete.
    rewrite inject_Z_mult. apply Qmult_comp; [done|].
    by apply (Zpower_Qpower 10).
  - apply Z.leb_gt in He. apply Qred_complete.
    rewrite Qmake_Qdiv. unfold Qdiv. apply Qmult_comp; [done|].
    rewrite Z2Pos.id by (apply Z.pow_pos_nonneg; lia).
    rewrite (Zpower_Qpower 10) by lia.
    rewrite <-Qpower_opp. by rewrite Z.opp_involutive.
Qed.

(** ** The parser and the grammar *)

Lemma decimal_sound s q : decimal s = Some q → spells s q.
Proof.
  unfold decimal.
  destruct (sign (drop_while is_space_ascii s)) as [neg s2] eqn:Es.
  destruct (fraction (drop_while is_digit s2)) as [fp s4] eqn:Ef.
  case_bool_decide as Hne; [done|].
  destruct (exponent s4) as [ex s5] eqn:Ee.
  case_bool_decide as Hend; [|done]. intros [= <-].
  apply sign_sound in Es as (sg & Hs1 & Hsg).
  apply fraction_sound in Ef as (fr & Hs3 & Hfr & Hfp).
  apply exponent_sound in Ee as (et & Hs4 & Het).
  exists (take_while is_space_ascii s), neg, sg, (take_while is_digit s2),
    fp, fr, ex, et, s5.
  split_and!; try done.
  - rewrite <-Hs4, <-Hs3, take_drop_while, <-Hs1. by rewrite take_drop_while.
  - apply Forall_take_while.
  - by apply drop_while_nil_all.
  - apply Forall_take_while.
  - apply scale_spec.
Qed.

Lemma decimal_complete s q : spells s q → decimal s = Some q.
Proof.
  intros (ws1 & neg & sg & ip & fp & fr & ex & et & ws2 & -> & Hw1 & Hw2
          & Hsg & Hip & Hfp & Hfr & Hne & Het & ->).
  assert (heads (λ a, is_digit a = false ∧ a ≠ "." ∧ a ≠ "e" ∧ a ≠ "E"
                      ∧ a ≠ "-" ∧ a ≠ "+") ws2) as Hh2.
  { eapply heads_impl; [|by apply heads_Forall, Hw2]. apply space_char. }
  assert (heads (λ a, is_digit a = false ∧ a ≠ ".") (et ++ ws2)) as Hh3.
  { destruct Het as [[-> _]|(c & ? & sg' & ds & -> & Hc & _)].
    - eapply heads_impl; [|exact Hh2]. by intros a (? & ? & _).
    - apply heads_cons. by destruct Hc as [-> | ->]. }
  assert (heads (λ a, is_digit a = false ∧ a ≠ "-" ∧ a ≠ "+")
            (fr ++ et ++ ws2)) as Hh4.
  { destruct Hfr as [[-> _]| ->]; [|by apply heads_cons].
    destruct Het as [[-> _]|(c & ? & sg' & ds & -> & Hc & _)].
    - eapply heads_impl; [|exact Hh2]. by intros a (? & _ & _ & _ & ? & ?).
    - apply heads_cons. by destruct Hc as [-> | ->]. }
  assert (heads (λ a, is_space_ascii a = false ∧ a ≠ "-" ∧ a ≠ "+")
            (ip ++ fr ++ et ++ ws2)) as Hh5.
  { destruct ip as [|d ip].
    - destruct Hfr as [[-> ->]| ->]; [done|]. by apply heads_cons.
    - apply heads_cons. unfold digits in Hip. apply Forall_cons in Hip as [Hd _].
      by destruct (digit_char d Hd) as (? & _ & _ & _ & ? & ?). }
  assert (heads (λ a, is_space_ascii a = false)
            (sg ++ ip ++ fr ++ et ++ ws2)) as Hh6.
  { destruct Hsg as [->|[_ ->]]; [|by apply heads_cons].
    destruct neg; [by apply heads_cons|].
    eapply heads_impl; [|exact Hh5]. by intros a [? _]. }
  unfold decimal.
  destruct (take_drop_stop is_space_ascii ws1 _ Hw1 Hh6) as [_ ->].
  rewrite (sign_complete neg sg); [|done|].
  2:{ eapply heads_impl; [|exact Hh5]. by intros a (_ & ? & ?). }
  destruct (take_drop_stop is_digit ip (fr ++ et ++ ws2) Hip) as [-> ->].
  { eapply heads_impl; [|exact Hh4]. by intros a [? _]. }
  rewrite (fraction_complete fp fr) by done.
  rewrite bool_decide_eq_false_2 by done.
  rewrite (exponent_complete ex et); [|done|].
  2:{ eapply heads_impl; [|exact Hh2]. by intros a (? & _ & ? & ? & _). }
  rewrite (drop_while_all is_space_ascii ws2) by done.
  rewrite bool_decide_eq_true_2 by done. f_equal. apply scale_spec.
Qed.

(** The parser reads exactly the texts of the grammar, each as the
    number it spells. *)
Lemma decimal_spells s q : decimal s = Some q ↔ spells s q.
Proof. split; [apply decimal_sound|apply decimal_complete]. Qed.




Lemma to_numeric_spells s q : spells s q → to_numeric s = b64 q.
Proof. intros Hs. unfold to_numeric. by rewrite (decimal_complete s q Hs). Qed.


(** ** Whole numbers below [2 ^ 53] are floats *)

Lemma round_half_even_whole a : round_half_even a 1 = a.
Proof.
  unfold round_half_even. rewrite Z.mod_1_r, Z.div_1_r. done.
Qed.

Lemma b64_pos_whole n :
  (Z.pos n < 2 ^ 53)%Z → b64_pos n 1 = Fin (inject_Z (Z.pos n)).
Proof.
  intros Hn.
  assert (0 <= Z.log2 (Z.pos n) <= 52)%Z as He.
  { split; [apply Z.log2_nonneg|].
    apply Z.lt_succ_r, (Z.log2_lt_pow2 (Z.pos n) 53); lia. }
  destruct (Z.log2_spec (Z.pos n)) as [Hlo Hhi]; [lia|].
  set (e := Z.log2 (Z.pos n)) in *.
  assert (floor_log2 n 1 = e) as Hfl.
  { unfold floor_log2. change (Z.log2 1) with 0%Z. rewrite Z.sub_0_r.
    fold e. rewrite Z.max_r, Z.max_l by lia.
    destruct (1 * 2 ^ e <=? Z.pos n * 2 ^ 0)%Z eqn:E; [done|].
    apply Z.leb_gt in E. lia. }
  unfold b64_pos. rewrite Hfl. rewrite (Z.max_l e) by lia.
  rewrite (Z.max_l 0 (e - 52)), (Z.max_r 0 (- (e - 52))) by lia.
  change (1 * Z.to_pos (2 ^ 0))%positive with 1%positive.
  rewrite round_half_even_whole.
  assert (0 < 2 ^ (- (e - 52)))%Z as Hpow by (apply Z.pow_pos_nonneg; lia).
  assert (Z.pos n * 2 ^ (- (e - 52)) < 2 ^ 53)%Z as Hk.
  { replace (2 ^ 53)%Z with (2 ^ Z.succ e * 2 ^ (- (e - 52)))%Z.
    - apply Z.mul_lt_mono_pos_r; lia.
    - rewrite <-Z.pow_add_r by lia. f_equal. lia. }
  rewrite (proj2 (Z.eqb_neq _ _)) by lia.
  rewrite (proj2 (Z.leb_gt _ _)) by lia.
  f_equal. rewrite <-Qred_whole. apply Qred_complete.
  unfold Qeq. simpl Qnum. simpl Qden. rewrite Z2Pos.id by lia. lia.
Qed.

Lemma b64_whole z :
  (Z.abs z < 2 ^ 53)%Z → b64 (inject_Z z) = of_Z z.
Proof.
  intros Hz. destruct z as [|n|n].
  - done.
  - change (b64_pos n 1 = of_Z (Z.pos n)). apply b64_pos_whole. lia.
  - change (opp (b64_pos n 1) = of_Z (Z.neg n)).
    rewrite b64_pos_whole by lia. done.
Qed.

Lemma digits_value_snoc ds d :
  digits_value (ds ++ [d])
  = (10 * digits_value ds + Z.of_N (cp d - 48))%Z.
Proof. unfold digits_value. by rewrite fold_left_app. Qed.

Lemma digit_range d : is_digit d = true → (0 <= Z.of_N (cp d - 48) <= 9)%Z.
Proof. by destruct d as [[] [] [] [] [] [] [] []]. Qed.

Lemma digits_value_bound ds :
  digits ds → (0 <= digits_value ds < 10 ^ Z.of_nat (length ds))%Z.
Proof.
  induction ds as [|d ds IH] using rev_ind; [done|].
  intros [Hds [Hd _]%Forall_cons]%Forall_app. specialize (IH Hds).
  rewrite digits_value_snoc, length_app. simpl length.
  pose proof (digit_range d Hd).
  replace (Z.of_nat (length ds + 1)) with (Z.succ (Z.of_nat (length ds)))
    by lia.
  rewrite Z.pow_succ_r by lia. lia.
Qed.

(** ** More on the salary text (lines 41 and 42) *)

Lemma spells_digits ds :
  ds ≠ [] → digits ds → spells ds (inject_Z (digits_value ds)).
Proof.
  intros Hne Hds. exists [], false, [], ds, [], [], 0%Z, [], [].
  rewrite !app_nil_r. split_and!; try done; try by left.
  transitivity (Qred (inject_Z (digits_value ds)));
    [symmetry; apply Qred_whole|].
  apply Qred_complete. simpl. rewrite Qmult_1_r. reflexivity.
Qed.

Lemma to_numeric_digits ds :
  ds ≠ [] → digits ds → length ds ≤ 15 →
  to_numeric ds = of_Z (digits_value ds).
Proof.
  intros Hne Hds Hlen. rewrite (to_numeric_spells _ _ (spells_digits _ Hne Hds)).
  apply b64_whole. pose proof (digits_value_bound ds Hds) as [H0 Hb].
  assert (10 ^ Z.of_nat (length ds) <= 10 ^ 15)%Z
    by (apply Z.pow_le_mono_r; lia).
  rewrite Z.abs_eq by done. change (2 ^ 53)%Z with 9007199254740992%Z.
  change (10 ^ 15)%Z with 1000000000000000%Z in *. lia.
Qed.



Lemma decimal_digits_then ds c rest :
  ds ≠ [] → digits ds →
  is_digit c = false → c ≠ "." → c ≠ "e" → c ≠ "E" →
  drop_while is_space_ascii (c :: rest) ≠ [] →
  decimal (ds ++ c :: rest) = None.
Proof.
  intros Hne Hds Hc Hdot He HE Hrest. destruct ds as [|d ds]; [done|].
  pose proof Hds as [Hd _]%Forall_cons.
  destruct (digit_char d Hd) as (Hsp & _ & _ & _ & Hm & Hp).
  unfold decimal.
  change ((d :: ds) ++ c :: rest) with (d :: (ds ++ c :: rest)).
  rewrite (drop_while_keep _ _ _ Hsp), (sign_other _ _ Hm Hp).
  change (d :: (ds ++ c :: rest)) with ((d :: ds) ++ c :: rest).
  destruct (take_drop_stop is_digit (d :: ds) (c :: rest) Hds) as [-> ->];
    [by apply heads_cons|].
  rewrite (fraction_other _ _ Hdot), app_nil_r.
  rewrite bool_decide_eq_false_2 by done.
  rewrite (exponent_other _ _ He HE). by rewrite bool_decide_eq_false_2.
Qed.




(** X14.  A salary text made of digits, ["$"] and [","] only, with at
    least one and at most fifteen digits, reads as the whole number
    its digits spell, wherever the symbols stand. *)
Theorem salary_symbols_may_stand_anywhere (s : pystr) :
  filter (λ a, a ≠ "$" ∧ a ≠ ",") s ≠ [] →
  Forall (λ a, is_digit a = true) (filter (λ a, a ≠ "$" ∧ a ≠ ",") s) →
  length (filter (λ a, a ≠ "$" ∧ a ≠ ",") s) ≤ 15 →
  salary_usd (Some s)
  = of_Z (digits_value (filter (λ a, a ≠ "$" ∧ a ≠ ",") s)).
Proof.
  intros Hne Hds Hlen. unfold salary_usd, astype_str.
  rewrite delete_matches_salary_symbols. by apply to_numeric_digits.
Qed.

Lemma salary_symbols_may_stand_anywhere_witness :
  salary_usd (Some (py "1,2$00,")) = of_Z 1200.
Proof.
  apply (salary_symbols_may_stand_anywhere (py "1,2$00,")).
  - vm_compute. discriminate.
  - vm_compute. by repeat constructor.
  - vm_compute. lia.
Defined.

Lemma lower_digit_first d t (l : list pystr) :
  is_digit d = true →
  Forall (λ w, ∃ a w', w = a :: w' ∧ is_digit a = false
                       ∧ lower_char a = a) l →
  lower (d :: t) ∉ l.
Proof.
  intros Hd Hl Hin. rewrite Forall_forall in Hl.
  destruct (Hl _ Hin) as (a & w' & Hw & Ha & Hlow).
  unfold lower in Hw. simpl in Hw. injection Hw as Hw _.
  assert (is_digit (lower_char d) = true) as Hd'
    by (clear -Hd; by destruct d as [[] [] [] [] [] [] [] []]).
  congruence.
Qed.

(** X15.  A salary text whose digits are followed by anything but a
    fraction, an exponent or white space alone has no salary: a range
    such as ["1000-2000"] or an amount with a unit such as
    ["1200 USD"] reads as NaN. *)
Theorem salary_with_a_unit_or_a_range_is_absent (s ds rest : pystr) c :
  filter (λ a, a ≠ "$" ∧ a ≠ ",") s = ds ++ c :: rest →
  ds ≠ [] → Forall (λ a, is_digit a = true) ds →
  is_digit c = false → c ≠ "." → c ≠ "e" → c ≠ "E" →
  drop_while is_space_ascii (c :: rest) ≠ [] →
  salary_usd (Some s) = NaN.
Proof.
  intros Hs Hne Hds Hc Hdot He HE Hrest.
  unfold salary_usd, astype_str, to_numeric.
  rewrite delete_matches_salary_symbols, Hs.
  rewrite decimal_digits_then by done.
  destruct ds as [|d ds]; [done|]. pose proof Hds as Hd%Forall_inv.
  change ((d :: ds) ++ c :: rest) with (d :: (ds ++ c :: rest)).
  rewrite !bool_decide_eq_false_2; [done| |];
    apply lower_digit_first; try done; repeat constructor;
    eexists _, _; by split_and!.
Qed.

Lemma salary_with_a_unit_or_a_range_is_absent_witness :
  salary_usd (Some (py "$1,000-$2,000")) = NaN
  ∧ salary_usd (Some (py "1200 USD")) = NaN.
Proof.
  split.
  - apply (salary_with_a_unit_or_a_range_is_absent
             (py "$1,000-$2,000") (py "1000") (py "2000") "-");
      try done.
    by repeat constructor.
  - apply (salary_with_a_unit_or_a_range_is_absent
             (py "1200 USD") (py "1200") (py "USD") " ");
      try done.
    by repeat constructor.
Defined.

(** * TOOLSGUI.py: the job level and the default view *)

Lemma determine_job_level_None x :
  determine_job_level (Some x) = None ↔ isnan x = true.
Proof.
  destruct x as [| |q|]; try done. simpl.
  unfold determine_job_level, ge, lt, le, of_Z.
  destruct (Qle_bool (inject_Z 2) q) eqn:E2; simpl; [|done].
  destruct (Qle_bool (inject_Z 5) q) eqn:E5; simpl; done.
Qed.

(** X16.  [determine_job_level] answers nothing for NaN only; every other
    number, the infinities included, gets one of the three levels; and
    the level does not go down as the experience goes up. *)
Theorem job_level_is_missing_for_nan_only (x y : float) :
  (determine_job_level (Some x) = None ↔ isnan x = true)
  ∧ (∀ s, determine_job_level (Some x) = Some s →
          s ∈ [py "Junior"; py "Mid-Level"; py "Senior"])
  ∧ determine_job_level (Some PosInf) = Some (py "Senior")
  ∧ determine_job_level (Some NegInf) = Some (py "Junior")
  ∧ (le x y = true →
     (determine_job_level (Some x) = Some (py "Senior") →
      determine_job_level (Some y) = Some (py "Senior"))
     ∧ (determine_job_level (Some y) = Some (py "Junior") →
        determine_job_level (Some x) = Some (py "Junior"))).
Proof.
  assert (∀ a b c : Q, Qle_bool a b = true → Qle_bool b c = true →
                       Qle_bool a c = true) as Htr.
  { intros a b c ?%Qle_bool_iff ?%Qle_bool_iff.
    apply Qle_bool_iff. by eapply Qle_trans. }
  split_and!.
  - apply determine_job_level_None.
  - intros s. destruct x as [| |q|]; try done.
    + intros [= <-]. by left.
    + unfold determine_job_level, ge, lt, le, of_Z.
      destruct (Qle_bool (inject_Z 2) q) eqn:E2; simpl;
        [|intros [= <-]; by left].
      destruct (Qle_bool (inject_Z 5) q) eqn:E5; simpl; intros [= <-].
      * right. right. by left.
      * right. by left.
    + intros [= <-]. right. right. by left.
  - done.
  - done.
  - intros Hxy. destruct x as [| |p|], y as [| |q|]; try done.
    simpl in Hxy. unfold determine_job_level, ge, lt, le, of_Z.
    destruct (Qle_bool (inject_Z 2) p) eqn:P2,
             (Qle_bool (inject_Z 5) p) eqn:P5,
             (Qle_bool (inject_Z 2) q) eqn:Q2,
             (Qle_bool (inject_Z 5) q) eqn:Q5; simpl; try done.
    all: try (pose proof (Htr _ _ _ P5 Hxy); congruence).
    all: try (pose proof (Htr _ _ _ P2 Hxy); congruence).
Qed.

Lemma mapM_rows {A B} (f : A → option B) (l : list A) (k : list B) :
  mapM f l = Some k → Forall2 (λ x y, f x = Some y) l k.
Proof. apply mapM_Some_1. Qed.

(** X17.  When the job-level column can be added, every record of the
    result has a number for its experience and the level of that
    number, missing exactly for NaN, as its job level; the records are
    as many as before and the column is there. *)
Theorem job_level_follows_the_experience (df0 df : frame value) :
  with_job_level df0 = Some df →
  has_column Job_Level df = true
  ∧ length (rows df) = length (rows df0)
  ∧ Forall (λ r, ∃ x, cell r Experience = VFloat x
               ∧ cell r Job_Level
                 = match determine_job_level (Some x) with
                   | Some s => VStr s
                   | None => nan
                   end
               ∧ (isna (cell r Job_Level) = true ↔ isnan x = true))
      (rows df).
Proof.
  unfold with_job_level.
  destruct (has_column Experience (strip_columns df0)); [|done].
  destruct (mapM _ (rows (strip_columns df0))) as [rs|] eqn:Em; [|done].
  intros Hdf. simpl in Hdf. injection Hdf as <-.
  apply mapM_rows in Em. split_and!.
  - unfold has_column. simpl.
    destruct (bool_decide (Job_Level ∈ strip <$> columns df0)) eqn:E.
    + by apply bool_decide_eq_true in E; apply bool_decide_eq_true.
    + apply bool_decide_eq_true, elem_of_app. right. by left.
  - simpl. apply Forall2_length in Em. rewrite <-Em.
    unfold strip_columns. simpl. by rewrite length_fmap.
  - cbn [rows]. apply Forall_forall. intros r Hr.
    apply list_elem_of_lookup in Hr as [i Hi].
    destruct (Forall2_lookup_r _ _ _ _ _ Em Hi) as (r1 & _ & Hf).
    destruct (cell r1 Experience) as [|x|] eqn:Ex; try done.
    unfold job_level_of in Hf.
    pose proof (determine_job_level_None x) as Hnan.
    destruct (determine_job_level (Some x)) as [s|] eqn:Ed;
      simpl in Hf; injection Hf as <-; exists x;
      assert (Experience ≠ Job_Level) as Hne by done;
      unfold cell in *; rewrite lookup_insert_ne by done;
      rewrite lookup_insert_eq, Ed; cbn [default isna nan];
      (split_and!; [done|done|]).
    + split; [done|]. intros Hx. apply Hnan in Hx. done.
    + split; [|done]. intros _. by apply Hnan.
Qed.

Lemma job_level_follows_the_experience_witness :
  has_column Job_Level job_view = true
  ∧ length (rows job_view) = length (rows job_table)
  ∧ Forall (λ r, ∃ x, cell r Experience = VFloat x
               ∧ cell r Job_Level
                 = match determine_job_level (Some x) with
                   | Some s => VStr s
                   | None => nan
                   end
               ∧ (isna (cell r Job_Level) = true ↔ isnan x = true))
      (rows job_view).
Proof.
  apply (job_level_follows_the_experience job_table job_view).
  vm_compute. reflexivity.
Defined.

Lemma elem_of_options c (df : frame value) v :
  v ∈ unique [] (dropna (column_values c df)) ↔
  isna v = false ∧ ∃ r, r ∈ rows df ∧ cell r c = v.
Proof. apply elem_of_available_options. Qed.

(** X18.  Before the user acts, the second script shows exactly the
    records that have a work type and whose city is one of the first
    ten distinct cities of the table; a record without a job level is
    shown, the missing level being among the levels selected. *)
Theorem default_view_of_the_job_data (df : frame value) :
  has_column Job_Level df = true → has_column Work_Type df = true →
  has_column City df = true →
  filtered df (default_selection df)
  = Some {| columns := columns df;
            rows := filter (λ r, isna (cell r Work_Type) = false
                               ∧ cell r City ∈ take 10 (cities df))
                      (rows df) |}.
Proof.
  intros H1 H2 H3. unfold filtered. rewrite H1, H2, H3. simpl.
  do 2 f_equal. apply filter_ext_in. intros r Hr.
  unfold isin_values. rewrite !andb_true_iff, !bool_decide_eq_true.
  assert (cell r Job_Level ∈ levels df) as HL.
  { unfold levels, column_values. apply elem_of_unique.
    split; [|by intros ?%elem_of_nil]. apply list_elem_of_fmap. eauto. }
  assert (cell r Work_Type ∈ work_types df
          ↔ isna (cell r Work_Type) = false) as HW.
  { unfold work_types. rewrite elem_of_options. split; [by intros [? _]|].
    intros ?. split; [done|]. eauto. }
  rewrite HW. tauto.
Qed.

Lemma default_view_of_the_job_data_witness :
  filtered job_view (default_selection job_view)
  = Some {| columns := columns job_view;
            rows := filter (λ r, isna (cell r Work_Type) = false
                               ∧ cell r City ∈ take 10 (cities job_view))
                      (rows job_view) |}.
Proof.
  apply (default_view_of_the_job_data job_view); vm_compute; reflexivity.
Defined.

(** X19.  Whatever is selected among the options offered, the records
    shown are records of the table in their order, each has a work
    type and a city, and its work type and city are among the
    selected; a selection with no work type or no city shows
    nothing. *)
Theorem offered_options_hide_missing_cells (df out : frame value)
    (sel : selection) :
  (∀ v, v ∈ selected_work_types sel → v ∈ work_types df) →
  (∀ v, v ∈ selected_cities sel → v ∈ cities df) →
  filtered df sel = Some out →
  rows out `sublist_of` rows df
  ∧ Forall (λ r, isna (cell r Work_Type) = false
               ∧ isna (cell r City) = false
               ∧ cell r Work_Type ∈ selected_work_types sel
               ∧ cell r City ∈ selected_cities sel) (rows out)
  ∧ (selected_work_types sel = [] ∨ selected_cities sel = [] →
     rows out = []).
Proof.
  intros HW HC. unfold filtered.
  destruct (_ && _ && _); [|done]. intros [= <-]. simpl. split_and!.
  - apply sublist_filter.
  - apply Forall_forall. intros r [Hp _]%list_elem_of_filter.
    unfold isin_values in Hp.
    rewrite !andb_true_iff, !bool_decide_eq_true in Hp.
    destruct Hp as [[_ Hw] Hc]. split_and!; [| |done|done].
    + apply HW in Hw. unfold work_types in Hw.
      by apply elem_of_options in Hw as [? _].
    + apply HC in Hc. unfold cities in Hc.
      by apply elem_of_options in Hc as [? _].
  - intros Hnone.
    destruct (filter _ (rows df)) as [|r rs] eqn:E; [done|]. exfalso.
    assert (r ∈ filter (λ r,
              isin_values (selected_levels sel) (cell r Job_Level)
              && isin_values (selected_work_types sel) (cell r Work_Type)
              && isin_values (selected_cities sel) (cell r City) = true)
              (rows df)) as [Hp _]%list_elem_of_filter
      by (rewrite E; by left).
    unfold isin_values in Hp.
    rewrite !andb_true_iff, !bool_decide_eq_true in Hp.
    destruct Hp as [[_ Hw] Hc].
    destruct Hnone as [Hn|Hn]; rewrite Hn in *.
    + by apply elem_of_nil in Hw.
    + by apply elem_of_nil in Hc.
Qed.

Lemma offered_options_hide_missing_cells_witness :
  ∃ out,
    filtered job_view
      (Build_selection (levels job_view) [VStr (py "Remote")]
         (cities job_view)) = Some out
    ∧ rows out `sublist_of` rows job_view
    ∧ Forall (λ r, isna (cell r Work_Type) = false
                 ∧ isna (cell r City) = false
                 ∧ cell r Work_Type ∈ [VStr (py "Remote")]
                 ∧ cell r City ∈ cities job_view) (rows out)
    ∧ ([VStr (py "Remote")] = [] ∨ cities job_view = [] → rows out = []).
Proof.
  eexists. split; [reflexivity|].
  apply (offered_options_hide_missing_cells job_view _
           (Build_selection (levels job_view) [VStr (py "Remote")]
              (cities job_view))).
  - intros v ->%list_elem_of_singleton. vm_compute. right. by left.
  - done.
  - reflexivity.
Defined.


(** * Basic cleaning (lines 26 to 28) *)

Lemma rekey_is_Some {A} (cols : list pystr) (r : gmap pystr A) (c0 : pystr) :
  c0 ∈ cols → is_Some (r !! c0) → is_Some (rekey cols r !! strip c0).
Proof.
  intros Hin Hv. induction cols as [|c cols IH]; [by apply elem_of_nil in Hin|].
  simpl. apply elem_of_cons in Hin as [<-|Hin].
  - destruct Hv as [v ->]. by rewrite lookup_insert_eq.
  - destruct (r !! c) as [w|]; [|by apply IH].
    destruct (decide (strip c = strip c0)) as [->|Hne].
    + by rewrite lookup_insert_eq.
    + rewrite lookup_insert_ne by done. by apply IH.
Qed.

(** X20.  After basic cleaning no two records are equal, the records are
    those of the ingested frame under the trimmed labels, every column
    left has a value in some record, and no record has a cell outside
    the columns. *)
Theorem basic_cleaning_invariants (raw : frame pystr) :
  NoDup (rows (basic_cleaning raw))
  ∧ rows (basic_cleaning raw)
    `sublist_of` rows (strip_columns (dropna_columns raw))
  ∧ (∀ r, r ∈ rows (basic_cleaning raw)
          ↔ r ∈ rows (strip_columns (dropna_columns raw)))
  ∧ (∀ c, c ∈ columns (basic_cleaning raw) →
          ∃ r, r ∈ rows (basic_cleaning raw) ∧ is_Some (r !! c))
  ∧ (∀ r c, r ∈ rows (basic_cleaning raw) → is_Some (r !! c) →
            c ∈ columns (basic_cleaning raw)).
Proof.
  assert (∀ r, r ∈ rows (basic_cleaning raw)
               ↔ r ∈ rows (strip_columns (dropna_columns raw))) as Hrows.
  { intros r. unfold basic_cleaning, drop_duplicates. cbn [rows]. split.
    - apply keep_first_elem.
    - intros Hr. destruct (keep_first_keys id [] _ r Hr) as [Hn|Hk].
      + by apply elem_of_nil in Hn.
      + by rewrite list_fmap_id in Hk. }
  split_and!; [| |done| |].
  - unfold basic_cleaning, drop_duplicates. cbn [rows].
    rewrite <-(list_fmap_id (keep_first id [] _)). apply keep_first_NoDup.
  - unfold basic_cleaning, drop_duplicates. cbn [rows].
    apply keep_first_sublist.
  - intros c (c0 & Hc0 & <- & r0 & Hr0 & Hv)%columns_basic_cleaning.
    exists (rekey (columns (dropna_columns raw)) r0). split.
    + apply Hrows. unfold strip_columns. cbn [rows].
      apply list_elem_of_fmap. exists r0. split; [done|]. done.
    + apply rekey_is_Some; [|done]. unfold dropna_columns. cbn [columns].
      apply list_elem_of_filter. split; [|done].
      apply Exists_exists. eauto.
  - intros r c Hr [v Hv]. by eapply basic_cleaning_lookup.
Qed.

(** * Loosening the filters *)

Lemma included_loosens sel sel' v :
  loosens sel sel' → included sel v = true → included sel' v = true.
Proof.
  unfold included. intros [->|[Hne Hsub]]; [done|].
  destruct sel as [|s0 sel]; [done|]. simpl.
  destruct v as [s| |]; try done. intros Hin%bool_decide_eq_true.
  apply orb_true_iff. right. apply bool_decide_eq_true. by apply Hsub.
Qed.

Lemma sublist_filter_impl {A} (P Q : A → Prop) `{∀ x, Decision (P x)}
    `{∀ x, Decision (Q x)} (l : list A) :
  (∀ x, P x → Q x) → filter P l `sublist_of` filter Q l.
Proof.
  intros HPQ. induction l as [|x l IH]; [done|]. rewrite !filter_cons.
  destruct (decide (P x)) as [HP|HP].
  - rewrite decide_True by auto. by apply sublist_skip.
  - destruct (decide (Q x)); [by apply sublist_cons|done].
Qed.

(** X21.  Loosening a filter specification never hides a record: when
    each inclusion list is emptied or, not being empty, gets more
    choices, and the salary range is widened, the records shown before
    are still shown, in the same order.  (Making a first choice in an
    empty list is not a loosening: it can only hide records.) *)
Theorem loosening_the_filters_shows_more raw df_final f f' out out' :
  clean raw = Cleaned df_final →
  loosens (selected_country f) (selected_country f') →
  loosens (selected_city f) (selected_city f') →
  loosens (selected_seniority f) (selected_seniority f') →
  le (salary_range f').1 (salary_range f).1 = true →
  le (salary_range f).2 (salary_range f').2 = true →
  apply_filters df_final f = Some out →
  apply_filters df_final f' = Some out' →
  rows out `sublist_of` rows out'.
Proof.
  intros Hc H1 H2 H3 Hlo Hhi.
  rewrite !(apply_filters_tidy _ _ (clean_tidy _ _ Hc)).
  intros [= <-] [= <-]. simpl. apply sublist_filter_impl. intros r.
  unfold passes. rewrite !andb_true_iff. intros [[[Hco Hci] Hse] Hsa].
  split_and!; try by eapply included_loosens.
  unfold within in *. destruct (cell r Salary) as [|x|]; try done.
  apply andb_true_iff in Hsa as [Hge Hle]. unfold ge in *.
  apply andb_true_iff. split; by eapply le_trans.
Qed.

Lemma loosening_the_filters_shows_more_witness :
  rows (view (cleaned listings)
          (Build_filter_spec [py "Egypt"] [] [py "Junior"]
             (of_Z 2000, of_Z 4000)))
  `sublist_of`
  rows (view (cleaned listings)
          (Build_filter_spec [py "Egypt"; py "UAE"] [] []
             (of_Z 1000, of_Z 4000))).
Proof.
  apply (loosening_the_filters_shows_more listings (cleaned listings)
           (Build_filter_spec [py "Egypt"] [] [py "Junior"]
              (of_Z 2000, of_Z 4000))
           (Build_filter_spec [py "Egypt"; py "UAE"] [] []
              (of_Z 1000, of_Z 4000))).
  - vm_compute. reflexivity.
  - right. split; [done|]. intros s ->%list_elem_of_singleton. by left.
  - by left.
  - by left.
  - reflexivity.
  - reflexivity.
  - vm_compute. reflexivity.
  - vm_compute. reflexivity.
Defined.

(** * The salary of a record *)



(** * The job level of every record *)

Lemma with_job_level_rows (df0 df : frame value) :
  with_job_level df0 = Some df →
  Forall2 (λ r0 r, ∃ x, cell r0 Experience = VFloat x
             ∧ r = <[Job_Level := match determine_job_level (Some x) with
                                  | Some s => VStr s
                                  | None => nan
                                  end]> r0)
    (rows (strip_columns df0)) (rows df).
Proof.
  unfold with_job_level.
  destruct (has_column Experience (strip_columns df0)); [|done].
  destruct (mapM _ (rows (strip_columns df0))) as [rs|] eqn:Em; [|done].
  intros Hdf. simpl in Hdf. injection Hdf as <-. cbn [rows].
  apply mapM_Some_1 in Em. eapply Forall2_impl; [exact Em|].
  intros r0 r Hf. cbv beta in Hf.
  destruct (cell r0 Experience) as [|x|] eqn:Ex; try done.
  exists x. split; [done|]. unfold job_level_of in Hf.
  destruct (determine_job_level (Some x)); simpl in Hf; by injection Hf as <-.
Qed.

Lemma with_job_level_Some (df0 : frame value) :
  has_column Experience (strip_columns df0) = true →
  Forall (λ r, ∃ x, cell r Experience = VFloat x) (rows (strip_columns df0)) →
  is_Some (with_job_level df0).
Proof.
  intros Hcol Hnum. unfold with_job_level. rewrite Hcol.
  destruct (mapM _ (rows (strip_columns df0))) as [rs|] eqn:Em; [done|].
  exfalso. apply mapM_None_1 in Em. apply Exists_exists in Em as (r & Hr & Hn).
  rewrite Forall_forall in Hnum. destruct (Hnum r Hr) as [x Hx].
  rewrite Hx in Hn. done.
Qed.

(** C8.  For every record of the second dataset the job level follows
    from the number in its experience column: Junior below 2, Mid-Level
    from 2 up to but not including 5, Senior from 5 on, and a missing
    cell for a missing experience (NaN); nothing else of the record
    changes.  The column is added whenever the experience column is
    there and holds numbers.  1.5, 4.9 and 5.0 fall in the three bands
    in turn. *)
Theorem job_level_of_every_record (df0 df : frame value) :
  with_job_level df0 = Some df →
  Forall2 (λ r0 r,
      (∀ c : pystr, c ≠ Job_Level → r !! c = r0 !! c)
      ∧ ∃ x, cell r Experience = VFloat x
          ∧ match x with
            | Fin q =>
                ((q < 2)%Q → cell r Job_Level = VStr (py "Junior"))
                ∧ ((2 <= q)%Q → (q < 5)%Q →
                   cell r Job_Level = VStr (py "Mid-Level"))
                ∧ ((5 <= q)%Q → cell r Job_Level = VStr (py "Senior"))
            | NaN => cell r Job_Level = nan
            | NegInf => cell r Job_Level = VStr (py "Junior")
            | PosInf => cell r Job_Level = VStr (py "Senior")
            end)
    (rows (strip_columns df0)) (rows df)
  ∧ has_column Job_Level df = true
  ∧ (∀ df1 : frame value,
       has_column Experience (strip_columns df1) = true →
       Forall (λ r, ∃ x, cell r Experience = VFloat x)
         (rows (strip_columns df1)) →
       is_Some (with_job_level df1))
  ∧ (λ r, (cell r Experience, cell r Job_Level)) <$> rows band_view
    = [ (VFloat (Fin (3 # 2)), VStr (py "Junior"));
        (VFloat (Fin (49 # 10)), VStr (py "Mid-Level"));
        (VFloat (Fin 5), VStr (py "Senior"));
        (VFloat (Fin 2), VStr (py "Mid-Level"));
        (VFloat NaN, nan) ].
Proof.
  intros Hdf. split_and!.
  - eapply Forall2_impl; [exact (with_job_level_rows _ _ Hdf)|].
    intros r0 r (x & Hx & ->). split.
    + intros c Hc. by rewrite lookup_insert_ne.
    + exists x. assert (Experience ≠ Job_Level) as Hne by done.
      unfold cell in *. rewrite lookup_insert_ne by done.
      split; [done|]. rewrite lookup_insert_eq. cbn [default].
      destruct x as [| |q|]; try done.
      destruct (determine_job_level_cases q) as (H1 & H2 & H3 & _).
      split_and!.
      * intros Hq. by rewrite (H1 Hq).
      * intros Hq Hq'. by rewrite (H2 Hq Hq').
      * intros Hq. by rewrite (H3 Hq).
  - revert Hdf. unfold with_job_level.
    destruct (has_column Experience (strip_columns df0)); [|done].
    destruct (mapM _ (rows (strip_columns df0))) as [rs|]; [|done].
    intros Hdf. simpl in Hdf. injection Hdf as <-.
    unfold has_column. simpl.
    destruct (bool_decide (Job_Level ∈ strip <$> columns df0)) eqn:E.
    + by apply bool_decide_eq_true in E; apply bool_decide_eq_true.
    + apply bool_decide_eq_true, elem_of_app. right. by left.
  - apply with_job_level_Some.
  - by vm_compute.
Qed.

Lemma job_level_of_every_record_witness :
  with_job_level band_table = Some band_view
  ∧ Forall2 (λ r0 r,
      (∀ c : pystr, c ≠ Job_Level → r !! c = r0 !! c)
      ∧ ∃ x, cell r Experience = VFloat x
          ∧ match x with
            | Fin q =>
                ((q < 2)%Q → cell r Job_Level = VStr (py "Junior"))
                ∧ ((2 <= q)%Q → (q < 5)%Q →
                   cell r Job_Level = VStr (py "Mid-Level"))
                ∧ ((5 <= q)%Q → cell r Job_Level = VStr (py "Senior"))
            | NaN => cell r Job_Level = nan
            | NegInf => cell r Job_Level = VStr (py "Junior")
            | PosInf => cell r Job_Level = VStr (py "Senior")
            end)
    (rows (strip_columns band_table)) (rows band_view).
Proof.
  split; [vm_compute; reflexivity|].
  apply (job_level_of_every_record band_table band_view).
  vm_compute. reflexivity.
Defined.

(** * The location of a record *)

(** What trimming leaves: the text between the white space at the two
    ends, with no white space at either end. *)
Lemma strip_spec t :
  ∃ ws1 ws2, t = ws1 ++ strip t ++ ws2
    ∧ Forall (λ a, is_space a = true) ws1
    ∧ Forall (λ a, is_space a = true) ws2
    ∧ heads (λ a, is_space a = false) (strip t)
    ∧ ∀ a, last (strip t) = Some a → is_space a = false.
Proof.
  destruct (rstrip_decomp (drop_while is_space t)) as (ws2 & Hd & Hws2).
  exists (take_while is_space t), ws2. rewrite strip_rstrip. split_and!.
  - rewrite <-Hd. by rewrite take_drop_while.
  - apply Forall_take_while.
  - done.
  - destruct (drop_while is_space t) as [|a t'] eqn:E; [by apply heads_nil|].
    pose proof (drop_while_head _ _ _ _ E) as Ha.
    rewrite (rstrip_cons_keep a t' Ha). by apply heads_cons.
  - intros a. unfold rstrip. rewrite last_reverse.
    destruct (drop_while is_space (reverse (drop_while is_space t)))
      as [|b u] eqn:E; [done|].
    intros [= ->]. by apply (drop_while_head _ _ _ _ E).
Qed.

(** C10.  When the input has a skills column that holds a value in at
    least one record, and so still has it after basic cleaning, the
    location of every cleaned record is the ingested location with
    every ["-"] removed and the white space at its two ends taken off,
    and neither it nor the city or the country derived from it
    contains a ["-"].  Otherwise, with no skills column or with one
    that is empty in every record, the location of each record is the
    ingested one, unchanged. *)
Theorem location_loses_dashes_when_skills_survive raw df_final :
  clean raw = Cleaned df_final →
  (has_column Skills (basic_cleaning raw) = true ↔ available raw Skills)
  ∧ (available raw Skills →
     Forall (λ r,
       (∃ r0, r0 ∈ rows (basic_cleaning raw)
          ∧ cell r Link = copied (r0 !! Link)
          ∧ (r0 !! Location = None → cell r Location = nan)
          ∧ ∀ l : pystr, r0 !! Location = Some l →
              ∃ s ws1 ws2, cell r Location = VStr s
                ∧ filter (λ a, a ≠ "-") l = ws1 ++ s ++ ws2
                ∧ Forall (λ a, is_space a = true) ws1
                ∧ Forall (λ a, is_space a = true) ws2
                ∧ heads (λ a, is_space a = false) s
                ∧ ∀ a, last s = Some a → is_space a = false)
       ∧ ∀ s, cell r Location = VStr s ∨ cell r City = VStr s
              ∨ cell r Country = VStr s → "-" ∉ s) (rows df_final))
  ∧ (¬ available raw Skills →
     Forall2 (λ r0 r, cell r Location = copied (r0 !! Location))
       (rows (basic_cleaning raw)) (rows df_final)).
Proof.
  intros Hc.
  assert (has_column Skills (basic_cleaning raw) = true
          ↔ available raw Skills) as Hav.
  { unfold has_column. rewrite bool_decide_eq_true.
    apply columns_basic_cleaning. }
  destruct (location_after_basic_cleaning _ _ Hc) as [Hwith Hwithout].
  split_and!; [done| |].
  - intros Hs%Hav. specialize (Hwith Hs).
    pose proof (clean_records _ _ Hc) as Hrec. rewrite Hs in Hrec.
    rewrite Forall_forall in Hwith, Hrec. apply Forall_forall. intros r Hr.
    destruct (Hwith r Hr) as [_ Hdash]. split; [|done].
    destruct (Hrec r Hr) as (r0 & Hr0 & ->). exists r0. split; [done|].
    cbn [cleaned_record]. rewrite link_with_skills, location_with_skills.
    split_and!; [done|by intros ->|]. intros l ->. cbn [copied str_map].
    destruct (strip_spec (remove_char "-" l))
      as (ws1 & ws2 & Hl & H1 & H2 & H3 & H4).
    by exists (strip (remove_char "-" l)), ws1, ws2.
  - intros Hs. apply Hwithout.
    destruct (has_column Skills (basic_cleaning raw)); [|done].
    exfalso. by apply Hs, Hav.
Qed.

Lemma location_loses_dashes_when_skills_survive_witness :
  clean listings = Cleaned (cleaned listings)
  ∧ (has_column Skills (basic_cleaning listings) = true
     ↔ available listings Skills)
  ∧ (λ r, cell r Location) <$> rows (cleaned listings)
    = [VStr (py "AbuDhabi, UAE"); VStr (py "Dubai, United Arab Emirates");
       VStr (py "Giza, Egypt")].
Proof.
  split; [vm_compute; reflexivity|]. split; [|by vm_compute].
  apply (location_loses_dashes_when_skills_survive listings
           (cleaned listings)).
  vm_compute. reflexivity.
Defined.

(** C10 as stated fails: [empty_skills_listings] has a skills column,
    empty in every record; basic cleaning drops it, and the location
    and the city of its record keep their ["-"]. *)
Lemma empty_skills_column_keeps_the_dashes :
  Skills ∈ columns empty_skills_listings
  ∧ clean empty_skills_listings = Cleaned (cleaned empty_skills_listings)
  ∧ (λ r, (cell r Location, cell r City))
      <$> rows (cleaned empty_skills_listings)
    = [(VStr (py "Abu-Dhabi, UAE"), VStr (py "Abu-Dhabi"))]
  ∧ "-" ∈ py "Abu-Dhabi".
Proof.
  split_and!.
  - unfold empty_skills_listings. cbn [columns]. rewrite !elem_of_cons. auto 10.
  - vm_compute. reflexivity.
  - vm_compute. reflexivity.
  - unfold py. simpl. rewrite !elem_of_cons. auto.
Qed.
